(** * Lumina-AI: the live voice session of [src/App.tsx]

    A shallow embedding of the duplex voice logic of the [App] component
    ([stopLiveVoice], [startLiveVoice], the [onopen], [onmessage] and
    [onended] callbacks) and of the capture-side frame encoder
    ([onaudioprocess]), followed by the properties of the specification that
    concern them; then of the rest of the application: the conversations of
    [App] ([startNewChat], [deleteChat], [handleSendMessage], with
    [generateImage] of [services/geminiService.ts]), [TypewriterText], the
    visualizers of the live overlay, and the games of [components/Games.tsx].

    Layout.  Definitions: numbers and base64 as the browser computes them,
    the frame encoder, the objects the controller holds (sessions, audio
    contexts, buffer sources, microphone streams), asynchronous functions as
    computations that suspend at each [await], the functions of [App], the
    event loop; strings, the state and the handlers of the conversations and
    their event loop; the typewriter, the division of numbers and the
    visualizers, the games.
    Properties: the encoder; the playback discipline as an invariant of the
    event loop; the message handler; the session life cycle; the wire format
    of a frame; the conversations; the typewriter and the visualizers; the
    games. *)

From Stdlib Require Import ZArith QArith String Ascii List Lia.
From stdpp Require Import base list option.

Local Open Scope Z_scope.

(** ** JavaScript numbers on the capture path

    A sample read from a [Float32Array] is a finite binary fraction, an
    infinity or NaN.  Finite values are kept as exact rationals: on the path
    modelled here (a float32 value, clamped to [-1, 1], times [0x7FFF]) the
    IEEE double operations are exact, a 24-bit significand times a 15-bit
    integer fitting in 53 bits. *)

Inductive JSNumber : Type :=
| Finite (q : Q)
| PosInfinity
| NegInfinity
| NaN.

(** [Math.min] and [Math.max] on two arguments: NaN is contagious. *)
Definition Math_min (a b : JSNumber) : JSNumber :=
  match a, b with
  | NaN, _ | _, NaN => NaN
  | NegInfinity, _ | _, NegInfinity => NegInfinity
  | PosInfinity, y => y
  | x, PosInfinity => x
  | Finite x, Finite y => if Qle_bool x y then Finite x else Finite y
  end.

Definition Math_max (a b : JSNumber) : JSNumber :=
  match a, b with
  | NaN, _ | _, NaN => NaN
  | PosInfinity, _ | _, PosInfinity => PosInfinity
  | NegInfinity, y => y
  | x, NegInfinity => x
  | Finite x, Finite y => if Qle_bool x y then Finite y else Finite x
  end.

Definition Qsign (q : Q) : Z := Z.sgn (Qnum q).

Definition inf_of_sign (s : Z) : JSNumber :=
  if s =? 0 then NaN else if 0 <? s then PosInfinity else NegInfinity.

Definition num_sign (a : JSNumber) : Z :=
  match a with
  | Finite q => Qsign q
  | PosInfinity => 1
  | NegInfinity => -1
  | NaN => 0
  end.

(** The [*] operator. *)
Definition js_mul (a b : JSNumber) : JSNumber :=
  match a, b with
  | NaN, _ | _, NaN => NaN
  | Finite x, Finite y => Finite (x * y)
  | _, _ => inf_of_sign (num_sign a * num_sign b)
  end.

(** Truncation toward zero of a rational. *)
Definition Qtrunc (q : Q) : Z := Z.quot (Qnum q) (Zpos (Qden q)).

Definition wrap16 (z : Z) : Z :=
  let m := z mod 65536 in if 32768 <=? m then m - 65536 else m.

(** ToInt16, the conversion applied by a store into an [Int16Array]. *)
Definition ToInt16 (x : JSNumber) : Z :=
  match x with
  | Finite q => wrap16 (Qtrunc q)
  | _ => 0
  end.

(** The two bytes of an [Int16Array] element as a [Uint8Array] over the same
    buffer sees them (little-endian, the byte order of the platforms browsers
    run on). *)
Definition int16_bytes (v : Z) : list Z :=
  [Z.land v 255; Z.land (Z.shiftr v 8) 255].

Definition Uint8Array_of_buffer (pcm : list Z) : list Z :=
  flat_map int16_bytes pcm.

(** ** base64: [btoa] and [atob]

    A binary string is the list of its code units. *)
Module Base64.

Definition alphabet : list ascii :=
  list_ascii_of_string
    "ABCDEFGHIJKLMNOPQRSTUVWXYZabcdefghijklmnopqrstuvwxyz0123456789+/".

Definition char_of (n : Z) : ascii := nth (Z.to_nat n) alphabet "A"%char.

Fixpoint index_from (i : Z) (l : list ascii) (c : ascii) : option Z :=
  match l with
  | [] => None
  | x :: r => if Ascii.eqb x c then Some i else index_from (i + 1) r c
  end.

Definition index_of (c : ascii) : option Z := index_from 0 alphabet c.

Fixpoint encode (l : list Z) : string :=
  match l with
  | a :: b :: c :: r =>
      String (char_of (Z.shiftr a 2))
        (String (char_of (Z.lor (Z.shiftl (Z.land a 3) 4) (Z.shiftr b 4)))
           (String (char_of (Z.lor (Z.shiftl (Z.land b 15) 2) (Z.shiftr c 6)))
              (String (char_of (Z.land c 63)) (encode r))))
  | [a; b] =>
      String (char_of (Z.shiftr a 2))
        (String (char_of (Z.lor (Z.shiftl (Z.land a 3) 4) (Z.shiftr b 4)))
           (String (char_of (Z.shiftl (Z.land b 15) 2)) "="))
  | [a] =>
      String (char_of (Z.shiftr a 2))
        (String (char_of (Z.shiftl (Z.land a 3) 4)) "==")
  | [] => EmptyString
  end.

Definition is_byte (c : Z) : bool := (0 <=? c) && (c <=? 255).

(** [btoa] throws InvalidCharacterError ([None]) on a code unit above 255. *)
Definition btoa (s : list Z) : option string :=
  if forallb is_byte s then Some (encode s) else None.

Definition is_ascii_whitespace (c : ascii) : bool :=
  let n := nat_of_ascii c in
  (Nat.eqb n 9 || Nat.eqb n 10 || Nat.eqb n 12 || Nat.eqb n 13 || Nat.eqb n 32)%bool.

Definition is_pad (c : ascii) : bool := Ascii.eqb c "="%char.

(** Drops one or two trailing [=] of a string whose length is a multiple
    of four. *)
Definition strip_padding (l : list ascii) : list ascii :=
  if Nat.eqb (length l mod 4) 0 then
    match rev l with
    | p :: q :: r =>
        if is_pad p then (if is_pad q then rev r else rev (q :: r)) else l
    | _ => l
    end
  else l.

Fixpoint sextets (l : list ascii) : option (list Z) :=
  match l with
  | [] => Some []
  | c :: r =>
      match index_of c, sextets r with
      | Some i, Some more => Some (i :: more)
      | _, _ => None
      end
  end.

Fixpoint decode (l : list Z) : list Z :=
  match l with
  | a :: b :: c :: d :: r =>
      Z.lor (Z.shiftl a 2) (Z.shiftr b 4)
      :: Z.lor (Z.shiftl (Z.land b 15) 4) (Z.shiftr c 2)
      :: Z.lor (Z.shiftl (Z.land c 3) 6) d
      :: decode r
  | [a; b; c] =>
      [Z.lor (Z.shiftl a 2) (Z.shiftr b 4);
       Z.lor (Z.shiftl (Z.land b 15) 4) (Z.shiftr c 2)]
  | [a; b] => [Z.lor (Z.shiftl a 2) (Z.shiftr b 4)]
  | _ => []
  end.

(** [atob], the forgiving base64 decoder: [None] is InvalidCharacterError. *)
Definition atob (s : string) : option (list Z) :=
  let l := strip_padding
             (filter (fun c => negb (is_ascii_whitespace c))
                     (list_ascii_of_string s)) in
  if Nat.eqb (length l mod 4) 1 then None
  else option_map decode (sextets l).

End Base64.

(** ** The frame encoder ([processor.onaudioprocess])

    [sendRealtimeInput] receives one object per call. *)

Record Blob : Type := { data : string; mimeType : string }.
Record RealtimeInput : Type := { media : Blob }.

(** The body of the [for] loop: [pcmData[i] = Math.max(-1, Math.min(1,
    inputData[i])) * 0x7FFF]. *)
Definition pcm_sample (x : JSNumber) : Z :=
  ToInt16 (js_mul (Math_max (Finite (-1)) (Math_min (Finite 1) x)) (Finite 32767)).

Definition pcmData (inputData : list JSNumber) : list Z := map pcm_sample inputData.

(** The calls to [session.sendRealtimeInput] made by one capture tick;
    [None] stands for an exception thrown by the handler. *)
Definition onaudioprocess (inputData : list JSNumber) : option (list RealtimeInput) :=
  match Base64.btoa (Uint8Array_of_buffer (pcmData inputData)) with
  | Some base64Data =>
      Some [ {| media := {| data := base64Data; mimeType := "audio/pcm;rate=24000" |} |} ]
  | None => None
  end.

(** The buffer size passed to [createScriptProcessor(4096, 1, 1)]. *)
Definition bufferSize : nat := 4096.

(** ** Objects of the browser and of the transport

    Objects are named by their index in the store that holds them, in order
    of creation. *)

Inductive SessionStatus : Type := SessionOpen | SessionClosed.

(** [AudioContext.state]. *)
Inductive ContextState : Type := running | closed.

(** A microphone [MediaStream]: live from [getUserMedia] until its tracks
    are stopped. *)
Inductive StreamStatus : Type := StreamLive | StreamEnded.

(** An [AudioBufferSourceNode]: created, then started, then ended (by
    [stop()] or by reaching the end of its buffer), its [ended] event
    waiting to be dispatched, then dispatched. *)
Inductive SourceState : Type := Created | Playing | Ended | Notified.

(** The result of [decodeAudioData], opaque to the controller. *)
Record AudioBuffer : Type := { decodedFrom : list Z }.

Record BufferSource : Type := {
  srcContext : nat;
  srcBuffer : AudioBuffer;
  srcState : SourceState
}.

Inductive Exn : Type :=
| DOMException (name : string)
| TypeError.

(** Calls made on those objects, in the order the controller makes them. *)
Inductive Call : Type :=
| call_getUserMedia
| call_connectLive (ctx : nat)
| call_session_close (s : nat)
| call_context_close (c : nat)
| call_decodeAudioData (c : nat)
| call_source_start (s : nat)
| call_source_stop (s : nat).

(** ** The component: React state, refs, and the world around them *)

Record World : Type := {
  (* useState *)
  isLiveActive : bool;
  isLuminaSpeaking : bool;
  isLuminaThinking : bool;
  (* useRef *)
  liveSessionRef : option nat;
  audioContextRef : option nat;
  currentAudioSourceRef : option nat;
  (* the environment *)
  sessions : list SessionStatus;
  contexts : list ContextState;
  sources : list BufferSource;
  streams : list StreamStatus;
  console : list Exn;
  calls : list Call
}.

Definition initial : World :=
  {| isLiveActive := false; isLuminaSpeaking := false; isLuminaThinking := false;
     liveSessionRef := None; audioContextRef := None; currentAudioSourceRef := None;
     sessions := []; contexts := []; sources := []; streams := [];
     console := []; calls := [] |}.

Definition with_isLiveActive (b : bool) (w : World) : World :=
  {| isLiveActive := b; isLuminaSpeaking := isLuminaSpeaking w;
     isLuminaThinking := isLuminaThinking w; liveSessionRef := liveSessionRef w;
     audioContextRef := audioContextRef w;
     currentAudioSourceRef := currentAudioSourceRef w; sessions := sessions w;
     contexts := contexts w; sources := sources w; streams := streams w;
     console := console w; calls := calls w |}.

Definition with_isLuminaSpeaking (b : bool) (w : World) : World :=
  {| isLiveActive := isLiveActive w; isLuminaSpeaking := b;
     isLuminaThinking := isLuminaThinking w; liveSessionRef := liveSessionRef w;
     audioContextRef := audioContextRef w;
     currentAudioSourceRef := currentAudioSourceRef w; sessions := sessions w;
     contexts := contexts w; sources := sources w; streams := streams w;
     console := console w; calls := calls w |}.

Definition with_isLuminaThinking (b : bool) (w : World) : World :=
  {| isLiveActive := isLiveActive w; isLuminaSpeaking := isLuminaSpeaking w;
     isLuminaThinking := b; liveSessionRef := liveSessionRef w;
     audioContextRef := audioContextRef w;
     currentAudioSourceRef := currentAudioSourceRef w; sessions := sessions w;
     contexts := contexts w; sources := sources w; streams := streams w;
     console := console w; calls := calls w |}.

Definition with_liveSessionRef (r : option nat) (w : World) : World :=
  {| isLiveActive := isLiveActive w; isLuminaSpeaking := isLuminaSpeaking w;
     isLuminaThinking := isLuminaThinking w; liveSessionRef := r;
     audioContextRef := audioContextRef w;
     currentAudioSourceRef := currentAudioSourceRef w; sessions := sessions w;
     contexts := contexts w; sources := sources w; streams := streams w;
     console := console w; calls := calls w |}.

Definition with_audioContextRef (r : option nat) (w : World) : World :=
  {| isLiveActive := isLiveActive w; isLuminaSpeaking := isLuminaSpeaking w;
     isLuminaThinking := isLuminaThinking w; liveSessionRef := liveSessionRef w;
     audioContextRef := r;
     currentAudioSourceRef := currentAudioSourceRef w; sessions := sessions w;
     contexts := contexts w; sources := sources w; streams := streams w;
     console := console w; calls := calls w |}.

Definition with_currentAudioSourceRef (r : option nat) (w : World) : World :=
  {| isLiveActive := isLiveActive w; isLuminaSpeaking := isLuminaSpeaking w;
     isLuminaThinking := isLuminaThinking w; liveSessionRef := liveSessionRef w;
     audioContextRef := audioContextRef w;
     currentAudioSourceRef := r; sessions := sessions w;
     contexts := contexts w; sources := sources w; streams := streams w;
     console := console w; calls := calls w |}.

Definition with_sessions (l : list SessionStatus) (w : World) : World :=
  {| isLiveActive := isLiveActive w; isLuminaSpeaking := isLuminaSpeaking w;
     isLuminaThinking := isLuminaThinking w; liveSessionRef := liveSessionRef w;
     audioContextRef := audioContextRef w;
     currentAudioSourceRef := currentAudioSourceRef w; sessions := l;
     contexts := contexts w; sources := sources w; streams := streams w;
     console := console w; calls := calls w |}.

Definition with_contexts (l : list ContextState) (w : World) : World :=
  {| isLiveActive := isLiveActive w; isLuminaSpeaking := isLuminaSpeaking w;
     isLuminaThinking := isLuminaThinking w; liveSessionRef := liveSessionRef w;
     audioContextRef := audioContextRef w;
     currentAudioSourceRef := currentAudioSourceRef w; sessions := sessions w;
     contexts := l; sources := sources w; streams := streams w;
     console := console w; calls := calls w |}.

Definition with_sources (l : list BufferSource) (w : World) : World :=
  {| isLiveActive := isLiveActive w; isLuminaSpeaking := isLuminaSpeaking w;
     isLuminaThinking := isLuminaThinking w; liveSessionRef := liveSessionRef w;
     audioContextRef := audioContextRef w;
     currentAudioSourceRef := currentAudioSourceRef w; sessions := sessions w;
     contexts := contexts w; sources := l; streams := streams w;
     console := console w; calls := calls w |}.

Definition with_streams (l : list StreamStatus) (w : World) : World :=
  {| isLiveActive := isLiveActive w; isLuminaSpeaking := isLuminaSpeaking w;
     isLuminaThinking := isLuminaThinking w; liveSessionRef := liveSessionRef w;
     audioContextRef := audioContextRef w;
     currentAudioSourceRef := currentAudioSourceRef w; sessions := sessions w;
     contexts := contexts w; sources := sources w; streams := l;
     console := console w; calls := calls w |}.

Definition with_console (l : list Exn) (w : World) : World :=
  {| isLiveActive := isLiveActive w; isLuminaSpeaking := isLuminaSpeaking w;
     isLuminaThinking := isLuminaThinking w; liveSessionRef := liveSessionRef w;
     audioContextRef := audioContextRef w;
     currentAudioSourceRef := currentAudioSourceRef w; sessions := sessions w;
     contexts := contexts w; sources := sources w; streams := streams w;
     console := l; calls := calls w |}.

Definition with_calls (l : list Call) (w : World) : World :=
  {| isLiveActive := isLiveActive w; isLuminaSpeaking := isLuminaSpeaking w;
     isLuminaThinking := isLuminaThinking w; liveSessionRef := liveSessionRef w;
     audioContextRef := audioContextRef w;
     currentAudioSourceRef := currentAudioSourceRef w; sessions := sessions w;
     contexts := contexts w; sources := sources w; streams := streams w;
     console := console w; calls := l |}.

Definition log_call (c : Call) (w : World) : World := with_calls (calls w ++ [c]) w.

(** What the live overlay shows: nothing when [isLiveActive] is false,
    otherwise [isLuminaSpeaking ? "Lumina is speaking..." : isLuminaThinking
    ? "Thinking..." : "Listening..."]. *)
Inductive SessionState : Type := Idle | Thinking | Listening | Speaking.

Definition sessionState (w : World) : SessionState :=
  if negb (isLiveActive w) then Idle
  else if isLuminaSpeaking w then Speaking
  else if isLuminaThinking w then Thinking
  else Listening.

(** ** Asynchronous functions

    An [async] function runs until it returns, throws, or reaches an
    [await]; there it is suspended on a request to the environment with the
    rest of its body as continuation. *)

Inductive Request : Type -> Type :=
| getUserMedia : Request nat
| connectLive (ctx : nat) : Request nat
| session_close (s : nat) : Request unit
| context_close (c : nat) : Request unit
| decodeAudioData (c : nat) (audioData : list Z) : Request AudioBuffer.

Inductive Result (T : Type) : Type :=
| Resolved (v : T)
| Rejected (e : Exn).
Arguments Resolved {T} v.
Arguments Rejected {T} e.

Inductive Outcome (A : Type) : Type :=
| Returned (w : World) (a : A)
| Thrown (w : World) (e : Exn)
| Awaiting (w : World) {T : Type} (r : Request T) (k : Result T -> World -> Outcome A).
Arguments Returned {A} w a.
Arguments Thrown {A} w e.
Arguments Awaiting {A} w {T} r k.

Definition Async (A : Type) : Type := World -> Outcome A.

Fixpoint bind_outcome {A B : Type} (o : Outcome A) (f : A -> Async B) : Outcome B :=
  match o with
  | Returned w a => f a w
  | Thrown w e => Thrown w e
  | Awaiting w r k => Awaiting w r (fun res w' => bind_outcome (k res w') f)
  end.

Fixpoint catch_outcome {A : Type} (o : Outcome A) (h : Exn -> Async A) : Outcome A :=
  match o with
  | Returned w a => Returned w a
  | Thrown w e => h e w
  | Awaiting w r k => Awaiting w r (fun res w' => catch_outcome (k res w') h)
  end.

#[global] Instance Async_ret : MRet Async := fun A a w => Returned w a.
#[global] Instance Async_bind : MBind Async :=
  fun A B f m w => bind_outcome (m w) f.

Definition throw {A : Type} (e : Exn) : Async A := fun w => Thrown w e.

Definition try_catch {A : Type} (body : Async A) (h : Exn -> Async A) : Async A :=
  fun w => catch_outcome (body w) h.

Definition call_of {T : Type} (r : Request T) : Call :=
  match r with
  | getUserMedia => call_getUserMedia
  | connectLive ctx => call_connectLive ctx
  | session_close s => call_session_close s
  | context_close c => call_context_close c
  | decodeAudioData c _ => call_decodeAudioData c
  end.

(** [await r]: the call is made now, the function resumes with its result. *)
Definition await {T : Type} (r : Request T) : Async T :=
  fun w =>
    Awaiting (log_call (call_of r) w) r
      (fun res w' =>
         match res with
         | Resolved v => Returned w' v
         | Rejected e => Thrown w' e
         end).

Definition skip : Async unit := fun w => Returned w tt.
Definition read {A : Type} (f : World -> A) : Async A := fun w => Returned w (f w).
Definition write (g : World -> World) : Async unit := fun w => Returned (g w) tt.

(** ** Synchronous calls into the browser *)

(** [new AudioContext({ sampleRate: 24000 })]. *)
Definition new_AudioContext : Async nat :=
  fun w => Returned (with_contexts (contexts w ++ [running]) w) (length (contexts w)).

(** [audioContext.createBufferSource()] followed by [source.buffer = ...]
    and the two [connect] calls. *)
Definition createBufferSource (ctx : nat) (audioBuffer : AudioBuffer) : Async nat :=
  fun w =>
    Returned
      (with_sources
         (sources w ++ [{| srcContext := ctx; srcBuffer := audioBuffer; srcState := Created |}])
         w)
      (length (sources w)).

Definition set_state (st : SourceState) (src : BufferSource) : BufferSource :=
  {| srcContext := srcContext src; srcBuffer := srcBuffer src; srcState := st |}.

(** The state of node [s], if it exists. *)
Definition state_at (srcs : list BufferSource) (s : nat) : option SourceState :=
  srcState <$> srcs !! s.

(** Node [s], if it exists, moves to state [st]. *)
Definition mark (s : nat) (st : SourceState) (w : World) : World :=
  with_sources (alter (set_state st) s (sources w)) w.

(** [source.stop()]: InvalidStateError on a node that was never started;
    ends a playing node; no effect on a node that has already ended. *)
Definition source_stop (s : nat) : Async unit :=
  fun w0 =>
    let w := log_call (call_source_stop s) w0 in
    match state_at (sources w) s with
    | Some Created => Thrown w (DOMException "InvalidStateError")
    | Some Playing => Returned (mark s Ended w) tt
    | Some Ended | Some Notified => Returned w tt
    | None => Thrown w TypeError
    end.

(** [source.start()]: InvalidStateError when called a second time. *)
Definition source_start (s : nat) : Async unit :=
  fun w0 =>
    let w := log_call (call_source_start s) w0 in
    match state_at (sources w) s with
    | Some Created => Returned (mark s Playing w) tt
    | Some _ => Thrown w (DOMException "InvalidStateError")
    | None => Thrown w TypeError
    end.

Definition console_error (err : Exn) : Async unit :=
  write (fun w => with_console (console w ++ [err]) w).

Definition setIsLiveActive (b : bool) : Async unit := write (with_isLiveActive b).
Definition setIsLuminaSpeaking (b : bool) : Async unit := write (with_isLuminaSpeaking b).
Definition setIsLuminaThinking (b : bool) : Async unit := write (with_isLuminaThinking b).

(** [audioContextRef.current.state !== 'closed']. *)
Definition context_not_closed (c : nat) (w : World) : bool :=
  match contexts w !! c with
  | Some closed => false
  | _ => true
  end.

(** ** Messages of the transport *)

Module Inbound.
Record InlineData : Type := { data : option string }.
Record Part : Type := { inlineData : option InlineData }.
Record Content : Type := { parts : option (list Part) }.
Record ServerContent : Type := { modelTurn : option Content; interrupted : bool }.
Record Message : Type := { serverContent : option ServerContent }.
End Inbound.

(** [message.serverContent?.modelTurn]. *)
Definition message_modelTurn (message : Inbound.Message) : option Inbound.Content :=
  match Inbound.serverContent message with
  | Some sc => Inbound.modelTurn sc
  | None => None
  end.

(** [message.serverContent?.interrupted], as a condition. *)
Definition message_interrupted (message : Inbound.Message) : bool :=
  match Inbound.serverContent message with
  | Some sc => Inbound.interrupted sc
  | None => false
  end.

(** [parts[0]?.inlineData?.data]. *)
Definition first_inline_data (parts : list Inbound.Part) : option string :=
  match parts with
  | part :: _ =>
      match Inbound.inlineData part with
      | Some inline => Inbound.data inline
      | None => None
      end
  | [] => None
  end.

(** Truthiness of an optional string: [undefined] and [""] are falsy. *)
Definition truthy (s : option string) : option string :=
  match s with
  | Some EmptyString => None
  | other => other
  end.

(** [Uint8Array.from(atob(base64Audio), c => c.charCodeAt(0)).buffer]. *)
Definition atob (base64Audio : string) : Async (list Z) :=
  fun w =>
    match Base64.atob base64Audio with
    | Some bytes => Returned w bytes
    | None => Thrown w (DOMException "InvalidCharacterError")
    end.

(** ** The live voice logic of [App] *)

Definition stopLiveVoice : Async unit :=
  session ← read liveSessionRef;
  match session with
  | Some s => await (session_close s);; write (with_liveSessionRef None)
  | None => skip
  end;;
  audioContext ← read audioContextRef;
  isOpen ← read (fun w => match audioContext with
                        | Some c => context_not_closed c w
                        | None => false
                        end);
  match audioContext with
  | Some c =>
      if (isOpen : bool) then await (context_close c);; write (with_audioContextRef None)
      else skip
  | None => skip
  end;;
  current ← read currentAudioSourceRef;
  match current with
  | Some src => source_stop src;; write (with_currentAudioSourceRef None)
  | None => skip
  end;;
  setIsLiveActive false;;
  setIsLuminaSpeaking false;;
  setIsLuminaThinking false.

(** [source.onended], for the source [source] it is attached to. *)
Definition onended (source : nat) : Async unit :=
  current ← read currentAudioSourceRef;
  match current with
  | Some c =>
      if Nat.eqb c source then
        setIsLuminaSpeaking false;;
        write (with_currentAudioSourceRef None)
      else skip
  | None => skip
  end.

Definition onopen : Async unit := setIsLuminaThinking false.

(** [onmessage], for the callbacks object whose closure holds
    [audioContext]: its two consecutive [if] statements, then the handler. *)
Definition onmessage_modelTurn (audioContext : nat) (message : Inbound.Message) : Async unit :=
  match message_modelTurn message with
  | Some modelTurn =>
      setIsLuminaSpeaking true;;
      setIsLuminaThinking false;;
      match Inbound.parts modelTurn with
      | None => throw (A := unit) TypeError
      | Some parts =>
          match truthy (first_inline_data parts) with
          | Some base64Audio =>
              audioData ← atob base64Audio;
              audioBuffer ← await (decodeAudioData audioContext audioData);
              source ← createBufferSource audioContext audioBuffer;
              current ← read currentAudioSourceRef;
              match current with
              | Some previous => source_stop previous
              | None => skip
              end;;
              write (with_currentAudioSourceRef (Some source));;
              source_start source
          | None => skip
          end
      end
  | None => skip
  end.

Definition onmessage_interrupted (message : Inbound.Message) : Async unit :=
  if message_interrupted message then
    current ← read currentAudioSourceRef;
    match current with
    | Some src => source_stop src;; write (with_currentAudioSourceRef None)
    | None => skip
    end;;
    setIsLuminaSpeaking false
  else skip.

Definition onmessage (audioContext : nat) (message : Inbound.Message) : Async unit :=
  onmessage_modelTurn audioContext message;;
  onmessage_interrupted message.

(** [startLiveVoice].  The microphone source, the analysers and the script
    processor built between the two awaits only wire the audio graph.  The
    [catch] block ends with an unawaited call of [stopLiveVoice]: nothing
    follows it, so the function continues as that call. *)
Definition startLiveVoice : Async unit :=
  try_catch
    (setIsLiveActive true;;
     setIsLuminaThinking true;;
     audioContext ← new_AudioContext;
     write (with_audioContextRef (Some audioContext));;
     stream ← await getUserMedia;
     session ← await (connectLive audioContext);
     write (with_liveSessionRef (Some session)))
    (fun err => console_error err;; stopLiveVoice).

(** ** The environment's side of an awaited call

    [settle r failure w]: with [failure = Some e] the promise rejects with
    [e] and nothing changes; otherwise the call takes effect and the promise
    resolves. *)
Definition settle {T : Type} (r : Request T) (failure : option Exn) (w : World)
  : World * Result T :=
  match failure with
  | Some e => (w, Rejected e)
  | None =>
      match r in Request T0 return World * Result T0 with
      | getUserMedia =>
          (with_streams (streams w ++ [StreamLive]) w, Resolved (length (streams w)))
      | connectLive _ =>
          (with_sessions (sessions w ++ [SessionOpen]) w, Resolved (length (sessions w)))
      | session_close s =>
          (with_sessions (<[s := SessionClosed]> (sessions w)) w, Resolved tt)
      | context_close c =>
          (with_contexts (<[c := closed]> (contexts w)) w, Resolved tt)
      | decodeAudioData _ audioData =>
          (w, Resolved {| decodedFrom := audioData |})
      end
  end.

(** An asynchronous function run on its own, its awaited calls settling one
    after the other as [answers] says, with no other handler in between. *)
Fixpoint complete {A : Type} (answers : list (option Exn)) (o : Outcome A) : Outcome A :=
  match o, answers with
  | Awaiting w r k, a :: rest =>
      let (w1, res) := settle r a w in complete rest (k res w1)
  | _, _ => o
  end.

Definition world_of {A : Type} (o : Outcome A) : World :=
  match o with
  | Returned w _ | Thrown w _ | Awaiting w _ _ => w
  end.

Definition returned {A : Type} (o : Outcome A) : bool :=
  match o with
  | Returned _ _ => true
  | _ => false
  end.

(** ** The event loop *)

Inductive Suspended : Type :=
| Susp {T : Type} (r : Request T) (k : Result T -> World -> Outcome unit).

Record Loop : Type := {
  world : World;
  pending : list Suspended;
  (* rejections of handler promises that nothing catches *)
  unhandled : list Exn
}.

Definition boot : Loop := {| world := initial; pending := []; unhandled := [] |}.

(** The loop after a handler has run up to its next suspension. *)
Definition enter (o : Outcome unit) (l : Loop) : Loop :=
  match o with
  | Returned w _ => {| world := w; pending := pending l; unhandled := unhandled l |}
  | Thrown w e => {| world := w; pending := pending l; unhandled := unhandled l ++ [e] |}
  | Awaiting w r k =>
      {| world := w; pending := pending l ++ [Susp r k]; unhandled := unhandled l |}
  end.

Inductive Event : Type :=
| click_start
| click_stop
| transport_open
| transport_message (audioContext : nat) (message : Inbound.Message)
| settled (i : nat) (failure : option Exn)
| playback_end (s : nat)
| dispatch_ended (s : nat).

Definition state_eqb (a b : SourceState) : bool :=
  match a, b with
  | Created, Created | Playing, Playing | Ended, Ended | Notified, Notified => true
  | _, _ => false
  end.

Definition source_in (st : SourceState) (s : nat) (w : World) : bool :=
  match state_at (sources w) s with
  | Some st' => state_eqb st' st
  | None => false
  end.

(** One tick.  An event that cannot occur in [l] leaves it unchanged: a
    promise settles only if it is pending, a source reaches the end of its
    buffer only while playing, and [ended] is dispatched only to a source
    that has ended. *)
Definition fire (ev : Event) (l : Loop) : Loop :=
  match ev with
  | click_start => enter (startLiveVoice (world l)) l
  | click_stop => enter (stopLiveVoice (world l)) l
  | transport_open => enter (onopen (world l)) l
  | transport_message audioContext message =>
      enter (onmessage audioContext message (world l)) l
  | settled i failure =>
      match pending l !! i with
      | Some (Susp r k) =>
          let (w1, res) := settle r failure (world l) in
          enter (k res w1)
            {| world := w1; pending := delete i (pending l); unhandled := unhandled l |}
      | None => l
      end
  | playback_end s =>
      if source_in Playing s (world l) then
        {| world := mark s Ended (world l); pending := pending l; unhandled := unhandled l |}
      else l
  | dispatch_ended s =>
      if source_in Ended s (world l) then enter (onended s (mark s Notified (world l))) l
      else l
  end.

Definition run (evs : list Event) (l : Loop) : Loop := foldl (fun acc ev => fire ev acc) l evs.

Definition is_playing (src : BufferSource) : bool :=
  match srcState src with
  | Playing => true
  | _ => false
  end.

Fixpoint count_playing (srcs : list BufferSource) : nat :=
  match srcs with
  | [] => 0
  | src :: rest => (if is_playing src then 1 else 0) + count_playing rest
  end.

(** The number of handles that are started and not stopped. *)
Definition active_handles (w : World) : nat := count_playing (sources w).

(** Messages used in the examples below. *)
Definition chunk (base64Audio : string) (interrupt : bool) : Inbound.Message :=
  {| Inbound.serverContent :=
       Some {| Inbound.modelTurn :=
                 Some {| Inbound.parts :=
                           Some [ {| Inbound.inlineData :=
                                       Some {| Inbound.data := Some base64Audio |} |} ] |};
               Inbound.interrupted := interrupt |} |}.

Definition interruption : Inbound.Message :=
  {| Inbound.serverContent :=
       Some {| Inbound.modelTurn := None; Inbound.interrupted := true |} |}.

Definition text_turn (interrupt : bool) : Inbound.Message :=
  {| Inbound.serverContent :=
       Some {| Inbound.modelTurn :=
                 Some {| Inbound.parts := Some [ {| Inbound.inlineData := None |} ] |};
               Inbound.interrupted := interrupt |} |}.

(** ** Vocabulary of the statements *)

(** The payload the handler will decode, if any. *)
Definition message_audio (message : Inbound.Message) : option string :=
  match message_modelTurn message with
  | Some modelTurn =>
      match Inbound.parts modelTurn with
      | Some parts => truthy (first_inline_data parts)
      | None => None
      end
  | None => None
  end.

(** A model turn, if present, has a [parts] array. *)
Definition has_parts (message : Inbound.Message) : bool :=
  match message_modelTurn message with
  | Some modelTurn =>
      match Inbound.parts modelTurn with
      | Some _ => true
      | None => false
      end
  | None => true
  end.

(** The current handle, if any, is an existing node that has been started,
    so that [stop()] on it does not throw. *)
Definition stoppable (w : World) : bool :=
  match currentAudioSourceRef w with
  | Some s => source_in Playing s w || source_in Ended s w || source_in Notified s w
  | None => true
  end.

(** The audio context held by the controller, unless it is closed. *)
Definition open_context (w : World) : option nat :=
  match audioContextRef w with
  | Some c => if context_not_closed c w then Some c else None
  | None => None
  end.

(** The calls a teardown makes when none of them throws. *)
Definition teardown_calls (w : World) : list Call :=
  match liveSessionRef w with
  | Some s => [call_session_close s]
  | None => []
  end ++
  match open_context w with
  | Some c => [call_context_close c]
  | None => []
  end ++
  match currentAudioSourceRef w with
  | Some s => [call_source_stop s]
  | None => []
  end.

Definition is_connect (c : Call) : bool :=
  match c with
  | call_connectLive _ => true
  | _ => false
  end.

(** What [stop()] does to the state of a node. *)
Definition stopped (st : option SourceState) : option SourceState :=
  match st with
  | Some Playing => Some Ended
  | other => other
  end.

(** The playback discipline: a playing source is the current one, and the
    current one has been started. *)
Definition voice_ok (srcs : list BufferSource) (current : option nat) : Prop :=
  (forall s, state_at srcs s = Some Playing -> current = Some s) /\
  (forall s, current = Some s ->
             exists st, state_at srcs s = Some st /\ st <> Created).

Definition consistent (w : World) : Prop := voice_ok (sources w) (currentAudioSourceRef w).

(** [Post Q o]: [o] ends in a world satisfying [Q], or throws or suspends in
    a consistent world, and does so again whenever it is resumed in a
    consistent world. *)
Inductive Post {A : Type} (Q : A -> World -> Prop) : Outcome A -> Prop :=
| post_returned w a : Q a w -> Post Q (Returned w a)
| post_thrown w e : consistent w -> Post Q (Thrown w e)
| post_awaiting w T (r : Request T) k :
    consistent w ->
    (forall res w', consistent w' -> Post Q (k res w')) ->
    Post Q (Awaiting w r k).

Definition keeps (o : Outcome unit) : Prop := Post (fun _ w => consistent w) o.

Definition suspended_ok (s : Suspended) : Prop :=
  match s with
  | Susp r k => forall res w, consistent w -> keeps (k res w)
  end.

Definition loop_ok (l : Loop) : Prop :=
  consistent (world l) /\ Forall suspended_ok (pending l).

(** The world in which [startLiveVoice] waits for the microphone. *)
Definition awaiting_microphone (w : World) : World :=
  log_call call_getUserMedia
    (with_audioContextRef (Some (length (contexts w)))
       (with_contexts (contexts w ++ [running])
          (with_isLuminaThinking true (with_isLiveActive true w)))).

(** Two runs used as examples: a session started and opened, and the same
    session after a first chunk has been decoded and started. *)
Definition opened_session : list Event :=
  [click_start; settled 0 None; settled 0 None; transport_open].

Definition playing_session : list Event :=
  opened_session ++ [transport_message 0 (chunk "TWFu" false); settled 0 None].

(** The world in which [startLiveVoice] waits for the transport, the
    microphone granted. *)
Definition awaiting_connection (w : World) : World :=
  log_call (call_connectLive (length (contexts w)))
    (with_streams (streams w ++ [StreamLive]) (awaiting_microphone w)).

(** A stop requested while the call to [connectLive] is pending, the
    teardown finishing before the transport answers. *)
Definition stop_while_connecting : list Event :=
  [click_start; settled 0 None; click_stop; settled 1 None; settled 0 None].




(** ** Teardowns in progress *)

(** Nothing is left to tear down and the overlay is down. *)
Definition torn_down (w : World) : Prop :=
  liveSessionRef w = None /\ open_context w = None /\ currentAudioSourceRef w = None
  /\ isLiveActive w = false /\ isLuminaSpeaking w = false /\ isLuminaThinking w = false.

Definition is_close (c : Call) : bool :=
  match c with
  | call_session_close _ | call_context_close _ => true
  | _ => false
  end.

(** The worlds a teardown may be resumed in: the current handle can be
    stopped, and the microphone streams are [mics]. *)
Definition calm (mics : list StreamStatus) (w : World) : Prop :=
  stoppable w = true /\ streams w = mics.

(** From [w] to [w'] the session reference, once cleared, has stayed so. *)
Definition fades (w w' : World) : Prop :=
  liveSessionRef w = None -> liveSessionRef w' = None.

(** [Tears mics n w o]: [o] is what a teardown does from [w], needing at
    most [n] more close calls.  Provided each of them resolves, in whatever
    calm world it does where no session has been stored meanwhile, [o]
    throws nothing and returns with everything torn down. *)
Inductive Tears (mics : list StreamStatus) : nat -> World -> Outcome unit -> Prop :=
| tears_returned n w0 w a :
    calm mics w -> fades w0 w -> torn_down w -> Tears mics n w0 (Returned w a)
| tears_awaiting n w0 w T (r : Request T) k :
    calm mics w ->
    fades w0 w ->
    is_close (call_of r) = true ->
    (forall w1, calm mics w1 -> fades w w1 ->
       Tears mics n (settle r None w1).1 (k (settle r None w1).2 (settle r None w1).1)) ->
    Tears mics (S n) w0 (Awaiting w r k).

Definition suspended_tears (mics : list StreamStatus) (w : World) (n : nat) (x : Suspended)
  : Prop :=
  match x with
  | Susp r k =>
      is_close (call_of r) = true
      /\ forall w1, calm mics w1 -> fades w w1 ->
           Tears mics n (settle r None w1).1 (k (settle r None w1).2 (settle r None w1).1)
  end.

(** Clicks on the stop button and close calls that resolve. *)
Definition stop_or_answer (ev : Event) : bool :=
  match ev with
  | click_stop | settled _ None => true
  | _ => false
  end.

(** A loop in which only teardowns are in flight, [debt] bounding the close
    calls they still have to make or to hear of. *)
Definition tearing (mics : list StreamStatus) (debt : nat) (l : Loop) : Prop :=
  calm mics (world l)
  /\ (pending l = [] -> torn_down (world l))
  /\ exists ns : list nat,
       Forall2 (suspended_tears mics (world l)) ns (pending l)
       /\ (sum_list_with S ns <= debt)%nat.

(** * The conversations of [App]

    ** JavaScript strings

    A string is the list of its UTF-16 code units; [codes] gives the units of
    a literal of the source. *)

Definition JSString : Type := list Z.

Definition codes (s : string) : JSString :=
  map (fun c => Z.of_nat (nat_of_ascii c)) (list_ascii_of_string s).

Module JS.

(** WhiteSpace and LineTerminator, the code units [trim] strips. *)
Definition is_whitespace (c : Z) : bool :=
  (c =? 9) || (c =? 10) || (c =? 11) || (c =? 12) || (c =? 13) || (c =? 32)
  || (c =? 160) || (c =? 5760) || ((8192 <=? c) && (c <=? 8202))
  || (c =? 8232) || (c =? 8233) || (c =? 8239) || (c =? 8287)
  || (c =? 12288) || (c =? 65279).

Fixpoint trimStart (s : JSString) : JSString :=
  match s with
  | c :: r => if is_whitespace c then trimStart r else s
  | [] => []
  end.

Definition trimEnd (s : JSString) : JSString := rev (trimStart (rev s)).

Definition trim (s : JSString) : JSString := trimEnd (trimStart s).

(** Truthiness of a string: only the empty string is falsy. *)
Definition truthy (s : JSString) : bool :=
  match s with
  | [] => false
  | _ :: _ => true
  end.

Fixpoint startsWith (s searchString : JSString) : bool :=
  match searchString, s with
  | [], _ => true
  | _ :: _, [] => false
  | x :: searchString', c :: s' => (x =? c) && startsWith s' searchString'
  end.

Fixpoint includes (s searchString : JSString) : bool :=
  startsWith s searchString
  || match s with
     | [] => false
     | _ :: s' => includes s' searchString
     end.

(** [s.slice(0, n)]. *)
Definition slice_to (n : nat) (s : JSString) : JSString := take n s.

(** [toLowerCase] on the letters A to Z; the other code units are kept. *)
Definition toLowerCase_ascii (s : JSString) : JSString :=
  map (fun c => if (65 <=? c) && (c <=? 90) then c + 32 else c) s.

End JS.

(** ** [generateImage] and the chat of [geminiService] *)

Module Gemini.

(** [GenerateContentResponse], as far as the code reads it: [text] for a
    chat reply, [candidates] for an image. *)
Record Candidate : Type := { content : option Inbound.Content }.
Record GenerateContentResponse : Type := {
  text : option JSString;
  candidates : option (list Candidate)
}.

(** The body of the [for] loop of [generateImage]. *)
Fixpoint first_image (parts : list Inbound.Part) : option JSString :=
  match parts with
  | [] => None
  | part :: rest =>
      match Inbound.inlineData part with
      | Some inline =>
          Some (codes "data:image/png;base64,"
                ++ match Inbound.data inline with
                   | Some d => codes d
                   | None => codes "undefined"
                   end)
      | None => first_image rest
      end
  end.

(** [response.candidates[0].content.parts]: a TypeError where a property is
    read from [undefined], or [undefined] is iterated. *)
Definition candidate_parts (response : GenerateContentResponse) : option (list Inbound.Part) :=
  match candidates response with
  | Some (candidate :: _) =>
      match content candidate with
      | Some c => Inbound.parts c
      | None => None
      end
  | _ => None
  end.

End Gemini.

(** ** The state of [App]

    Ids are the values of [Date.now()] whose decimal text the code stores:
    two ids are equal as strings exactly when they are equal as numbers. *)

Module Conversation.

Inductive Mode : Type := home | chat | learn | games | dictionary | live.

Inductive Role : Type := user | assistant.

Module Message.
Record t : Type := {
  id : Z;
  role : Role;
  content : option JSString;
  imageUrl : option JSString;
  timestamp : Z
}.
End Message.

Module Chat.
Record t : Type := {
  id : Z;
  title : JSString;
  mode : Mode;
  messages : list Message.t;
  timestamp : Z
}.

(** [{ ...c, title }] and [{ ...c, messages }]. *)
Definition with_title (x : JSString) (c : t) : t :=
  {| id := id c; title := x; mode := mode c; messages := messages c;
     timestamp := timestamp c |}.

Definition with_messages (x : list Message.t) (c : t) : t :=
  {| id := id c; title := title c; mode := mode c; messages := x;
     timestamp := timestamp c |}.
End Chat.

Record State : Type := {
  (* useState *)
  language : option JSString;
  mode : Mode;
  messages : list Message.t;
  input : JSString;
  isLoading : bool;
  chats : list Chat.t;
  activeChatId : option Z;
  isSidebarOpen : bool;
  (* the environment: what was logged, the values the clock will give and
     how many of them were read *)
  console : list Exn;
  clock : nat -> Z;
  reads : nat
}.

Definition with_language (x : option JSString) (st : State) : State :=
  {| language := x; mode := mode st; messages := messages st; input := input st;
     isLoading := isLoading st; chats := chats st; activeChatId := activeChatId st;
     isSidebarOpen := isSidebarOpen st; console := console st; clock := clock st;
     reads := reads st |}.

Definition with_mode (x : Mode) (st : State) : State :=
  {| language := language st; mode := x; messages := messages st; input := input st;
     isLoading := isLoading st; chats := chats st; activeChatId := activeChatId st;
     isSidebarOpen := isSidebarOpen st; console := console st; clock := clock st;
     reads := reads st |}.

Definition with_messages (x : list Message.t) (st : State) : State :=
  {| language := language st; mode := mode st; messages := x; input := input st;
     isLoading := isLoading st; chats := chats st; activeChatId := activeChatId st;
     isSidebarOpen := isSidebarOpen st; console := console st; clock := clock st;
     reads := reads st |}.

Definition with_input (x : JSString) (st : State) : State :=
  {| language := language st; mode := mode st; messages := messages st; input := x;
     isLoading := isLoading st; chats := chats st; activeChatId := activeChatId st;
     isSidebarOpen := isSidebarOpen st; console := console st; clock := clock st;
     reads := reads st |}.

Definition with_isLoading (x : bool) (st : State) : State :=
  {| language := language st; mode := mode st; messages := messages st; input := input st;
     isLoading := x; chats := chats st; activeChatId := activeChatId st;
     isSidebarOpen := isSidebarOpen st; console := console st; clock := clock st;
     reads := reads st |}.

Definition with_chats (x : list Chat.t) (st : State) : State :=
  {| language := language st; mode := mode st; messages := messages st; input := input st;
     isLoading := isLoading st; chats := x; activeChatId := activeChatId st;
     isSidebarOpen := isSidebarOpen st; console := console st; clock := clock st;
     reads := reads st |}.

Definition with_activeChatId (x : option Z) (st : State) : State :=
  {| language := language st; mode := mode st; messages := messages st; input := input st;
     isLoading := isLoading st; chats := chats st; activeChatId := x;
     isSidebarOpen := isSidebarOpen st; console := console st; clock := clock st;
     reads := reads st |}.

Definition with_isSidebarOpen (x : bool) (st : State) : State :=
  {| language := language st; mode := mode st; messages := messages st; input := input st;
     isLoading := isLoading st; chats := chats st; activeChatId := activeChatId st;
     isSidebarOpen := x; console := console st; clock := clock st;
     reads := reads st |}.

Definition with_console (x : list Exn) (st : State) : State :=
  {| language := language st; mode := mode st; messages := messages st; input := input st;
     isLoading := isLoading st; chats := chats st; activeChatId := activeChatId st;
     isSidebarOpen := isSidebarOpen st; console := x; clock := clock st;
     reads := reads st |}.

Definition with_reads (x : nat) (st : State) : State :=
  {| language := language st; mode := mode st; messages := messages st; input := input st;
     isLoading := isLoading st; chats := chats st; activeChatId := activeChatId st;
     isSidebarOpen := isSidebarOpen st; console := console st; clock := clock st;
     reads := x |}.

(** ** Asynchronous functions over that state *)

(** [getChat(language, mode).sendMessage({ message })], on a chat created
    for that one call, and the [generateContent] call of [generateImage]. *)
Inductive Request : Type -> Type :=
| sendMessage (language : option JSString) (mode : Mode) (message : JSString)
    : Request Gemini.GenerateContentResponse
| generateContent (prompt : JSString) : Request Gemini.GenerateContentResponse.

Inductive Outcome (A : Type) : Type :=
| Returned (st : State) (a : A)
| Thrown (st : State) (e : Exn)
| Awaiting (st : State) {T : Type} (r : Request T) (k : Result T -> State -> Outcome A).
Arguments Returned {A} st a.
Arguments Thrown {A} st e.
Arguments Awaiting {A} st {T} r k.

Definition Async (A : Type) : Type := State -> Outcome A.

Fixpoint bind_outcome {A B : Type} (o : Outcome A) (f : A -> Async B) : Outcome B :=
  match o with
  | Returned st a => f a st
  | Thrown st e => Thrown st e
  | Awaiting st r k => Awaiting st r (fun res st' => bind_outcome (k res st') f)
  end.

Fixpoint catch_outcome {A : Type} (o : Outcome A) (h : Exn -> Async A) : Outcome A :=
  match o with
  | Returned st a => Returned st a
  | Thrown st e => h e st
  | Awaiting st r k => Awaiting st r (fun res st' => catch_outcome (k res st') h)
  end.

(** [try { ... } finally { fin }]: [fin] runs on both exits, and the exit of
    the body is kept when [fin] returns. *)
Fixpoint finally_outcome {A : Type} (o : Outcome A) (fin : Async unit) : Outcome A :=
  match o with
  | Returned st a => bind_outcome (fin st) (fun _ st' => Returned st' a)
  | Thrown st e => bind_outcome (fin st) (fun _ st' => Thrown st' e)
  | Awaiting st r k => Awaiting st r (fun res st' => finally_outcome (k res st') fin)
  end.

#[global] Instance Async_ret : MRet Async := fun A a st => Returned st a.
#[global] Instance Async_bind : MBind Async :=
  fun A B f m st => bind_outcome (m st) f.

Definition throw {A : Type} (e : Exn) : Async A := fun st => Thrown st e.

Definition try_catch {A : Type} (body : Async A) (h : Exn -> Async A) : Async A :=
  fun st => catch_outcome (body st) h.

Definition try_finally {A : Type} (body : Async A) (fin : Async unit) : Async A :=
  fun st => finally_outcome (body st) fin.

Definition await {T : Type} (r : Request T) : Async T :=
  fun st =>
    Awaiting st r
      (fun res st' =>
         match res with
         | Resolved v => Returned st' v
         | Rejected e => Thrown st' e
         end).

Definition skip : Async unit := fun st => Returned st tt.
Definition read {A : Type} (f : State -> A) : Async A := fun st => Returned st (f st).
Definition write (g : State -> State) : Async unit := fun st => Returned (g st) tt.

(** [Date.now()] and [new Date()]: the next value of the clock. *)
Definition Date_now : Async Z :=
  fun st => Returned (with_reads (S (reads st)) st) (clock st (reads st)).

Definition console_error (err : Exn) : Async unit :=
  write (fun st => with_console (console st ++ [err]) st).

(** The setters of [useState], called with a value or with an updater. *)
Definition setMessages (x : list Message.t) : Async unit := write (with_messages x).
Definition setMessages_from (f : list Message.t -> list Message.t) : Async unit :=
  write (fun st => with_messages (f (messages st)) st).
Definition setChats (x : list Chat.t) : Async unit := write (with_chats x).
Definition setChats_from (f : list Chat.t -> list Chat.t) : Async unit :=
  write (fun st => with_chats (f (chats st)) st).
Definition setInput (x : JSString) : Async unit := write (with_input x).
Definition setIsLoading (x : bool) : Async unit := write (with_isLoading x).
Definition setActiveChatId (x : option Z) : Async unit := write (with_activeChatId x).
Definition setMode (x : Mode) : Async unit := write (with_mode x).
Definition setIsSidebarOpen (x : bool) : Async unit := write (with_isSidebarOpen x).
Definition setLanguage (x : option JSString) : Async unit := write (with_language x).

(** ** [generateImage] *)

Definition generateImage (prompt : JSString) : Async (option JSString) :=
  response ← await (generateContent prompt);
  match Gemini.candidate_parts response with
  | Some parts => mret (Gemini.first_image parts)
  | None => throw TypeError
  end.

(** ** The handlers

    A handler is the one of the last render: the state variables it names
    are read when it is called and keep that value across its awaits, while
    an updater passed to a setter sees the state of the moment it runs. *)

(** [localStorage] is written too; the state does not depend on it until
    the application is mounted again. *)
Definition handleLanguageSelect (code : JSString) : Async unit := setLanguage (Some code).

Definition startNewChat (initialMode : Mode) : Async unit :=
  chats0 ← read chats;
  id ← Date_now;
  timestamp ← Date_now;
  let newChat :=
    {| Chat.id := id; Chat.title := codes "New Conversation"; Chat.mode := initialMode;
       Chat.messages := []; Chat.timestamp := timestamp |} in
  setChats (newChat :: chats0);;
  setActiveChatId (Some (Chat.id newChat));;
  setMessages [];;
  setMode initialMode;;
  setIsSidebarOpen false.

Definition deleteChat (id : Z) : Async unit :=
  chats0 ← read chats;
  activeChatId0 ← read activeChatId;
  let nextChats := filter (fun c => Chat.id c <> id) chats0 in
  setChats nextChats;;
  if decide (activeChatId0 = Some id) then
    setActiveChatId None;;
    setMessages [];;
    setMode home
  else skip.

(** The [onClick] of a chat of the sidebar. *)
Definition selectChat (c : Chat.t) : Async unit :=
  setActiveChatId (Some (Chat.id c));;
  setMessages (Chat.messages c);;
  setMode (Chat.mode c);;
  setIsSidebarOpen false.

(** [prev.map(c => c.id === activeChatId ? f(c) : c)]. *)
Definition update_chat (activeChatId : Z) (f : Chat.t -> Chat.t) (prev : list Chat.t)
  : list Chat.t :=
  map (fun c => if decide (Chat.id c = activeChatId) then f c else c) prev.

(** [text.slice(0, 30) + (text.length > 30 ? '...' : '')]. *)
Definition title_of (text : JSString) : JSString :=
  JS.slice_to 30 text ++ (if (30 <? length text)%nat then codes "..." else []).

(** [overrideInput || input]. *)
Definition or_input (overrideInput : option JSString) (input : JSString) : JSString :=
  match overrideInput with
  | Some o => if JS.truthy o then o else input
  | None => input
  end.

Section Handlers.

(** [String.prototype.toLowerCase]. *)
Variable toLowerCase : JSString -> JSString.

Definition wants_image (text : JSString) : bool :=
  JS.includes (toLowerCase text) (codes "generate")
  || JS.includes (toLowerCase text) (codes "draw")
  || JS.includes (toLowerCase text) (codes "show me").

(** [activeChatId], an id or [null], is falsy only when [null]. *)
Definition handleSendMessage (overrideInput : option JSString) : Async unit :=
  input0 ← read input;
  messages0 ← read messages;
  activeChatId0 ← read activeChatId;
  language0 ← read language;
  mode0 ← read mode;
  let text := or_input overrideInput input0 in
  match activeChatId0 with
  | None => skip
  | Some activeChatId =>
      if negb (JS.truthy (JS.trim text)) then skip
      else
        id ← Date_now;
        timestamp ← Date_now;
        let userMsg :=
          {| Message.id := id; Message.role := user; Message.content := Some text;
             Message.imageUrl := None; Message.timestamp := timestamp |} in
        let updatedMessages := messages0 ++ [userMsg] in
        setMessages updatedMessages;;
        setInput [];;
        setIsLoading true;;
        try_finally
          (try_catch
             (response ← await (sendMessage language0 mode0 text);
              id ← Date_now;
              timestamp ← Date_now;
              let assistantMsg :=
                {| Message.id := id + 1; Message.role := assistant;
                   Message.content := Gemini.text response;
                   Message.imageUrl := None; Message.timestamp := timestamp |} in
              (if Nat.eqb (length updatedMessages) 1
               then setChats_from (update_chat activeChatId (Chat.with_title (title_of text)))
               else skip);;
              setMessages (updatedMessages ++ [assistantMsg]);;
              setChats_from
                (update_chat activeChatId
                   (Chat.with_messages (updatedMessages ++ [assistantMsg])));;
              if wants_image text then
                imageUrl ← generateImage text;
                match imageUrl with
                | Some url =>
                    if JS.truthy url then
                      id ← Date_now;
                      timestamp ← Date_now;
                      let imageMsg :=
                        {| Message.id := id + 2; Message.role := assistant;
                           Message.content :=
                             Some (codes "I've generated this image for you:");
                           Message.imageUrl := Some url;
                           Message.timestamp := timestamp |} in
                      setMessages_from (fun prev => prev ++ [imageMsg]);;
                      setChats_from
                        (update_chat activeChatId
                           (fun c => Chat.with_messages (Chat.messages c ++ [imageMsg]) c))
                    else skip
                | None => skip
                end
              else skip)
             (fun err => console_error err))
          (setIsLoading false)
  end.

(** ** The event loop of the conversations *)

Inductive Suspended : Type :=
| Susp {T : Type} (r : Request T) (k : Result T -> State -> Outcome unit).

Record Loop : Type := {
  state : State;
  pending : list Suspended;
  unhandled : list Exn
}.

Definition enter (o : Outcome unit) (l : Loop) : Loop :=
  match o with
  | Returned st _ => {| state := st; pending := pending l; unhandled := unhandled l |}
  | Thrown st e => {| state := st; pending := pending l; unhandled := unhandled l ++ [e] |}
  | Awaiting st r k =>
      {| state := st; pending := pending l ++ [Susp r k]; unhandled := unhandled l |}
  end.

Inductive Event : Type :=
| click_mode (initialMode : Mode)
| click_new_chat
| click_chat (i : nat)
| click_delete (i : nat)
| change_input (value : JSString)
| press_enter
| click_send
| settled (i : nat) (res : Result Gemini.GenerateContentResponse)
| click_logo
| click_reset_language
| click_language (code : JSString).

(** The result of a pending call handed to its continuation. *)
Definition resume {T : Type} (r : Request T) (k : Result T -> State -> Outcome unit)
    (res : Result Gemini.GenerateContentResponse) : State -> Outcome unit :=
  match r in Request T0 return (Result T0 -> State -> Outcome unit) -> State -> Outcome unit with
  | sendMessage _ _ _ => fun k0 => k0 res
  | generateContent _ => fun k0 => k0 res
  end k.

(** One tick.  The home screen starts a chat in one of four modes; the
    sidebar shows the chats of the state, so that a click selects or deletes
    one of them; the send button is disabled on a blank input and while
    loading, the Enter key is not; a promise settles only if it is pending;
    the logo leads home, and the language can be reset and chosen. *)
Definition fire (ev : Event) (l : Loop) : Loop :=
  match ev with
  | click_mode initialMode =>
      match initialMode with
      | chat | learn | games | dictionary => enter (startNewChat initialMode (state l)) l
      | home | live => l
      end
  | click_new_chat => enter (startNewChat chat (state l)) l
  | click_chat i =>
      match chats (state l) !! i with
      | Some c => enter (selectChat c (state l)) l
      | None => l
      end
  | click_delete i =>
      match chats (state l) !! i with
      | Some c => enter (deleteChat (Chat.id c) (state l)) l
      | None => l
      end
  | change_input value => enter (setInput value (state l)) l
  | press_enter => enter (handleSendMessage None (state l)) l
  | click_send =>
      if negb (JS.truthy (JS.trim (input (state l)))) || isLoading (state l) then l
      else enter (handleSendMessage None (state l)) l
  | settled i res =>
      match pending l !! i with
      | Some (Susp r k) =>
          enter (resume r k res (state l))
            {| state := state l; pending := delete i (pending l); unhandled := unhandled l |}
      | None => l
      end
  | click_logo => enter (setMode home (state l)) l
  | click_reset_language => enter (setLanguage None (state l)) l
  | click_language code => enter (handleLanguageSelect code (state l)) l
  end.

Definition run (evs : list Event) (l : Loop) : Loop :=
  foldl (fun acc ev => fire ev acc) l evs.

End Handlers.

(** [App] as it mounts, the language and the chats read from
    [localStorage]. *)
Definition mount (lumina_lang : option JSString) (lumina_chats : list Chat.t)
    (clock : nat -> Z) : Loop :=
  {| state :=
       {| language := lumina_lang; mode := home; messages := []; input := [];
          isLoading := false; chats := lumina_chats; activeChatId := None;
          isSidebarOpen := false; console := []; clock := clock; reads := 0 |};
     pending := []; unhandled := [] |}.

(** ** Vocabulary of the statements *)

(** The active chat, if any, is one of the chats. *)
Definition active_listed (st : State) : Prop :=
  forall id, activeChatId st = Some id -> exists c, c ∈ chats st /\ Chat.id c = id.

(** The call passes the guard [if (!text.trim() || !activeChatId) return]. *)
Definition sendable (overrideInput : option JSString) (st : State) : bool :=
  match activeChatId st with
  | Some _ => JS.truthy (JS.trim (or_input overrideInput (input st)))
  | None => false
  end.

(** The state in which an outcome returns, throws or is suspended. *)
Definition state_of {A : Type} (o : Outcome A) : State :=
  match o with
  | Returned st _ | Thrown st _ | Awaiting st _ _ => st
  end.

(** The message [handleSendMessage] shows for the text it sends. *)
Definition user_message (overrideInput : option JSString) (st : State) : Message.t :=
  {| Message.id := clock st (reads st); Message.role := user;
     Message.content := Some (or_input overrideInput (input st));
     Message.imageUrl := None; Message.timestamp := clock st (S (reads st)) |}.

(** The state in which [handleSendMessage] waits for the reply. *)
Definition awaiting_reply (overrideInput : option JSString) (st : State) : State :=
  with_isLoading true
    (with_input []
       (with_messages (messages st ++ [user_message overrideInput st])
          (with_reads (S (S (reads st))) st))).

(** [Ends Q o]: however its awaited calls settle, and in whatever state it is
    resumed, [o] returns, in a state satisfying [Q]. *)
Inductive Ends (Q : State -> Prop) : Outcome unit -> Prop :=
| ends_returned st : Q st -> Ends Q (Returned st tt)
| ends_awaiting st T (r : Request T) k :
    (forall res st', Ends Q (k res st')) -> Ends Q (Awaiting st r k).

(** [Preserves I o]: [o] returns, throws or suspends in a state satisfying
    [I], and does so again whenever it is resumed in such a state. *)
Inductive Preserves (I : State -> Prop) : Outcome unit -> Prop :=
| preserves_returned st a : I st -> Preserves I (Returned st a)
| preserves_thrown st e : I st -> Preserves I (Thrown st e)
| preserves_awaiting st T (r : Request T) k :
    I st ->
    (forall res st', I st' -> Preserves I (k res st')) ->
    Preserves I (Awaiting st r k).

Definition suspended_preserves (I : State -> Prop) (s : Suspended) : Prop :=
  match s with
  | Susp r k => forall res st, I st -> Preserves I (k res st)
  end.

(** A second message typed and sent while the reply to a first one is
    pending, the two replies then arriving in the order of the sends. *)
Definition overlapping_sends (second : JSString)
    (reply1 reply2 : Gemini.GenerateContentResponse) : list Event :=
  [press_enter; change_input second; press_enter;
   settled 0 (Resolved reply1); settled 0 (Resolved reply2)].

(** A run used as example: the application mounted with no chat, a chat
    created from the sidebar and a text typed in it. *)
Definition typed (value : JSString) : Loop :=
  run JS.toLowerCase_ascii [click_new_chat; change_input value]
    (mount (Some (codes "English")) [] (fun n => 1700000000000 + Z.of_nat n)).

Definition conversations_ok (l : Loop) : Prop :=
  active_listed (state l) /\ Forall (suspended_preserves active_listed) (pending l).

End Conversation.

(** * [TypewriterText]

    The component shows [displayed]; its effect, run after the first render
    and after every render in which [index] or [text] has changed, arms a
    15 ms timeout while [index < text.length] and otherwise calls
    [onComplete], if there is one. *)

Module Typewriter.

Record State : Type := {
  displayed : JSString;
  index : nat;
  (* a timeout is armed *)
  timer : bool;
  (* calls of [onComplete] *)
  completed : nat
}.

Definition effect (text : JSString) (onComplete : bool) (st : State) : State :=
  if (index st <? length text)%nat then
    {| displayed := displayed st; index := index st; timer := true;
       completed := completed st |}
  else if onComplete then
    {| displayed := displayed st; index := index st; timer := false;
       completed := S (completed st) |}
  else
    {| displayed := displayed st; index := index st; timer := false;
       completed := completed st |}.

Definition mount (text : JSString) (onComplete : bool) : State :=
  effect text onComplete {| displayed := []; index := 0; timer := false; completed := 0 |}.

(** [text[index]] added to a string: a string of one code unit, or the text
    of [undefined]. *)
Definition char_at (text : JSString) (index : nat) : JSString :=
  match text !! index with
  | Some c => [c]
  | None => codes "undefined"
  end.

(** The armed timeout fires: [setDisplayed(prev => prev + text[index])],
    [setIndex(prev => prev + 1)], then the effect of the render that
    follows. *)
Definition timeout (text : JSString) (onComplete : bool) (st : State) : State :=
  if timer st then
    effect text onComplete
      {| displayed := displayed st ++ char_at text (index st); index := S (index st);
         timer := false; completed := completed st |}
  else st.

(** The cursor is rendered while [index < text.length]. *)
Definition cursor (text : JSString) (st : State) : bool := (index st <? length text)%nat.

End Typewriter.

(** * Division of numbers

    [n / d] on two integers is the IEEE 754 double nearest to the quotient,
    ties going to the even significand.  A double is kept as the rational it
    is, a significand of 53 bits over a power of two.  The quotients taken
    here, of a byte by 255, are far from the subnormal numbers and from
    overflow, which are left out. *)

Module Double.

(** [a / b] rounded to the nearest integer, ties to the even one, for
    [0 <= a] and [0 < b]. *)
Definition nearest_even (a b : Z) : Z :=
  let q := a / b in
  let r := a mod b in
  if 2 * r <? b then q
  else if b <? 2 * r then q + 1
  else if Z.even q then q else q + 1.

(** [x * 2 ^ k] when [0 <= k], and [x] otherwise. *)
Definition scaled (x k : Z) : Z := if 0 <=? k then x * 2 ^ k else x.

(** The exponent [e] of a positive quotient: [2 ^ e <= n / d < 2 ^ (e + 1)]. *)
Definition exponent (n d : Z) : Z :=
  let e0 := Z.log2 n - Z.log2 d in
  if scaled d e0 <=? scaled n (- e0) then e0 else e0 - 1.

(** The double nearest to [n / d], for [0 < n] and [0 < d]: the quotient
    rounded to 53 significant bits at its exponent. *)
Definition div_pos (n d : Z) : Q :=
  let e := exponent n d in
  let m := nearest_even (scaled n (52 - e)) (scaled d (e - 52)) in
  Qmake (scaled m (e - 52)) (Z.to_pos (scaled 1 (52 - e))).

(** [n / d], for [0 < d]. *)
Definition div (n d : Z) : Q :=
  if n =? 0 then 0%Q
  else if 0 <? n then div_pos n d
  else Qopp (div_pos (- n) d).

End Double.

(** * The visualizers of the live overlay

    [updateVisualizers], called for an animation frame.  The two byte arrays
    are what [getByteFrequencyData] has written; each level is the double
    that [v / 255] computes. *)

Module Visualizer.

Record State : Type := {
  liveVisualizerData : list Q;
  luminaVisualizerData : list Q;
  (* animation frames requested and not yet run *)
  requested : nat
}.

(** [Array.from(dataArray).slice(0, 20).map(v => v / 255)]. *)
Definition normalized (dataArray : list Z) : list Q :=
  map (fun v => Double.div v 255) (take 20 dataArray).

Definition updateVisualizers (audioContext_state : ContextState)
    (dataArray outputDataArray : list Z) (st : State) : State :=
  match audioContext_state with
  | closed => st
  | running =>
      {| liveVisualizerData := normalized dataArray;
         luminaVisualizerData := normalized outputDataArray;
         requested := S (requested st) |}
  end.

(** A requested frame runs. *)
Definition frame (audioContext_state : ContextState) (dataArray outputDataArray : list Z)
    (st : State) : State :=
  match requested st with
  | O => st
  | S n =>
      updateVisualizers audioContext_state dataArray outputDataArray
        {| liveVisualizerData := liveVisualizerData st;
           luminaVisualizerData := luminaVisualizerData st; requested := n |}
  end.

(** [new Array(20).fill(0)] in both, and the frame requested by
    [startLiveVoice]. *)
Definition started : State :=
  {| liveVisualizerData := repeat 0%Q 20; luminaVisualizerData := repeat 0%Q 20;
     requested := 1 |}.

(** [frequencyBinCount] for [fftSize = 64]. *)
Definition frequencyBinCount : nat := 32.

(** [x] is the level of the byte [v]: 0 for 0, 1 for 255, and in between a
    significand [m] of 53 bits over [2 ^ k], inside its binade, that lies
    less than half a unit in the last place, [1 / 2 ^ (k + 1)], from
    [v / 255]: the one double nearest to that quotient. *)
Definition level_of (v : Z) (x : Q) : Prop :=
  (0 <= x)%Q /\ (x <= 1)%Q
  /\ (v = 0 -> (x == 0)%Q)
  /\ (v = 255 -> (x == 1)%Q)
  /\ (0 < v < 255 ->
        exists m k : Z,
          2 ^ 52 < m < 2 ^ 53
          /\ 0 <= k
          /\ (x * inject_Z (2 ^ k) == inject_Z m)%Q
          /\ ((x - (v # 255)) * inject_Z (2 ^ (k + 1)) < 1)%Q
          /\ (((v # 255) - x) * inject_Z (2 ^ (k + 1)) < 1)%Q).

(** The same, as a test that can be run on each byte. *)
Definition is_level_of (v : Z) (x : Q) : bool :=
  let m := Qnum x in
  let k := Z.log2 (Z.pos (Qden x)) in
  Qle_bool 0 x && Qle_bool x 1
  && (if v =? 0 then Qeq_bool x 0
      else if v =? 255 then Qeq_bool x 1
      else (2 ^ 52 <? m) && (m <? 2 ^ 53)
           && Qeq_bool (x * inject_Z (2 ^ k)) (inject_Z m)
           && negb (Qle_bool 1 ((x - (v # 255)) * inject_Z (2 ^ (k + 1))))
           && negb (Qle_bool 1 (((v # 255) - x) * inject_Z (2 ^ (k + 1))))).

End Visualizer.

(** * The games of [components/Games.tsx]

    ** High scores

    [highScores] is an object used as a map from the id of a game to a
    number; [stored] is the item of [localStorage], when one was written. *)

Module HighScores.

Record State : Type := {
  highScores : string -> option Z;
  stored : option (string -> option Z)
}.

(** [{ ...prev, [game]: score }]. *)
Definition set_score (game : string) (score : Z) (prev : string -> option Z)
  : string -> option Z :=
  fun g => if String.eqb g game then Some score else prev g.

Definition updateHighScore (game : string) (score : Z) (lowerIsBetter : bool) (st : State)
  : State :=
  let prev := highScores st in
  let better :=
    match prev game with
    | None => true
    | Some current => if lowerIsBetter then score <? current else current <? score
    end in
  if better then
    let next := set_score game score prev in
    {| highScores := next; stored := Some next |}
  else st.

(** The callbacks [Games] hands to the games: [lowerIsBetter] is passed for
    the memory game only. *)
Definition onWin_wordle (score : Z) : State -> State := updateHighScore "wordle" score false.
Definition onEnd_trivia (score : Z) : State -> State := updateHighScore "trivia" score false.
Definition onWin_sudoku (score : Z) : State -> State := updateHighScore "sudoku" score false.
Definition onWin_riddle (score : Z) : State -> State := updateHighScore "riddle" score false.
Definition onWin_memory (score : Z) : State -> State := updateHighScore "memory" score true.

(** The scores of one game reported one after the other. *)
Definition report (game : string) (lowerIsBetter : bool) (scores : list Z) (st : State)
  : State :=
  foldl (fun acc score => updateHighScore game score lowerIsBetter acc) st scores.

(** [Games] as it mounts, nothing saved. *)
Definition empty : State := {| highScores := fun _ => None; stored := None |}.

End HighScores.

(** ** Wordle *)

Module Wordle.

Inductive GameState : Type := playing | won | lost.

Record State : Type := {
  wordLength : option nat;
  targetWord : JSString;
  guesses : list JSString;
  currentGuess : JSString;
  gameState : GameState;
  (* the scores handed to [onWin] *)
  wins : list Z
}.

Definition initial : State :=
  {| wordLength := None; targetWord := []; guesses := []; currentGuess := [];
     gameState := playing; wins := [] |}.

Definition wordsByLength (n : nat) : option (list JSString) :=
  match n with
  | 4%nat => Some (map codes ["BOOK"; "FIRE"; "WOLF"; "MOON"; "STAR"; "BLUE"; "WIND"; "TREE"]%string)
  | 5%nat => Some (map codes ["LIGHT"; "BRAIN"; "SPACE"; "CLOUD"; "DREAM"; "WATER"; "EARTH";
                              "HEART"]%string)
  | 6%nat => Some (map codes ["LUMINA"; "GALAXY"; "SILVER"; "SPIRIT"; "WISDOM"; "ENERGY";
                              "FUTURE"; "PLANET"]%string)
  | _ => None
  end.

(** [setWordLength(len)] and the effect that follows it, [random] being
    [Math.floor(Math.random() * possibleWords.length)].  The guess is empty
    when a length is chosen, so that no key pressed between the two reaches
    the comparison with the target. *)
Definition chooseLength (len random : nat) (st : State) : State :=
  match wordsByLength len with
  | Some possibleWords =>
      match possibleWords !! random with
      | Some word =>
          {| wordLength := Some len; targetWord := word; guesses := guesses st;
             currentGuess := currentGuess st; gameState := gameState st; wins := wins st |}
      | None => st
      end
  | None => st
  end.

(** [/^[a-zA-Z]$/] on a string of one code unit, and [toUpperCase] on such a
    letter. *)
Definition is_letter (c : Z) : bool :=
  ((65 <=? c) && (c <=? 90)) || ((97 <=? c) && (c <=? 122)).

Definition letter_toUpperCase (c : Z) : Z :=
  if (97 <=? c) && (c <=? 122) then c - 32 else c.

Definition handleKeyDown (key : JSString) (st : State) : State :=
  match gameState st with
  | playing =>
      if decide (key = codes "Enter") then
        if decide (Some (length (currentGuess st)) = wordLength st) then
          let newGuesses := guesses st ++ [currentGuess st] in
          if decide (currentGuess st = targetWord st) then
            {| wordLength := wordLength st; targetWord := targetWord st;
               guesses := newGuesses; currentGuess := []; gameState := won;
               wins := wins st ++ [Z.of_nat (length (guesses st)) + 1] |}
          else if (6 <=? length newGuesses)%nat then
            {| wordLength := wordLength st; targetWord := targetWord st;
               guesses := newGuesses; currentGuess := []; gameState := lost;
               wins := wins st |}
          else
            {| wordLength := wordLength st; targetWord := targetWord st;
               guesses := newGuesses; currentGuess := []; gameState := playing;
               wins := wins st |}
        else st
      else if decide (key = codes "Backspace") then
        {| wordLength := wordLength st; targetWord := targetWord st;
           guesses := guesses st; currentGuess := removelast (currentGuess st);
           gameState := gameState st; wins := wins st |}
      else
        match key with
        | [c] =>
            if is_letter c
               && (length (currentGuess st) <? default 0%nat (wordLength st))%nat
            then
              {| wordLength := wordLength st; targetWord := targetWord st;
                 guesses := guesses st;
                 currentGuess := currentGuess st ++ [letter_toUpperCase c];
                 gameState := gameState st; wins := wins st |}
            else st
        | _ => st
        end
  | _ => st
  end.

(** The [onClick] of Play Again. *)
Definition playAgain (st : State) : State :=
  {| wordLength := None; targetWord := targetWord st; guesses := [];
     currentGuess := currentGuess st; gameState := playing; wins := wins st |}.

Inductive Event : Type :=
| click_length (len random : nat)
| keydown (key : JSString)
| click_play_again.

(** One event.  The three length buttons are shown while no length is
    chosen, Play Again once the game is over; [Math.random()] is below 1. *)
Definition fire (ev : Event) (st : State) : State :=
  match ev with
  | click_length len random =>
      match wordLength st with
      | None =>
          if ((len =? 4) || (len =? 5) || (len =? 6))%nat && (random <? 8)%nat
          then chooseLength len random st else st
      | Some _ => st
      end
  | keydown key => handleKeyDown key st
  | click_play_again =>
      match wordLength st, gameState st with
      | Some _, won | Some _, lost => playAgain st
      | _, _ => st
      end
  end.

Definition run (evs : list Event) : State := foldl (fun acc ev => fire ev acc) initial evs.

(** The colour of tile [j] of a submitted guess. *)
Inductive Status : Type := green | amber | grey.

Definition status (targetWord guess : JSString) (j : nat) : Status :=
  match guess !! j with
  | Some char =>
      if decide (targetWord !! j = Some char) then green
      else if JS.includes targetWord [char] then amber
      else grey
  | None => amber
  end.

(** What the statements say of a state. *)
Definition uppercase (s : JSString) : Prop := Forall (fun c => 65 <= c <= 90) s.

Definition ok (st : State) : Prop :=
  Forall (fun s => 1 <= s <= 6) (wins st)
  /\ uppercase (currentGuess st)
  /\ Forall uppercase (guesses st)
  /\ match wordLength st with
     | None => guesses st = [] /\ currentGuess st = [] /\ gameState st = playing
     | Some n =>
         length (targetWord st) = n
         /\ Forall (fun g => length g = n) (guesses st)
         /\ (length (currentGuess st) <= n)%nat
         /\ match gameState st with
            | playing => (length (guesses st) < 6)%nat /\ targetWord st ∉ guesses st
            | won =>
                currentGuess st = []
                /\ (length (guesses st) <= 6)%nat
                /\ (exists earlier, guesses st = earlier ++ [targetWord st]
                                    /\ targetWord st ∉ earlier)
                /\ list.last (wins st) = Some (Z.of_nat (length (guesses st)))
            | lost =>
                currentGuess st = []
                /\ length (guesses st) = 6%nat /\ targetWord st ∉ guesses st
            end
     end.

End Wordle.

(** ** Memory Match *)

Module Memory.

Record State : Type := {
  (* the icon of each card, by id *)
  cards : list Z;
  flipped : list nat;
  solved : list nat;
  moves : nat;
  (* [setTimeout] callbacks that have not run *)
  timeouts : nat;
  (* the scores handed to [onWin] *)
  wins : list nat
}.

(** The game as it mounts, the cards shuffled. *)
Definition mount (shuffled : list Z) : State :=
  {| cards := shuffled; flipped := []; solved := []; moves := 0; timeouts := 0;
     wins := [] |}.

Definition includes (l : list nat) (id : nat) : bool := bool_decide (id ∈ l).

(** [cards[i].icon === cards[j].icon], for cards that exist, as those that
    are clicked do. *)
Definition same_icon (cards : list Z) (i j : nat) : bool :=
  match cards !! i, cards !! j with
  | Some a, Some b => a =? b
  | _, _ => false
  end.

Definition handleClick (id : nat) (st : State) : State :=
  if (length (flipped st) =? 2)%nat || includes (flipped st) id || includes (solved st) id
  then st
  else
    let newFlipped := flipped st ++ [id] in
    if (length newFlipped =? 2)%nat then
      match newFlipped with
      | first :: second :: _ =>
          if same_icon (cards st) first second then
            {| cards := cards st; flipped := []; solved := solved st ++ newFlipped;
               moves := S (moves st); timeouts := timeouts st;
               wins := if (length (solved st) + 2 =? length (cards st))%nat
                       then wins st ++ [moves st + 1]%nat else wins st |}
          else
            {| cards := cards st; flipped := newFlipped; solved := solved st;
               moves := S (moves st); timeouts := S (timeouts st); wins := wins st |}
      | _ => st
      end
    else
      {| cards := cards st; flipped := newFlipped; solved := solved st;
         moves := moves st; timeouts := timeouts st; wins := wins st |}.

(** [() => setFlipped([])], one second later. *)
Definition timeout (st : State) : State :=
  match timeouts st with
  | O => st
  | S n =>
      {| cards := cards st; flipped := []; solved := solved st; moves := moves st;
         timeouts := n; wins := wins st |}
  end.

Inductive Event : Type :=
| click (id : nat)
| timer.

(** One event: the cards rendered are those of the state. *)
Definition fire (ev : Event) (st : State) : State :=
  match ev with
  | click id => if (id <? length (cards st))%nat then handleClick id st else st
  | timer => timeout st
  end.

Definition run (evs : list Event) (st : State) : State :=
  foldl (fun acc ev => fire ev acc) st evs.

(** The ids of [solved], two by two, bear the same icon. *)
Fixpoint paired (cards : list Z) (l : list nat) : Prop :=
  match l with
  | [] => True
  | i :: j :: rest => same_icon cards i j = true /\ paired cards rest
  | [_] => False
  end.

Definition ok (st : State) : Prop :=
  (length (flipped st) <= 2)%nat
  /\ NoDup (flipped st ++ solved st)
  /\ Forall (fun id => (id < length (cards st))%nat) (flipped st ++ solved st)
  /\ paired (cards st) (solved st)
  /\ (length (solved st) <= 2 * moves st)%nat
  /\ (timeouts st <= 1)%nat
  /\ (timeouts st = 1%nat -> length (flipped st) = 2%nat)
  /\ match wins st with
     | [] => (length (solved st) < length (cards st))%nat \/ cards st = []
     | [score] => length (solved st) = length (cards st) /\ score = moves st
     | _ => False
     end.

End Memory.

(** ** Sudoku *)

Module Sudoku.

(** A grid is the array of its rows. *)
Record State : Type := {
  grid : list (list Z);
  initialGrid : list (list Z);
  selected : option (nat * nat)
}.

Definition puzzle : list (list Z) :=
  [ [5; 3; 0; 0; 7; 0; 0; 0; 0];
    [6; 0; 0; 1; 9; 5; 0; 0; 0];
    [0; 9; 8; 0; 0; 0; 0; 6; 0];
    [8; 0; 0; 0; 6; 0; 0; 0; 3];
    [4; 0; 0; 8; 0; 3; 0; 0; 1];
    [7; 0; 0; 0; 2; 0; 0; 0; 6];
    [0; 6; 0; 0; 0; 0; 2; 8; 0];
    [0; 0; 0; 4; 1; 9; 0; 0; 5];
    [0; 0; 0; 0; 8; 0; 0; 7; 9] ].

Definition solved : list (list Z) :=
  [ [5; 3; 4; 6; 7; 8; 9; 1; 2];
    [6; 7; 2; 1; 9; 5; 3; 4; 8];
    [1; 9; 8; 3; 4; 2; 5; 6; 7];
    [8; 5; 9; 7; 6; 1; 4; 2; 3];
    [4; 2; 6; 8; 5; 3; 7; 9; 1];
    [7; 1; 3; 9; 2; 4; 8; 5; 6];
    [9; 6; 1; 5; 3; 7; 2; 8; 4];
    [2; 8; 7; 4; 1; 9; 6; 3; 5];
    [3; 4; 5; 2; 8; 6; 1; 7; 9] ].

(** The state after the effect [generateSudoku] has run. *)
Definition generateSudoku : State :=
  {| grid := puzzle; initialGrid := puzzle; selected := None |}.

Definition solve (st : State) : State :=
  {| grid := solved; initialGrid := initialGrid st; selected := selected st |}.

Definition cell (g : list (list Z)) (r c : nat) : option Z :=
  match g !! r with
  | Some row => row !! c
  | None => None
  end.

(** The [onClick] of the cell in row [r] and column [c]:
    [initialGrid[r][c] === 0 && setSelected([r, c])]. *)
Definition clickCell (r c : nat) (st : State) : State :=
  match cell (initialGrid st) r c with
  | Some 0 => {| grid := grid st; initialGrid := initialGrid st; selected := Some (r, c) |}
  | _ => st
  end.

(** The [onClick] of a button of the pad: [newGrid[selected[0]][selected[1]]
    = num] on a copy of the array of rows. *)
Definition clickPad (num : Z) (st : State) : State :=
  match selected st with
  | Some (r, c) =>
      {| grid := alter (fun row => <[c := num]> row) r (grid st);
         initialGrid := initialGrid st; selected := selected st |}
  | None => st
  end.

Inductive Event : Type :=
| click_cell (r c : nat)
| click_pad (num : Z)
| click_solve.

(** One event: the cells rendered are those of [grid], the pad holds the
    digits and 0. *)
Definition fire (ev : Event) (st : State) : State :=
  match ev with
  | click_cell r c =>
      match cell (grid st) r c with
      | Some _ => clickCell r c st
      | None => st
      end
  | click_pad num => if (0 <=? num) && (num <=? 9) then clickPad num st else st
  | click_solve => solve st
  end.

Definition run (evs : list Event) : State :=
  foldl (fun acc ev => fire ev acc) generateSudoku evs.

(** The cell is one of the givens of the puzzle. *)
Definition given (r c : nat) : Prop :=
  exists v, cell puzzle r c = Some v /\ v <> 0.

(** The givens are in place, and the selected cell is not one of them. *)
Definition kept (st : State) : Prop :=
  initialGrid st = puzzle
  /\ (forall r c, selected st = Some (r, c) -> cell puzzle r c = Some 0)
  /\ (forall r c v, cell puzzle r c = Some v -> v <> 0 -> cell (grid st) r c = Some v).

End Sudoku.

(** Session [s] is open and out of the reach of the controller, which does
    not hold it in its reference. *)
Definition orphaned (s : nat) (w : World) : Prop :=
  sessions w !! s = Some SessionOpen /\ liveSessionRef w <> Some s.

(** Every microphone stream acquired so far is live. *)
Definition microphones_live (w : World) : Prop :=
  Forall (fun status => status = StreamLive) (streams w).

(** [Maintains I allowed o]: [o] makes only awaited calls that are
    [allowed], and returns, throws or suspends in a world satisfying [I],
    again so whenever its awaited call settles in such a world. *)
Inductive Maintains (I : World -> Prop) (allowed : Call -> Prop) : Outcome unit -> Prop :=
| maintains_returned w a : I w -> Maintains I allowed (Returned w a)
| maintains_thrown w e : I w -> Maintains I allowed (Thrown w e)
| maintains_awaiting w T (r : Request T) k :
    I w ->
    allowed (call_of r) ->
    (forall failure w0, I w0 ->
       Maintains I allowed (k (settle r failure w0).2 (settle r failure w0).1)) ->
    Maintains I allowed (Awaiting w r k).

Definition suspended_maintains (I : World -> Prop) (allowed : Call -> Prop) (x : Suspended)
  : Prop :=
  match x with
  | Susp r k =>
      allowed (call_of r)
      /\ forall failure w0, I w0 ->
           Maintains I allowed (k (settle r failure w0).2 (settle r failure w0).1)
  end.

Definition loop_maintains (I : World -> Prop) (allowed : Call -> Prop) (l : Loop) : Prop :=
  I (world l) /\ Forall (suspended_maintains I allowed) (pending l).

(** The calls a handler may make while session [s] is to stay open. *)
Definition spares (s : nat) (c : Call) : Prop := c <> call_session_close s.

(** The start button clicked a second time, once a first session is
    established. *)
Definition double_start : list Event :=
  [click_start; settled 0 None; settled 0 None; click_start; settled 0 None; settled 0 None].

(** The call a suspended handler is waiting for. *)
Definition awaited (x : Suspended) : Call :=
  match x with
  | Susp r _ => call_of r
  end.

(** [Tame o]: wherever [o] is resumed, what it goes on to do is tame again;
    and resumed where a session [s] is orphaned, by the answer to a call
    other than the close of [s], it keeps [s] orphaned. *)
Inductive Tame : Outcome unit -> Prop :=
| tame_returned w a : Tame (Returned w a)
| tame_thrown w e : Tame (Thrown w e)
| tame_awaiting w T (r : Request T) k :
    (forall failure w0, Tame (k (settle r failure w0).2 (settle r failure w0).1)) ->
    (forall s failure w0,
       spares s (call_of r) -> orphaned s w0 ->
       Maintains (orphaned s) (spares s) (k (settle r failure w0).2 (settle r failure w0).1)) ->
    Tame (Awaiting w r k).

Definition suspended_tame (x : Suspended) : Prop :=
  match x with
  | Susp r k =>
      (forall failure w0, Tame (k (settle r failure w0).2 (settle r failure w0).1))
      /\ (forall s failure w0,
            spares s (call_of r) -> orphaned s w0 ->
            Maintains (orphaned s) (spares s)
              (k (settle r failure w0).2 (settle r failure w0).1))
  end.

(** * Properties *)

(** ** The definitions on small inputs *)

Example btoa_Man :
  Base64.btoa [77; 97; 110] = Some "TWFu"%string
  /\ Base64.btoa [77; 97] = Some "TWE="%string
  /\ Base64.btoa [77] = Some "TQ=="%string
  /\ Base64.btoa [256] = None.
Proof. repeat split. Qed.

Example atob_Man :
  Base64.atob "TWFu" = Some [77; 97; 110]
  /\ Base64.atob "TWE=" = Some [77; 97]
  /\ Base64.atob "T Q" = Some [77]
  /\ Base64.atob "TQ=" = None
  /\ Base64.atob "@@@@" = None.
Proof. repeat split. Qed.

Example pcm_samples :
  map pcm_sample
    [Finite 0; Finite 1; Finite (-1); Finite (1 # 2); Finite (- (1 # 2)); Finite 5;
     Finite (-7); NaN; PosInfinity; NegInfinity]
  = [0; 32767; -32767; 16383; -16383; 32767; -32767; 0; 32767; -32767].
Proof. reflexivity. Qed.

Example two_samples_sent :
  onaudioprocess [Finite (1 # 2); Finite (-1)] =
    Some [ {| media := {| data := "/z8BgA=="; mimeType := "audio/pcm;rate=24000" |} |} ].
Proof. reflexivity. Qed.

Example second_chunk_replaces_first :
  let w := world (run (playing_session
                       ++ [transport_message 0 (chunk "TWFu" false); settled 0 None]) boot) in
  calls w =
    [call_getUserMedia; call_connectLive 0; call_decodeAudioData 0; call_source_start 0;
     call_decodeAudioData 0; call_source_stop 0; call_source_start 1]
  /\ currentAudioSourceRef w = Some 1%nat
  /\ sessionState w = Speaking
  /\ active_handles w = 1%nat.
Proof. vm_compute. repeat split. Qed.

(** ** The frame encoder *)

Section Encoder.

Local Open Scope nat_scope.

Lemma encode_length_upto (n : nat) :
  forall l : list Z, length l <= n ->
    String.length (Base64.encode l) = 4 * ((length l + 2) / 3).
Proof.
  induction n as [n IH] using lt_wf_ind.
  intros [|a [|b [|c r]]] Hn; try reflexivity.
  cbn [Base64.encode String.length length].
  rewrite (IH (length r)); cbn [length] in Hn; try lia.
  replace (S (S (S (length r))) + 2) with (length r + 2 + 1 * 3) by lia.
  rewrite Nat.div_add by lia. lia.
Qed.

Lemma encode_length (l : list Z) :
  String.length (Base64.encode l) = 4 * ((length l + 2) / 3).
Proof. apply (encode_length_upto (length l)); lia. Qed.

Lemma Uint8Array_length (pcm : list Z) :
  length (Uint8Array_of_buffer pcm) = 2 * length pcm.
Proof.
  unfold Uint8Array_of_buffer.
  induction pcm as [|v pcm IH]; cbn [flat_map length app int16_bytes]; lia.
Qed.

Lemma land_255_is_byte (v : Z) : Base64.is_byte (Z.land v 255) = true.
Proof.
  unfold Base64.is_byte.
  change (Z.land v 255) with (Z.land v (Z.ones 8)). rewrite Z.land_ones by lia.
  pose proof (Z.mod_pos_bound v (2 ^ 8) ltac:(lia)) as Hb.
  apply andb_true_intro; split; [apply Z.leb_le | apply Z.leb_le]; lia.
Qed.

Lemma Uint8Array_bytes (pcm : list Z) :
  forallb Base64.is_byte (Uint8Array_of_buffer pcm) = true.
Proof.
  unfold Uint8Array_of_buffer.
  induction pcm as [|v pcm IH]; [reflexivity|].
  cbn [flat_map int16_bytes app forallb].
  rewrite !land_255_is_byte, IH. reflexivity.
Qed.

Lemma btoa_of_buffer (pcm : list Z) :
  Base64.btoa (Uint8Array_of_buffer pcm) = Some (Base64.encode (Uint8Array_of_buffer pcm)).
Proof. unfold Base64.btoa. now rewrite Uint8Array_bytes. Qed.

End Encoder.

Section Samples.

Local Open Scope Z_scope.

Lemma wrap16_small (z : Z) : -32768 <= z <= 32767 -> wrap16 z = z.
Proof.
  intros Hz. unfold wrap16.
  destruct (Z_lt_le_dec z 0) as [Hneg|Hpos].
  - replace (z mod 65536) with (z + 65536).
    + destruct (Z.leb_spec 32768 (z + 65536)); lia.
    + apply Z.mod_unique with (q := -1); lia.
  - rewrite Z.mod_small by lia.
    destruct (Z.leb_spec 32768 z); lia.
Qed.

Lemma quot_bound (a d : Z) :
  0 < d -> - (32767 * d) <= a <= 32767 * d -> -32767 <= Z.quot a d <= 32767.
Proof.
  intros Hd Ha.
  destruct (Z_lt_le_dec a 0) as [Hneg|Hpos].
  - assert (H : 0 <= Z.quot (- a) d <= 32767).
    { rewrite Z.quot_div_nonneg by lia. split.
      - apply Z.div_pos; lia.
      - apply Z.div_le_upper_bound; lia. }
    rewrite Z.quot_opp_l in H by lia. lia.
  - rewrite Z.quot_div_nonneg by lia. split.
    + pose proof (Z.div_pos a d Hpos Hd). lia.
    + apply Z.div_le_upper_bound; lia.
Qed.

Lemma Qtrunc_scaled (q : Q) :
  (-1 <= q)%Q -> (q <= 1)%Q -> -32767 <= Qtrunc (q * 32767) <= 32767.
Proof.
  unfold Qle, Qtrunc. destruct q as [n d]. cbn.
  intros Hlo Hhi. apply quot_bound; lia.
Qed.

Lemma pcm_sample_inside (q : Q) :
  (-1 <= q)%Q -> (q <= 1)%Q -> pcm_sample (Finite q) = Qtrunc (q * 32767).
Proof.
  intros Hlo Hhi. unfold pcm_sample, Math_min, Math_max.
  destruct (Qle_bool 1 q) eqn:H1.
  - apply Qle_bool_iff in H1.
    assert (Heq : (q == 1)%Q) by (apply Qle_antisym; assumption).
    cbn. unfold Qeq in Heq. destruct q as [n d]. cbn in *.
    replace n with (Z.pos d) by lia.
    unfold Qtrunc. cbn.
    replace (Z.pos d * 32767) with (32767 * Z.pos (d * 1)) by lia.
    rewrite Z.quot_mul by lia. reflexivity.
  - destruct (Qle_bool (-1) q) eqn:H2.
    + cbn. apply wrap16_small. pose proof (Qtrunc_scaled q Hlo Hhi). lia.
    + apply Qle_bool_iff in Hlo. congruence.
Qed.

Lemma pcm_sample_above (q : Q) : (1 <= q)%Q -> pcm_sample (Finite q) = 32767.
Proof.
  intros Hq. unfold pcm_sample, Math_min, Math_max.
  apply Qle_bool_iff in Hq. rewrite Hq. reflexivity.
Qed.

Lemma pcm_sample_below (q : Q) : (q <= -1)%Q -> pcm_sample (Finite q) = -32767.
Proof.
  intros Hq. unfold pcm_sample, Math_min, Math_max.
  destruct (Qle_bool 1 q) eqn:H1.
  - apply Qle_bool_iff in H1.
    exfalso. apply (Qle_not_lt _ _ (Qle_trans _ _ _ H1 Hq)). reflexivity.
  - destruct (Qle_bool (-1) q) eqn:H2; [|reflexivity].
    apply Qle_bool_iff in H2. cbn.
    unfold Qle in Hq, H2. unfold Qtrunc. destruct q as [n d]. cbn in *.
    replace (n * 32767) with (- (32767 * Z.pos (d * 1))) by lia.
    rewrite Z.quot_opp_l, Z.quot_mul by lia. reflexivity.
Qed.

End Samples.

Lemma pcm_sample_range (x : JSNumber) : (-32767 <= pcm_sample x <= 32767)%Z.
Proof.
  destruct x as [q| | |];
    [|vm_compute; split; discriminate ..].
  destruct (Qlt_le_dec q (-1)) as [Hlow|Hlow].
  - rewrite pcm_sample_below by (apply Qlt_le_weak; exact Hlow). lia.
  - destruct (Qlt_le_dec 1 q) as [Hhigh|Hhigh].
    + rewrite pcm_sample_above by (apply Qlt_le_weak; exact Hhigh). lia.
    + rewrite pcm_sample_inside by assumption. now apply Qtrunc_scaled.
Qed.

(** ** Base64 and the bytes of a frame *)

Section RoundTrip.

Local Open Scope Z_scope.

Lemma land_shiftl_low (hi lo k : Z) :
  0 <= k -> 0 <= lo < 2 ^ k -> Z.land (Z.shiftl hi k) lo = 0.
Proof.
  intros Hk Hlo. apply Z.bits_inj'; intros n Hn.
  rewrite Z.land_spec, Z.bits_0.
  destruct (Z_lt_le_dec n k) as [Hlt|Hge].
  - rewrite Z.shiftl_spec_low by assumption. reflexivity.
  - destruct (Z.eq_dec lo 0) as [->|Hne].
    + rewrite Z.bits_0. apply andb_false_r.
    + rewrite (Z.bits_above_log2 lo n), andb_false_r; [reflexivity|lia|].
      assert (Z.log2 lo < k) by (apply Z.log2_lt_pow2; lia). lia.
Qed.

Lemma lor_shiftl_add (hi lo k : Z) :
  0 <= k -> 0 <= lo < 2 ^ k -> Z.lor (Z.shiftl hi k) lo = hi * 2 ^ k + lo.
Proof.
  intros Hk Hlo. pose proof (land_shiftl_low hi lo k Hk Hlo) as H.
  rewrite <- Z.lxor_lor by assumption.
  rewrite <- Z.add_nocarry_lxor by assumption.
  rewrite Z.shiftl_mul_pow2 by assumption. reflexivity.
Qed.

Lemma land_3 (x : Z) : Z.land x 3 = x mod 4.
Proof. exact (Z.land_ones x 2 ltac:(lia)). Qed.

Lemma land_15 (x : Z) : Z.land x 15 = x mod 16.
Proof. exact (Z.land_ones x 4 ltac:(lia)). Qed.

Lemma land_63 (x : Z) : Z.land x 63 = x mod 64.
Proof. exact (Z.land_ones x 6 ltac:(lia)). Qed.

Lemma shiftr_2 (x : Z) : Z.shiftr x 2 = x / 4.
Proof. exact (Z.shiftr_div_pow2 x 2 ltac:(lia)). Qed.

Lemma shiftr_4 (x : Z) : Z.shiftr x 4 = x / 16.
Proof. exact (Z.shiftr_div_pow2 x 4 ltac:(lia)). Qed.

Lemma shiftr_6 (x : Z) : Z.shiftr x 6 = x / 64.
Proof. exact (Z.shiftr_div_pow2 x 6 ltac:(lia)). Qed.

Lemma shiftl_2 (x : Z) : Z.shiftl x 2 = x * 4.
Proof. exact (Z.shiftl_mul_pow2 x 2 ltac:(lia)). Qed.

Lemma shiftl_4 (x : Z) : Z.shiftl x 4 = x * 16.
Proof. exact (Z.shiftl_mul_pow2 x 4 ltac:(lia)). Qed.

Lemma lor_2 (hi lo : Z) : 0 <= lo < 4 -> Z.lor (Z.shiftl hi 2) lo = hi * 4 + lo.
Proof. intros H. exact (lor_shiftl_add hi lo 2 ltac:(lia) H). Qed.

Lemma lor_4 (hi lo : Z) : 0 <= lo < 16 -> Z.lor (Z.shiftl hi 4) lo = hi * 16 + lo.
Proof. intros H. exact (lor_shiftl_add hi lo 4 ltac:(lia) H). Qed.

Lemma lor_6 (hi lo : Z) : 0 <= lo < 64 -> Z.lor (Z.shiftl hi 6) lo = hi * 64 + lo.
Proof. intros H. exact (lor_shiftl_add hi lo 6 ltac:(lia) H). Qed.

(** The four sextets of three bytes, and the three bytes of four sextets,
    as arithmetic. *)
Ltac to_arith :=
  repeat first
    [ rewrite lor_2 by in_range
    | rewrite lor_4 by in_range
    | rewrite lor_6 by in_range
    | rewrite land_3 | rewrite land_15 | rewrite land_63
    | rewrite shiftr_2 | rewrite shiftr_4 | rewrite shiftr_6
    | rewrite shiftl_2 | rewrite shiftl_4 ]
with in_range := to_arith; Z.div_mod_to_equations; lia.

Lemma is_byte_range (c : Z) : Base64.is_byte c = true -> 0 <= c < 256.
Proof. unfold Base64.is_byte. lia. Qed.

Lemma char_of_index (n : Z) :
  0 <= n < 64 ->
  Base64.index_of (Base64.char_of n) = Some n
  /\ Base64.is_pad (Base64.char_of n) = false
  /\ Base64.is_ascii_whitespace (Base64.char_of n) = false.
Proof.
  intros Hn. rewrite <- (Z2Nat.id n) by lia.
  assert (Hk : (Z.to_nat n < 64)%nat) by lia.
  generalize dependent (Z.to_nat n). clear n Hn. intros k Hk.
  do 64 (destruct k as [|k]; [vm_compute; auto|]). lia.
Qed.

Lemma sextets_chars (ss : list Z) :
  Forall (fun n => 0 <= n < 64) ss -> Base64.sextets (map Base64.char_of ss) = Some ss.
Proof.
  induction 1 as [|n ss Hn _ IH]; [reflexivity|].
  cbn [map Base64.sextets]. rewrite IH.
  destruct (char_of_index n Hn) as [-> _]. reflexivity.
Qed.

Lemma filter_chars (ss : list Z) (pad : list ascii) :
  Forall (fun n => 0 <= n < 64) ss ->
  Forall (fun c => Base64.is_ascii_whitespace c = false) pad ->
  filter (fun c => negb (Base64.is_ascii_whitespace c)) (map Base64.char_of ss ++ pad)
  = map Base64.char_of ss ++ pad.
Proof.
  intros Hss Hpad. 
  assert (H : Forall (fun c => Base64.is_ascii_whitespace c = false)
                (map Base64.char_of ss ++ pad)).
  { apply list.Forall_app. split; [|assumption].
    apply Forall_map. eapply list.Forall_impl; [exact Hss|].
    intros n Hn. apply (char_of_index n Hn). }
  induction H as [|c l Hc _ IH]; [reflexivity|].
  rewrite filter_cons. cbn. rewrite Hc. cbn. 
  destruct (decide _) as [_|Hno]; [f_equal; exact IH|].
  exfalso. apply Hno. cbn. exact I.
Qed.

Lemma triples_ind (P : list Z -> Prop) :
  P [] -> (forall a, P [a]) -> (forall a b, P [a; b]) ->
  (forall a b c r, P r -> P (a :: b :: c :: r)) ->
  forall l, P l.
Proof.
  intros H0 H1 H2 H3. fix IH 1.
  intros [|a [|b [|c r]]]; [exact H0|apply H1|apply H2|apply H3, IH].
Qed.

(** What [encode] writes: the characters of a list of sextets that [decode]
    maps back to the bytes, then no, one or two [=]. *)
Lemma encode_shape (l : list Z) :
  Forall (fun c => 0 <= c < 256) l ->
  exists (ss : list Z) (pad : list ascii),
    list_ascii_of_string (Base64.encode l) = map Base64.char_of ss ++ pad
    /\ Forall (fun n => 0 <= n < 64) ss
    /\ Base64.decode ss = l
    /\ ((pad = [] /\ (length ss mod 4 = 0)%nat)
        \/ (pad = ["="%char] /\ (length ss mod 4 = 3)%nat)
        \/ (pad = ["="%char; "="%char] /\ (length ss mod 4 = 2)%nat)).
Proof.
  induction l as [|a|a b|a b c r IH] using triples_ind; intros Hl.
  - exists [], []. repeat split; auto.
  - apply list.Forall_cons in Hl as [Ha _].
    exists [Z.shiftr a 2; Z.shiftl (Z.land a 3) 4], ["="%char; "="%char].
    split; [reflexivity|]. split; [|split].
    + repeat constructor; to_arith; Z.div_mod_to_equations; lia.
    + cbn [Base64.decode]. f_equal. to_arith. Z.div_mod_to_equations; lia.
    + right; right. split; reflexivity.
  - apply list.Forall_cons in Hl as [Ha Hl]. apply list.Forall_cons in Hl as [Hb _].
    exists [Z.shiftr a 2; Z.lor (Z.shiftl (Z.land a 3) 4) (Z.shiftr b 4);
            Z.shiftl (Z.land b 15) 2], ["="%char].
    split; [reflexivity|]. split; [|split].
    + repeat constructor; to_arith; Z.div_mod_to_equations; lia.
    + cbn [Base64.decode]. f_equal; [|f_equal]; to_arith; Z.div_mod_to_equations; lia.
    + right; left. split; reflexivity.
  - apply list.Forall_cons in Hl as [Ha Hl]. apply list.Forall_cons in Hl as [Hb Hl].
    apply list.Forall_cons in Hl as [Hc Hl].
    destruct (IH Hl) as (ss & pad & Hchars & Hss & Hdec & Hpad).
    exists (Z.shiftr a 2 :: Z.lor (Z.shiftl (Z.land a 3) 4) (Z.shiftr b 4)
            :: Z.lor (Z.shiftl (Z.land b 15) 2) (Z.shiftr c 6) :: Z.land c 63 :: ss), pad.
    split; [|split; [|split]].
    + cbn [Base64.encode list_ascii_of_string map app]. rewrite Hchars. reflexivity.
    + repeat (apply list.Forall_cons; split); try assumption;
        to_arith; Z.div_mod_to_equations; lia.
    + cbn [Base64.decode]. rewrite Hdec.
      f_equal; [|f_equal; [|f_equal]]; to_arith; Z.div_mod_to_equations; lia.
    + cbn [length].
      replace (S (S (S (S (length ss))))) with (length ss + 1 * 4)%nat by lia.
      rewrite Nat.Div0.mod_add. exact Hpad.
Qed.

Lemma strip_padding_chars (ss : list Z) (pad : list ascii) :
  Forall (fun n => 0 <= n < 64) ss ->
  (pad = [] /\ (length ss mod 4 = 0)%nat)
  \/ (pad = ["="%char] /\ (length ss mod 4 = 3)%nat)
  \/ (pad = ["="%char; "="%char] /\ (length ss mod 4 = 2)%nat) ->
  Base64.strip_padding (map Base64.char_of ss ++ pad) = map Base64.char_of ss.
Proof.
  intros Hss Hpad. unfold Base64.strip_padding.
  assert (Hlast : forall r, rev (map Base64.char_of ss) = r ->
            match r with
            | p :: _ => Base64.is_pad p = false
            | [] => ss = []
            end).
  { intros r <-. destruct ss as [|n ss' _] using rev_ind; [reflexivity|].
    rewrite map_app, rev_app_distr. cbn.
    apply list.Forall_app in Hss as [_ Hn]. apply list.Forall_cons in Hn as [Hn _].
    apply (char_of_index n Hn). }
  destruct Hpad as [[-> Hlen]|[[-> Hlen]|[-> Hlen]]].
  - rewrite app_nil_r. destruct (Nat.eqb _ 0); [|reflexivity].
    specialize (Hlast _ eq_refl).
    destruct (rev (map Base64.char_of ss)) as [|p [|q r]]; try reflexivity.
    rewrite Hlast. reflexivity.
  - rewrite length_app, length_map. cbn [length].
    replace ((length ss + 1) mod 4)%nat with 0%nat
      by (rewrite Nat.Div0.add_mod, Hlen; reflexivity).
    cbn [Nat.eqb]. rewrite rev_app_distr. cbn [rev app].
    specialize (Hlast _ eq_refl).
    destruct (rev (map Base64.char_of ss)) as [|q r] eqn:Hrev.
    + subst ss. discriminate Hlen.
    + cbn beta iota. change (Base64.is_pad "="%char) with true. cbn beta iota.
      rewrite Hlast. change (rev (q :: r) = map Base64.char_of ss).
      rewrite <- Hrev. apply rev_involutive.
  - rewrite length_app, length_map. cbn [length].
    replace ((length ss + 2) mod 4)%nat with 0%nat
      by (rewrite Nat.Div0.add_mod, Hlen; reflexivity).
    cbn [Nat.eqb]. rewrite rev_app_distr. cbn [rev app].
    cbn beta iota. change (Base64.is_pad "="%char) with true. cbn beta iota.
    apply rev_involutive.
Qed.

(** [atob] inverts [btoa] on every binary string. *)
Lemma atob_btoa (s : list Z) (t : string) :
  Base64.btoa s = Some t -> Base64.atob t = Some s.
Proof.
  unfold Base64.btoa. destruct (forallb Base64.is_byte s) eqn:Hs; [|discriminate].
  intros [= <-].
  assert (Hl : Forall (fun c => 0 <= c < 256) s).
  { apply list.Forall_forall. intros c Hc. apply is_byte_range.
    rewrite forallb_forall in Hs. apply Hs, list_elem_of_In, Hc. }
  destruct (encode_shape s Hl) as (ss & pad & Hchars & Hss & Hdec & Hpad).
  unfold Base64.atob. rewrite Hchars.
  rewrite filter_chars; [|assumption|].
  2:{ destruct Hpad as [[-> _]|[[-> _]|[-> _]]]; repeat constructor. }
  rewrite strip_padding_chars by assumption.
  rewrite length_map, sextets_chars by assumption.
  replace (Nat.eqb (length ss mod 4) 1) with false.
  - cbn. rewrite Hdec. reflexivity.
  - symmetry. apply Nat.eqb_neq. lia.
Qed.

(** The letter that stands for a sextet in RFC 4648. *)
Lemma char_of_letter (n : Z) :
  0 <= n < 64 ->
  Some (Base64.char_of n) =
    String.get (Z.to_nat n)
      "ABCDEFGHIJKLMNOPQRSTUVWXYZabcdefghijklmnopqrstuvwxyz0123456789+/".
Proof.
  intros Hn. unfold Base64.char_of.
  assert (Hk : (Z.to_nat n < 64)%nat) by lia.
  generalize dependent (Z.to_nat n). clear n Hn. intros k Hk.
  do 64 (destruct k as [|k]; [reflexivity|]). lia.
Qed.

(** The characters [encode] writes for the group of bytes at [3 * k]. *)
Lemma encode_get (k : nat) :
  forall (l : list Z) (a : Z),
    Forall (fun c => 0 <= c < 256) l ->
    l !! (3 * k)%nat = Some a ->
    String.get (4 * k) (Base64.encode l) = Some (Base64.char_of (a / 4))
    /\ match l !! (3 * k + 1)%nat, l !! (3 * k + 2)%nat with
       | Some b, Some c =>
           String.get (4 * k + 1) (Base64.encode l)
             = Some (Base64.char_of (a mod 4 * 16 + b / 16))
           /\ String.get (4 * k + 2) (Base64.encode l)
                = Some (Base64.char_of (b mod 16 * 4 + c / 64))
           /\ String.get (4 * k + 3) (Base64.encode l) = Some (Base64.char_of (c mod 64))
       | Some b, None =>
           String.get (4 * k + 1) (Base64.encode l)
             = Some (Base64.char_of (a mod 4 * 16 + b / 16))
           /\ String.get (4 * k + 2) (Base64.encode l)
                = Some (Base64.char_of (b mod 16 * 4))
           /\ String.get (4 * k + 3) (Base64.encode l) = Some "="%char
       | None, _ =>
           String.get (4 * k + 1) (Base64.encode l) = Some (Base64.char_of (a mod 4 * 16))
           /\ String.get (4 * k + 2) (Base64.encode l) = Some "="%char
           /\ String.get (4 * k + 3) (Base64.encode l) = Some "="%char
       end.
Proof.
  induction k as [|k IH]; intros l a Hl Ha.
  - destruct l as [|a' [|b [|c r]]]; [discriminate|..]; injection Ha as ->.
    + cbn. to_arith. repeat split; reflexivity.
    + apply list.Forall_cons in Hl as [Ha Hl]. apply list.Forall_cons in Hl as [Hb _].
      cbn. to_arith. repeat split; reflexivity.
    + apply list.Forall_cons in Hl as [Ha Hl]. apply list.Forall_cons in Hl as [Hb Hl].
      apply list.Forall_cons in Hl as [Hc _].
      cbn. to_arith. repeat split; reflexivity.
  - replace (3 * S k)%nat with (S (S (S (3 * k)))) in * by lia.
    replace (4 * S k)%nat with (S (S (S (S (4 * k))))) by lia.
    destruct l as [|a0 [|b0 [|c0 r]]]; try discriminate.
    apply list.Forall_cons in Hl as [_ Hl]. apply list.Forall_cons in Hl as [_ Hl].
    apply list.Forall_cons in Hl as [_ Hl].
    exact (IH r a Hl Ha).
Qed.

End RoundTrip.

Section Wire.

Local Open Scope Z_scope.

Lemma buffer_bytes_at (pcm : list Z) (i : nat) (v : Z) :
  pcm !! i = Some v ->
  Uint8Array_of_buffer pcm !! (2 * i)%nat = Some (Z.land v 255)
  /\ Uint8Array_of_buffer pcm !! (2 * i + 1)%nat = Some (Z.land (Z.shiftr v 8) 255).
Proof.
  revert i. induction pcm as [|x pcm IH]; intros i Hi; [discriminate|].
  destruct i as [|i].
  - injection Hi as ->. split; reflexivity.
  - replace (2 * S i)%nat with (S (S (2 * i))) by lia.
    replace (S (S (2 * i)) + 1)%nat with (S (S (2 * i + 1))) by lia.
    apply (IH i Hi).
Qed.

Lemma int16_of_bytes (v : Z) :
  -32768 <= v <= 32767 ->
  wrap16 (Z.land v 255 + 256 * Z.land (Z.shiftr v 8) 255) = v.
Proof.
  intros Hv.
  replace (Z.land v 255) with (v mod 256)
    by (symmetry; exact (Z.land_ones v 8 ltac:(lia))).
  replace (Z.land (Z.shiftr v 8) 255) with ((v / 256) mod 256).
  2:{ change (v / 256) with (v / 2 ^ 8).
      rewrite <- (Z.shiftr_div_pow2 v 8) by lia.
      symmetry. exact (Z.land_ones (Z.shiftr v 8) 8 ltac:(lia)). }
  rewrite <- (wrap16_small v Hv) at 3. unfold wrap16.
  replace ((v mod 256 + 256 * ((v / 256) mod 256)) mod 65536) with (v mod 65536)
    by (Z.div_mod_to_equations; lia).
  reflexivity.
Qed.

End Wire.

Section Quantisation.

Local Open Scope Z_scope.

Lemma Qtrunc_opp (q : Q) : Qtrunc (- q) = - Qtrunc q.
Proof. unfold Qtrunc. destruct q as [n d]. cbn. apply Z.quot_opp_l. lia. Qed.

Lemma Qtrunc_mono (p q : Q) : (p <= q)%Q -> Qtrunc p <= Qtrunc q.
Proof.
  unfold Qle, Qtrunc. destruct p as [n1 d1], q as [n2 d2]. cbn. intros H.
  rewrite <- (Z.quot_mul_cancel_r n1 (Z.pos d1) (Z.pos d2)) by lia.
  rewrite <- (Z.quot_mul_cancel_r n2 (Z.pos d2) (Z.pos d1)) by lia.
  rewrite (Z.mul_comm (Z.pos d2) (Z.pos d1)).
  apply Z.quot_le_mono; lia.
Qed.

Lemma Qtrunc_error (x : Q) :
  (inject_Z (Qtrunc x) - 1 < x)%Q /\ (x < inject_Z (Qtrunc x) + 1)%Q.
Proof.
  unfold Qlt, Qtrunc. destruct x as [n d]. cbn.
  pose proof (Z.quot_rem' n (Z.pos d)) as E.
  pose proof (Z.rem_bound_abs n (Z.pos d)) as R.
  generalize dependent (Z.rem n (Z.pos d)).
  generalize dependent (Z.quot n (Z.pos d)). intros t r E R.
  assert (Z.abs r < Z.pos d) by lia. nia.
Qed.

Lemma Qtrunc_toward_zero (x : Q) :
  ((0 <= x)%Q -> 0 <= Qtrunc x /\ (inject_Z (Qtrunc x) <= x)%Q)
  /\ ((x <= 0)%Q -> Qtrunc x <= 0 /\ (x <= inject_Z (Qtrunc x))%Q).
Proof.
  unfold Qle, Qtrunc. destruct x as [n d]. cbn.
  pose proof (Z.quot_rem' n (Z.pos d)) as E.
  split; intros Hn.
  - rewrite Z.quot_div_nonneg in * by lia.
    pose proof (Z.div_pos n (Z.pos d)).
    pose proof (Z.rem_nonneg n (Z.pos d)). nia.
  - assert (Hq : Z.quot n (Z.pos d) = - (- n / Z.pos d)).
    { rewrite <- (Z.quot_div_nonneg (- n)) by lia.
      rewrite Z.quot_opp_l by lia. lia. }
    pose proof (Z.div_pos (- n) (Z.pos d)).
    pose proof (Z.rem_nonpos n (Z.pos d)). nia.
Qed.

End Quantisation.

(** C3. On every capture tick the handler clamps each sample to [-1, 1],
    scales it to the signed 16-bit range, base64-encodes the raw bytes of the
    frame and makes exactly one [sendRealtimeInput] call; it never throws,
    whatever the samples.  Inside [-1, 1] the 16-bit value is the sample
    times 32767 with its fraction dropped, toward zero; outside, and for the
    infinities, it is the nearer of -32767 and 32767; NaN gives 0.  The
    bytes are two per sample, low byte first, in
    two's complement; the text is their base64 encoding as RFC 4648 has it,
    group by group over the standard alphabet, with [=] padding, and [atob]
    gives the bytes back.  With the 4096-sample buffer of the script
    processor the frame sent holds 4096 samples, 8192 bytes, 10924 base64
    characters. *)
Theorem frame_encoder_total_one_full_frame (inputData : list JSNumber) :
  exists base64Data : string,
    onaudioprocess inputData =
      Some [ {| media := {| data := base64Data; mimeType := "audio/pcm;rate=24000" |} |} ]
    /\ Base64.btoa (Uint8Array_of_buffer (pcmData inputData)) = Some base64Data
    /\ length (pcmData inputData) = length inputData
    /\ (forall i x, inputData !! i = Some x ->
          exists v, pcmData inputData !! i = Some v
            /\ (-32767 <= v <= 32767)%Z
            /\ match x with
               | Finite q =>
                   ((q <= -1)%Q -> v = (-32767)%Z)
                   /\ ((1 <= q)%Q -> v = 32767%Z)
                   /\ ((-1 <= q)%Q -> (q <= 1)%Q -> v = Qtrunc (q * 32767))
               | PosInfinity => v = 32767%Z
               | NegInfinity => v = (-32767)%Z
               | NaN => v = 0%Z
               end)
    /\ (length inputData = bufferSize ->
          length (pcmData inputData) = 4096%nat
          /\ length (Uint8Array_of_buffer (pcmData inputData)) = (2 * 4096)%nat
          /\ Z.of_nat (String.length base64Data) = 10924%Z)
    /\ (forall i q v,
          inputData !! i = Some (Finite q) -> pcmData inputData !! i = Some v ->
          (-1 <= q)%Q -> (q <= 1)%Q ->
          ((0 <= q)%Q ->
             (0 <= v)%Z /\ (inject_Z v <= q * 32767)%Q /\ (q * 32767 < inject_Z v + 1)%Q)
          /\ ((q <= 0)%Q ->
                (v <= 0)%Z /\ (inject_Z v - 1 < q * 32767)%Q
                /\ (q * 32767 <= inject_Z v)%Q))
    /\ exists bytes : list Z,
         bytes = Uint8Array_of_buffer (pcmData inputData)
         /\ length bytes = (2 * length inputData)%nat
         /\ (forall i v, pcmData inputData !! i = Some v ->
               bytes !! (2 * i)%nat = Some (v mod 256)%Z
               /\ bytes !! (2 * i + 1)%nat = Some (v / 256 mod 256)%Z)
         /\ Base64.atob base64Data = Some bytes
         /\ String.length base64Data = (4 * ((length bytes + 2) / 3))%nat
         /\ let letter (n : Z) :=
              String.get (Z.to_nat n)
                "ABCDEFGHIJKLMNOPQRSTUVWXYZabcdefghijklmnopqrstuvwxyz0123456789+/" in
            forall (k : nat) (a : Z),
              bytes !! (3 * k)%nat = Some a ->
              String.get (4 * k) base64Data = letter (a / 4)%Z
              /\ match bytes !! (3 * k + 1)%nat, bytes !! (3 * k + 2)%nat with
                 | Some b, Some c =>
                     String.get (4 * k + 1) base64Data = letter (a mod 4 * 16 + b / 16)%Z
                     /\ String.get (4 * k + 2) base64Data
                        = letter (b mod 16 * 4 + c / 64)%Z
                     /\ String.get (4 * k + 3) base64Data = letter (c mod 64)%Z
                 | Some b, None =>
                     String.get (4 * k + 1) base64Data = letter (a mod 4 * 16 + b / 16)%Z
                     /\ String.get (4 * k + 2) base64Data = letter (b mod 16 * 4)%Z
                     /\ String.get (4 * k + 3) base64Data = Some "="%char
                 | None, _ =>
                     String.get (4 * k + 1) base64Data = letter (a mod 4 * 16)%Z
                     /\ String.get (4 * k + 2) base64Data = Some "="%char
                     /\ String.get (4 * k + 3) base64Data = Some "="%char
                 end.
Proof.
  exists (Base64.encode (Uint8Array_of_buffer (pcmData inputData))).
  assert (Hlen : length (pcmData inputData) = length inputData)
    by (unfold pcmData; apply length_map).
  split; [|split; [|split; [|split; [|split; [|split]]]]].
  - unfold onaudioprocess. now rewrite btoa_of_buffer.
  - apply btoa_of_buffer.
  - exact Hlen.
  - intros i x Hx. exists (pcm_sample x). split; [|split].
    + unfold pcmData. rewrite list_lookup_fmap, Hx. reflexivity.
    + apply pcm_sample_range.
    + destruct x as [q| | |]; try reflexivity.
      split; [|split].
      * apply pcm_sample_below.
      * apply pcm_sample_above.
      * apply pcm_sample_inside.
  - intros Hsize. rewrite encode_length, Uint8Array_length, Hlen, Hsize.
    repeat split; reflexivity.
  - intros i q v Hq Hv Hlo Hhi.
    unfold pcmData in Hv. rewrite list_lookup_fmap, Hq in Hv. injection Hv as <-.
    rewrite pcm_sample_inside by assumption.
    destruct (Qtrunc_error (q * 32767)) as [E1 E2].
    destruct (Qtrunc_toward_zero (q * 32767)) as [T1 T2].
    split; intros Hsign.
    + destruct T1 as [T0 T1]; [destruct q; unfold Qle in *; cbn in *; lia|].
      split; [exact T0|]. split; [exact T1|exact E2].
    + destruct T2 as [T0 T2]; [destruct q; unfold Qle in *; cbn in *; lia|].
      split; [exact T0|]. split; [exact E1|exact T2].
  - exists (Uint8Array_of_buffer (pcmData inputData)).
    split; [reflexivity|]. split; [now rewrite Uint8Array_length, Hlen|].
    split; [|split; [|split]].
    + intros i v Hv. destruct (buffer_bytes_at _ _ _ Hv) as [Hlo Hhi].
      rewrite Hlo, Hhi. split; f_equal.
      * exact (Z.land_ones v 8 ltac:(lia)).
      * rewrite (Z.shiftr_div_pow2 v 8) by lia.
        exact (Z.land_ones (v / 2 ^ 8) 8 ltac:(lia)).
    + apply atob_btoa, btoa_of_buffer.
    + apply encode_length.
    + intros letter k a Ha.
      assert (Hbytes : Forall (fun c => (0 <= c < 256)%Z)
                         (Uint8Array_of_buffer (pcmData inputData))).
      { apply list.Forall_forall. intros c Hc. apply is_byte_range.
        pose proof (Uint8Array_bytes (pcmData inputData)) as Hall.
        rewrite forallb_forall in Hall. apply Hall, list_elem_of_In, Hc. }
      assert (Hbyte : forall j c,
                 Uint8Array_of_buffer (pcmData inputData) !! j = Some c -> (0 <= c < 256)%Z).
      { intros j c Hc. rewrite list.Forall_forall in Hbytes.
        apply Hbytes. eapply list_elem_of_lookup_2, Hc. }
      destruct (encode_get k _ a Hbytes Ha) as [H0 Hrest].
      pose proof (Hbyte _ _ Ha) as Ra.
      split.
      { rewrite H0. apply char_of_letter. Z.div_mod_to_equations; lia. }
      destruct (Uint8Array_of_buffer (pcmData inputData) !! (3 * k + 1)%nat)
        as [b|] eqn:Hb.
      * pose proof (Hbyte _ _ Hb) as Rb.
        destruct (Uint8Array_of_buffer (pcmData inputData) !! (3 * k + 2)%nat)
          as [c|] eqn:Hc.
        -- pose proof (Hbyte _ _ Hc) as Rc.
           destruct Hrest as (H1 & H2 & H3). rewrite H1, H2, H3.
           repeat split; apply char_of_letter; Z.div_mod_to_equations; lia.
        -- destruct Hrest as (H1 & H2 & H3). rewrite H1, H2, H3.
           repeat split; apply char_of_letter; Z.div_mod_to_equations; lia.
      * destruct Hrest as (H1 & H2 & H3). rewrite H1, H2, H3.
        repeat split. apply char_of_letter; Z.div_mod_to_equations; lia.
Qed.

Lemma frame_encoder_witness :
  exists base64Data : string,
    onaudioprocess (repeat (Finite (1 # 2)) 4096) =
      Some [ {| media := {| data := base64Data; mimeType := "audio/pcm;rate=24000" |} |} ]
    /\ Z.of_nat (String.length base64Data) = 10924%Z
    /\ Base64.atob base64Data = Some (Uint8Array_of_buffer (repeat 16383%Z 4096)).
Proof.
  destruct (frame_encoder_total_one_full_frame (repeat (Finite (1 # 2)) 4096))
    as (base64Data & Hsend & _ & _ & _ & Hfull & _ & bytes & Hbytes & _ & _ & Hatob & _).
  exists base64Data. split; [exact Hsend|]. split.
  - apply Hfull. vm_compute. reflexivity.
  - rewrite Hatob, Hbytes. vm_compute. reflexivity.
Defined.

(** ** Symbolic execution of the handlers

    The handlers are straight-line code over a handful of references: they
    are run on an arbitrary world by unfolding the monad and splitting on
    each reference they test. *)

Ltac unfold_async :=
  unfold onmessage, onmessage_modelTurn, onmessage_interrupted, onended, onopen in *;
  unfold mbind, Async_bind, mret, Async_ret, try_catch,
    setIsLiveActive, setIsLuminaSpeaking, setIsLuminaThinking, console_error,
    source_stop, source_start, createBufferSource, new_AudioContext, atob,
    context_not_closed in *;
  unfold read, write, skip, throw, await in *.

Ltac break_match :=
  match goal with
  | |- context [match ?x with _ => _ end] =>
      lazymatch x with
      | context [match _ with _ => _ end] => fail
      | _ => destruct x eqn:?
      end
  end.

Ltac post_step :=
  lazymatch goal with
  | |- Post _ (Returned _ _) => apply post_returned
  | |- Post _ (Thrown _ _) => apply post_thrown
  | |- Post _ (Awaiting _ _ _) =>
      apply post_awaiting;
      [| let w' := fresh "w'" in
         let Hw' := fresh "Hw'" in
         intros [?|?] w' Hw'; cbn]
  | |- Post _ _ => break_match; cbn
  end.

(** The state of a node after an update of the store. *)

Lemma state_at_alter l p st s :
  state_at (alter (set_state st) p l) s =
    if decide (p = s) then (match state_at l s with Some _ => Some st | None => None end)
    else state_at l s.
Proof.
  unfold state_at. rewrite list_lookup_alter.
  case_decide as H; [|reflexivity].
  subst. destruct (l !! s); reflexivity.
Qed.

Lemma state_at_snoc l x s :
  state_at (l ++ [x]) s =
    if decide (s < length l)%nat then state_at l s
    else if decide (s = length l) then Some (srcState x) else None.
Proof.
  unfold state_at. case_decide as H.
  - now rewrite lookup_app_l.
  - rewrite lookup_app_r by lia. case_decide as H2.
    + subst. now rewrite Nat.sub_diag.
    + destruct (s - length l)%nat eqn:E; [lia|reflexivity].
Qed.

Lemma state_at_lt l s st : state_at l s = Some st -> (s < length l)%nat.
Proof.
  unfold state_at. destruct (l !! s) eqn:E; [|discriminate].
  intros _. eapply lookup_lt_Some; eauto.
Qed.

Ltac norm :=
  repeat (rewrite state_at_alter in * || rewrite state_at_snoc in * ).

Ltac use_current :=
  repeat match goal with
  | H : currentAudioSourceRef ?w = _ |- _ => progress (rewrite H in * )
  end.

Ltac bounds :=
  repeat match goal with
  | H : state_at ?l ?s = Some _ |- _ =>
      lazymatch goal with
      | _ : (s < length l)%nat |- _ => fail
      | _ => pose proof (state_at_lt _ _ _ H)
      end
  end.

Ltac eqb_facts :=
  repeat match goal with
  | H : Nat.eqb _ _ = true |- _ => apply Nat.eqb_eq in H
  | H : Nat.eqb _ _ = false |- _ => apply Nat.eqb_neq in H
  end.

Ltac split_cases :=
  eqb_facts;
  repeat (first [case_decide | case_match]; simplify_eq/=; try (exfalso; lia));
  try lia; try congruence.

Ltac use_play :=
  repeat match goal with
  | Hp : forall s, state_at ?l s = Some Playing -> ?c = Some s,
    H : state_at ?l ?x = Some Playing |- _ =>
      lazymatch goal with
      | _ : c = Some x |- _ => fail
      | _ => pose proof (Hp x H)
      end
  end.

(** What [consistent] says of the worlds at hand, in terms of [state_at]. *)
Ltac facts :=
  unfold consistent, mark in *; cbn in *; use_current;
  repeat match goal with
  | H : voice_ok _ _ |- _ => destruct H as [?Hplay ?Hcur]
  end;
  repeat match goal with
  | H : forall s, Some ?n = Some s -> _ |- _ =>
      let st := fresh "st" in
      destruct (H n eq_refl) as (st & ? & ?); clear H
  end;
  norm; bounds.

(** Closes a goal [consistent w] for a world [w] built from consistent
    ones. *)
Ltac voice :=
  facts;
  split;
  [ let s := fresh "s" in
    let Hs := fresh "Hs" in
    intros s Hs; norm; split_cases; use_play; split_cases; eauto
  | let s := fresh "s" in
    let Hs := fresh "Hs" in
    intros s Hs; simplify_eq; norm; split_cases;
    try (eexists; split; [eassumption || reflexivity | congruence]); eauto ].

(** Closes a goal about the states of the nodes of such a world. *)
Ltac states := intros; facts; split_cases; bounds; use_play; split_cases.

(** ** The playback discipline is an invariant of the event loop *)

Lemma post_bind {A B : Type} (Q : A -> World -> Prop) (R : B -> World -> Prop)
    (o : Outcome A) (f : A -> Async B) :
  Post Q o -> (forall a w, Q a w -> Post R (f a w)) -> Post R (bind_outcome o f).
Proof.
  intros Ho Hf. induction Ho as [w a Hq|w e Hw|w T r k Hw Hk IH]; cbn.
  - now apply Hf.
  - now constructor.
  - constructor; [exact Hw|]. intros res w' Hw'. now apply IH.
Qed.

Lemma onmessage_modelTurn_keeps ctx m (w : World) :
  consistent w -> keeps (onmessage_modelTurn ctx m w).
Proof.
  intros Hw. unfold keeps. unfold_async. cbn.
  repeat post_step; voice.
Qed.

Lemma onmessage_interrupted_keeps m (w : World) :
  consistent w -> keeps (onmessage_interrupted m w).
Proof.
  intros Hw. unfold keeps. unfold_async. cbn.
  repeat post_step; voice.
Qed.

Lemma onmessage_keeps ctx m (w : World) : consistent w -> keeps (onmessage ctx m w).
Proof.
  intros Hw. unfold keeps, onmessage, mbind, Async_bind.
  eapply post_bind; [now apply onmessage_modelTurn_keeps|].
  intros [] w' Hw'. now apply onmessage_interrupted_keeps.
Qed.

Lemma stopLiveVoice_keeps (w : World) : consistent w -> keeps (stopLiveVoice w).
Proof.
  intros Hw. unfold keeps, stopLiveVoice. unfold_async. cbn.
  repeat post_step; voice.
Qed.

Lemma startLiveVoice_keeps (w : World) : consistent w -> keeps (startLiveVoice w).
Proof.
  intros Hw. unfold keeps, startLiveVoice. unfold_async. cbn.
  repeat post_step; try (apply stopLiveVoice_keeps); voice.
Qed.

Lemma onopen_keeps (w : World) : consistent w -> keeps (onopen w).
Proof.
  intros Hw. unfold keeps. unfold_async. cbn.
  repeat post_step; voice.
Qed.

(** [ended] reaches a source only after it has ended. *)
Lemma onended_keeps (s : nat) (w : World) :
  consistent w -> source_in Ended s w = true -> keeps (onended s (mark s Notified w)).
Proof.
  intros Hw Hs. unfold keeps, source_in in *. unfold_async. cbn.
  repeat post_step; voice.
Qed.

Lemma settle_keeps {T : Type} (r : Request T) (failure : option Exn) (w : World) :
  consistent w -> consistent (settle r failure w).1.
Proof.
  intros Hw. destruct failure; [exact Hw|]. destruct r; exact Hw.
Qed.

Lemma mark_ended_keeps (s : nat) (w : World) : consistent w -> consistent (mark s Ended w).
Proof.
  intros Hw. destruct (currentAudioSourceRef w) eqn:Hc; voice.
Qed.

Lemma enter_ok (o : Outcome unit) (l : Loop) :
  keeps o -> Forall suspended_ok (pending l) -> loop_ok (enter o l).
Proof.
  intros Ho Hl. destruct Ho as [w a Hw|w e Hw|w T r k Hw Hk]; split; cbn; auto.
  apply Forall_app. split; [assumption|]. constructor; [|constructor]. exact Hk.
Qed.

Lemma fire_ok (ev : Event) (l : Loop) : loop_ok l -> loop_ok (fire ev l).
Proof.
  intros [Hw Hp]. destruct ev as [| | |ctx m|i failure|s|s]; unfold fire.
  - apply enter_ok; [now apply startLiveVoice_keeps|assumption].
  - apply enter_ok; [now apply stopLiveVoice_keeps|assumption].
  - apply enter_ok; [now apply onopen_keeps|assumption].
  - apply enter_ok; [now apply onmessage_keeps|assumption].
  - destruct (pending l !! i) as [[T r k]|] eqn:Hi; [|now split].
    pose proof (settle_keeps r failure (world l) Hw) as Hs.
    destruct (settle r failure (world l)) as [w1 res]. cbn in Hs.
    apply enter_ok; cbn.
    + apply (Forall_lookup_1 _ _ _ _ Hp Hi). exact Hs.
    + now apply Forall_delete.
  - destruct (source_in Playing s (world l)); [|now split].
    split; cbn; [now apply mark_ended_keeps|assumption].
  - destruct (source_in Ended s (world l)) eqn:Hs; [|now split].
    apply enter_ok; [now apply onended_keeps|assumption].
Qed.

Lemma boot_ok : loop_ok boot.
Proof.
  split; [|constructor]. split; cbn.
  - intros s Hs. discriminate.
  - intros s Hs. discriminate.
Qed.

Lemma run_ok (evs : list Event) (l : Loop) : loop_ok l -> loop_ok (run evs l).
Proof.
  revert l. induction evs as [|ev evs IH]; intros l Hl; [exact Hl|].
  cbn. apply IH. now apply fire_ok.
Qed.

(** Counting the playing nodes of a consistent world. *)

Lemma count_playing_none (srcs : list BufferSource) :
  (forall s, state_at srcs s <> Some Playing) -> count_playing srcs = 0%nat.
Proof.
  induction srcs as [|src srcs IH]; intros Hnone; [reflexivity|].
  cbn [count_playing]. rewrite IH.
  - pose proof (Hnone 0%nat) as H0. unfold state_at, is_playing in *. cbn in H0.
    destruct (srcState src) eqn:E; cbn; try reflexivity.
    exfalso. apply H0. reflexivity.
  - intros s. apply (Hnone (S s)).
Qed.

Lemma count_playing_unique (srcs : list BufferSource) :
  (forall i j, state_at srcs i = Some Playing -> state_at srcs j = Some Playing -> i = j) ->
  (count_playing srcs <= 1)%nat.
Proof.
  induction srcs as [|src srcs IH]; intros Huniq; [cbn; lia|].
  cbn [count_playing]. destruct (is_playing src) eqn:Hsrc.
  - rewrite count_playing_none; [lia|].
    intros s Hs. specialize (Huniq 0%nat (S s)).
    unfold state_at, is_playing in *. cbn in Huniq.
    destruct (srcState src) eqn:E; try discriminate.
    specialize (Huniq eq_refl Hs). discriminate.
  - cbn. apply IH. intros i j Hi Hj.
    specialize (Huniq (S i) (S j) Hi Hj). lia.
Qed.

Lemma consistent_one_voice (w : World) : consistent w -> (active_handles w <= 1)%nat.
Proof.
  intros [Hplay _]. apply count_playing_unique.
  intros i j Hi Hj. apply Hplay in Hi, Hj. congruence.
Qed.

Lemma consistent_silent (w : World) :
  consistent w -> currentAudioSourceRef w = None -> active_handles w = 0%nat.
Proof.
  intros [Hplay _] Hnone. apply count_playing_none.
  intros s Hs. apply Hplay in Hs. congruence.
Qed.

(** ** The two blocks of [onmessage] on a consistent world *)

(** The interrupted block never throws on a consistent world. *)
Lemma interrupted_block message (w : World) :
  consistent w ->
  exists w',
    onmessage_interrupted message w = Returned w' tt
    /\ consistent w'
    /\ if message_interrupted message then
         currentAudioSourceRef w' = None
         /\ isLuminaSpeaking w' = false
         /\ calls w' = calls w ++ match currentAudioSourceRef w with
                                  | Some s => [call_source_stop s]
                                  | None => []
                                  end
         /\ (forall s, state_at (sources w') s = stopped (state_at (sources w) s))
       else w' = w.
Proof.
  intros Hw. unfold_async.
  destruct (message_interrupted message); [|now exists w].
  cbn. repeat (break_match; cbn).
  all: lazymatch goal with
       | |- exists _, Thrown _ _ = _ /\ _ => exfalso; facts; split_cases
       | |- _ =>
           eexists; split; [reflexivity|]; split; [voice|]; cbn;
           repeat split; rewrite ?app_nil_r; try reflexivity;
           try (unfold stopped; states)
       end.
Qed.

(** The model-turn block of a message with a decodable chunk: it suspends
    on the decode; a rejection ends the handler; a resolution, in whatever
    consistent world it comes, stops the current handle, if any, and starts
    a fresh one. *)
Lemma modelTurn_block_suspends ctx message base64Audio audioData w :
  message_audio message = Some base64Audio ->
  Base64.atob base64Audio = Some audioData ->
  exists k,
    onmessage_modelTurn ctx message w =
      Awaiting (log_call (call_decodeAudioData ctx)
                  (with_isLuminaThinking false (with_isLuminaSpeaking true w)))
               (decodeAudioData ctx audioData) k
    /\ (forall e w', k (Rejected e) w' = Thrown w' e)
    /\ (forall audioBuffer w',
          consistent w' ->
          exists w1,
            k (Resolved audioBuffer) w' = Returned w1 tt
            /\ consistent w1
            /\ calls w1 =
                 calls w'
                 ++ match currentAudioSourceRef w' with
                    | Some previous => [call_source_stop previous]
                    | None => []
                    end
                 ++ [call_source_start (length (sources w'))]
            /\ currentAudioSourceRef w1 = Some (length (sources w'))
            /\ state_at (sources w1) (length (sources w')) = Some Playing
            /\ (forall s, s <> length (sources w') ->
                  state_at (sources w1) s = stopped (state_at (sources w') s))).
Proof.
  intros Haudio Hatob. unfold message_audio in Haudio.
  unfold_async.
  destruct (message_modelTurn message) as [modelTurn|]; [|discriminate].
  destruct (Inbound.parts modelTurn) as [parts|]; [|discriminate].
  cbn. rewrite Haudio. cbn. rewrite Hatob. cbn.
  eexists. split; [reflexivity|]. split; [reflexivity|].
  intros audioBuffer w' Hw'. cbn.
  repeat (break_match; cbn).
  all: lazymatch goal with
       | |- exists _, Thrown _ _ = _ /\ _ => exfalso; facts; split_cases
       | |- _ =>
           eexists; split; [reflexivity|]; split; [voice|]; cbn;
           repeat split; rewrite <- ?app_assoc; try reflexivity;
           try (unfold stopped; states)
       end.
Qed.

Lemma stopped_twice (st : option SourceState) : stopped (stopped st) = stopped st.
Proof. destruct st as [[| | |]|]; reflexivity. Qed.

(** The whole handler on such a message. *)
Lemma chunk_suspends ctx message base64Audio audioData w :
  message_audio message = Some base64Audio ->
  Base64.atob base64Audio = Some audioData ->
  exists k,
    onmessage ctx message w =
      Awaiting (log_call (call_decodeAudioData ctx)
                  (with_isLuminaThinking false (with_isLuminaSpeaking true w)))
               (decodeAudioData ctx audioData) k
    /\ (forall e w', k (Rejected e) w' = Thrown w' e)
    /\ (forall audioBuffer w',
          consistent w' ->
          exists w'',
            k (Resolved audioBuffer) w' = Returned w'' tt
            /\ consistent w''
            /\ calls w'' =
                 calls w'
                 ++ match currentAudioSourceRef w' with
                    | Some previous => [call_source_stop previous]
                    | None => []
                    end
                 ++ [call_source_start (length (sources w'))]
                 ++ (if message_interrupted message
                     then [call_source_stop (length (sources w'))] else [])
            /\ currentAudioSourceRef w'' =
                 (if message_interrupted message then None
                  else Some (length (sources w')))
            /\ state_at (sources w'') (length (sources w')) =
                 Some (if message_interrupted message then Ended else Playing)
            /\ (forall s, s <> length (sources w') ->
                  state_at (sources w'') s = stopped (state_at (sources w') s))).
Proof.
  intros Haudio Hatob.
  destruct (modelTurn_block_suspends ctx message base64Audio audioData w Haudio Hatob)
    as (k & Hk & Hreject & Hresume).
  exists (fun res w' => bind_outcome (k res w') (fun _ => onmessage_interrupted message)).
  split; [|split].
  - unfold onmessage, mbind, Async_bind. rewrite Hk. reflexivity.
  - intros e w'. rewrite Hreject. reflexivity.
  - intros audioBuffer w' Hw'.
    destruct (Hresume audioBuffer w' Hw')
      as (w1 & Hret & Hw1 & Hcalls & Hcur & Hfresh & Hothers).
    destruct (interrupted_block message w1 Hw1) as (w'' & Hint & Hw'' & Hrest).
    exists w''. rewrite Hret. cbn [bind_outcome]. split; [exact Hint|].
    split; [exact Hw''|].
    destruct (message_interrupted message).
    + destruct Hrest as (Hnone & _ & Hcalls' & Hstates).
      rewrite Hcalls', Hcalls, Hcur, Hstates, Hfresh, <- !app_assoc.
      repeat split; try reflexivity; try assumption.
      intros s Hs. now rewrite Hstates, Hothers, stopped_twice.
    + subst w''. rewrite Hcalls, app_nil_r.
      repeat split; assumption.
Qed.

(** A message with the interrupted flag and nothing to decode. *)
Lemma interrupted_now ctx message (w : World) :
  consistent w ->
  message_interrupted message = true ->
  message_audio message = None ->
  has_parts message = true ->
  exists w',
    onmessage ctx message w = Returned w' tt
    /\ consistent w'
    /\ currentAudioSourceRef w' = None
    /\ isLuminaSpeaking w' = false
    /\ calls w' = calls w ++ match currentAudioSourceRef w with
                             | Some s => [call_source_stop s]
                             | None => []
                             end
    /\ (forall s, state_at (sources w') s = stopped (state_at (sources w) s)).
Proof.
  intros Hw Hint Haudio Hparts. unfold message_audio, has_parts in *.
  assert (Hblock : exists w1,
             onmessage_modelTurn ctx message w = Returned w1 tt
             /\ sources w1 = sources w
             /\ currentAudioSourceRef w1 = currentAudioSourceRef w
             /\ calls w1 = calls w).
  { unfold_async.
    destruct (message_modelTurn message) as [modelTurn|]; cbn.
    - destruct (Inbound.parts modelTurn) as [parts|]; [|discriminate].
      cbn. rewrite Haudio. eexists. repeat split; reflexivity.
    - exists w. repeat split; reflexivity. }
  destruct Hblock as (w1 & Hret & Hsources & Hcur & Hcalls).
  assert (Hw1 : consistent w1) by (unfold consistent; now rewrite Hsources, Hcur).
  destruct (interrupted_block message w1 Hw1) as (w' & Hret' & Hw' & Hrest).
  rewrite Hint in Hrest. destruct Hrest as (Hnone & Hspeaking & Hcalls' & Hstates).
  exists w'. split.
  - unfold onmessage, mbind, Async_bind. rewrite Hret. exact Hret'.
  - split; [exact Hw'|]. split; [exact Hnone|]. split; [exact Hspeaking|]. split.
    + now rewrite Hcalls', Hcalls, Hcur.
    + intros s. now rewrite Hstates, Hsources.
Qed.

(** A model turn with no inline audio in its first part. *)
Lemma turn_without_audio ctx message modelTurn parts (w : World) :
  message_modelTurn message = Some modelTurn ->
  Inbound.parts modelTurn = Some parts ->
  truthy (first_inline_data parts) = None ->
  onmessage_modelTurn ctx message w =
    Returned (with_isLuminaThinking false (with_isLuminaSpeaking true w)) tt.
Proof.
  intros Hturn Hparts Hdata. unfold_async. rewrite Hturn. cbn.
  rewrite Hparts. cbn. rewrite Hdata. reflexivity.
Qed.

(** The two cases of [source.onended]. *)
Lemma onended_current (source : nat) (w : World) :
  currentAudioSourceRef w = Some source ->
  onended source w =
    Returned (with_currentAudioSourceRef None (with_isLuminaSpeaking false w)) tt.
Proof.
  intros Hcur. unfold_async. cbn. rewrite Hcur. now rewrite Nat.eqb_refl.
Qed.

Lemma onended_other (source : nat) (w : World) :
  currentAudioSourceRef w <> Some source -> onended source w = Returned w tt.
Proof.
  intros Hcur. unfold_async. cbn.
  destruct (currentAudioSourceRef w) as [c|]; [|reflexivity].
  destruct (Nat.eqb_spec c source); [congruence|reflexivity].
Qed.

(** ** Worlds reached by the event loop *)

Lemma reachable_consistent (evs : list Event) : consistent (world (run evs boot)).
Proof. apply (run_ok evs boot boot_ok). Qed.

Lemma source_in_state (st : SourceState) (s : nat) (w : World) :
  source_in st s w = true <-> state_at (sources w) s = Some st.
Proof.
  unfold source_in. destruct (state_at (sources w) s) as [st'|].
  - destruct st', st; cbn; split; congruence.
  - split; discriminate.
Qed.

Lemma source_not_in_state (st : SourceState) (s : nat) (w : World) :
  source_in st s w = false <-> state_at (sources w) s <> Some st.
Proof.
  rewrite <- source_in_state. destruct (source_in st s w); split; congruence.
Qed.

Lemma delete_last {A : Type} (l : list A) (x : A) : delete (length l) (l ++ [x]) = l.
Proof. rewrite delete_middle. apply app_nil_r. Qed.

(** ** [stopLiveVoice] and [startLiveVoice] run to their end *)

Lemma complete_returned {A : Type} (answers : list (option Exn)) (w : World) (a : A) :
  complete answers (Returned w a) = Returned w a.
Proof. destruct answers; reflexivity. Qed.

Lemma complete_thrown {A : Type} (answers : list (option Exn)) (w : World) (e : Exn) :
  complete (A := A) answers (Thrown w e) = Thrown w e.
Proof. destruct answers; reflexivity. Qed.

Ltac rw_eqns :=
  repeat match goal with
  | H : ?x = _ |- context [match ?x with _ => _ end] => rewrite H
  end.

Ltac stop_cases :=
  unfold stoppable, source_in, teardown_calls, open_context, sessionState in *;
  unfold stopLiveVoice; unfold_async; cbn;
  repeat (break_match; cbn in * ); simplify_eq/=.

(** When no call throws. *)
Lemma stop_completes (w : World) :
  stoppable w = true ->
  exists w',
    complete [None; None] (stopLiveVoice w) = Returned w' tt
    /\ calls w' = calls w ++ teardown_calls w
    /\ streams w' = streams w
    /\ console w' = console w
    /\ liveSessionRef w' = None
    /\ open_context w' = None
    /\ currentAudioSourceRef w' = None
    /\ isLiveActive w' = false
    /\ isLuminaSpeaking w' = false
    /\ isLuminaThinking w' = false.
Proof.
  intros Hstop. stop_cases.
  all: eexists; split; [reflexivity|]; cbn; rewrite <- ?app_assoc, ?app_nil_r.
  all: repeat split; rw_eqns; try reflexivity; try assumption.
Qed.

(** With nothing left to release. *)
Lemma stop_idle_noop (w : World) :
  liveSessionRef w = None -> open_context w = None -> currentAudioSourceRef w = None ->
  stopLiveVoice w =
    Returned (with_isLuminaThinking false
                (with_isLuminaSpeaking false (with_isLiveActive false w))) tt.
Proof.
  intros Hs Hc Hcur. stop_cases; reflexivity.
Qed.

Lemma flags_already_false (w : World) :
  isLiveActive w = false -> isLuminaSpeaking w = false -> isLuminaThinking w = false ->
  with_isLuminaThinking false (with_isLuminaSpeaking false (with_isLiveActive false w)) = w.
Proof. destruct w; cbn; intros -> -> ->; reflexivity. Qed.

Lemma idle_flags (w : World) : isLiveActive w = false -> sessionState w = Idle.
Proof. intros Hlive. unfold sessionState. now rewrite Hlive. Qed.

(** When a close call throws. *)
Lemma stop_session_close_throws (w : World) (s : nat) (e : Exn) :
  liveSessionRef w = Some s ->
  forall answers,
    complete (Some e :: answers) (stopLiveVoice w) =
      Thrown (log_call (call_session_close s) w) e.
Proof.
  intros Hs answers. unfold stopLiveVoice. unfold_async. cbn. rewrite Hs. cbn.
  apply complete_thrown.
Qed.

Lemma stop_context_close_throws (w : World) (c : nat) (e : Exn) :
  open_context w = Some c ->
  forall answers,
    exists w',
      complete (match liveSessionRef w with Some _ => [None] | None => [] end
                ++ Some e :: answers) (stopLiveVoice w) = Thrown w' e
      /\ calls w' =
           calls w
           ++ match liveSessionRef w with Some s => [call_session_close s] | None => [] end
           ++ [call_context_close c]
      /\ sources w' = sources w
      /\ contexts w' = contexts w
      /\ currentAudioSourceRef w' = currentAudioSourceRef w
      /\ audioContextRef w' = audioContextRef w
      /\ isLiveActive w' = isLiveActive w
      /\ isLuminaSpeaking w' = isLuminaSpeaking w
      /\ isLuminaThinking w' = isLuminaThinking w.
Proof.
  intros Hc answers. unfold open_context in Hc. unfold stopLiveVoice. unfold_async. cbn.
  destruct (audioContextRef w) as [c'|] eqn:Hctx; [|discriminate].
  destruct (match contexts w !! c' with Some closed => false | _ => true end) eqn:Hopen;
    [|discriminate].
  simplify_eq.
  destruct (liveSessionRef w) as [s|]; cbn; rewrite ?Hctx; cbn; rewrite ?Hopen; cbn;
    rewrite complete_thrown; eexists; (split; [reflexivity|]); cbn;
    rewrite <- ?app_assoc; repeat split; rewrite ?Hctx; reflexivity.
Qed.


Lemma stop_calls (w : World) (answers : list (option Exn)) :
  exists added,
    calls (world_of (complete answers (stopLiveVoice w))) = calls w ++ added
    /\ existsb is_connect added = false.
Proof.
  destruct answers as [|[e1|] [|[e2|] rest]];
    unfold stopLiveVoice; unfold_async; cbn;
    repeat (break_match; cbn); rewrite ?complete_returned, ?complete_thrown; cbn;
    rewrite <- ?app_assoc;
    first [ eexists; split; [reflexivity|reflexivity]
          | exists []; split; [now rewrite app_nil_r|reflexivity] ].
Qed.

Lemma stop_console (w : World) (answers : list (option Exn)) :
  console (world_of (complete answers (stopLiveVoice w))) = console w.
Proof.
  destruct answers as [|[e1|] [|[e2|] rest]];
    unfold stopLiveVoice; unfold_async; cbn;
    repeat (break_match; cbn); rewrite ?complete_returned, ?complete_thrown; cbn;
    reflexivity.
Qed.

Lemma stop_sessions (w : World) (answers : list (option Exn)) :
  length (sessions (world_of (complete answers (stopLiveVoice w)))) = length (sessions w).
Proof.
  destruct answers as [|[e1|] [|[e2|] rest]];
    unfold stopLiveVoice; unfold_async; cbn;
    repeat (break_match; cbn); rewrite ?complete_returned, ?complete_thrown; cbn;
    rewrite ?length_insert; reflexivity.
Qed.

(** [startLiveVoice] up to its first await, and its [catch] block. *)
Lemma start_suspends (w : World) :
  exists k, startLiveVoice w = Awaiting (awaiting_microphone w) getUserMedia k
    /\ forall e w', k (Rejected e) w' = stopLiveVoice (with_console (console w' ++ [e]) w').
Proof.
  unfold startLiveVoice. unfold_async. cbn. eexists. split; reflexivity.
Qed.

(** ** Playback *)

(** C1. At every instant at most one playback handle is started and not
    stopped, whatever the interleaving of clicks, transport events, decode
    completions, natural ends and [ended] dispatches; and when the decode of
    a chunk completes while a previous handle is still playing, the handler
    stops that handle before it starts the new one. *)
Theorem one_handle_at_a_time :
  (forall evs : list Event, (active_handles (world (run evs boot)) <= 1)%nat)
  /\ (forall ctx message base64Audio audioData (w : World),
        message_audio message = Some base64Audio ->
        Base64.atob base64Audio = Some audioData ->
        exists k,
          onmessage ctx message w =
            Awaiting (log_call (call_decodeAudioData ctx)
                        (with_isLuminaThinking false (with_isLuminaSpeaking true w)))
                     (decodeAudioData ctx audioData) k
          /\ forall (evs : list Event) (audioBuffer : AudioBuffer) (previous : nat),
               let w' := world (run evs boot) in
               let fresh := length (sources w') in
               source_in Playing previous w' = true ->
               exists w'',
                 k (Resolved audioBuffer) w' = Returned w'' tt
                 /\ source_in Ended previous w'' = true
                 /\ calls w'' =
                      calls w'
                      ++ [call_source_stop previous; call_source_start fresh]
                      ++ (if message_interrupted message
                          then [call_source_stop fresh] else [])
                 /\ source_in Playing fresh w'' = negb (message_interrupted message)
                 /\ (active_handles w'' <= 1)%nat).
Proof.
  split.
  - intros evs. apply consistent_one_voice, reachable_consistent.
  - intros ctx message base64Audio audioData w Haudio Hatob.
    destruct (chunk_suspends ctx message base64Audio audioData w Haudio Hatob)
      as (k & Hk & _ & Hresume).
    exists k. split; [exact Hk|].
    intros evs audioBuffer previous w' fresh Hplaying.
    pose proof (reachable_consistent evs) as Hw'. fold w' in Hw'.
    destruct (Hresume audioBuffer w' Hw')
      as (w'' & Hret & Hw'' & Hcalls & Hcur & Hfresh & Hothers).
    apply source_in_state in Hplaying.
    assert (Hprev : currentAudioSourceRef w' = Some previous)
      by (destruct Hw' as [Hplay _]; now apply Hplay).
    assert (Hne : previous <> fresh).
    { apply state_at_lt in Hplaying. unfold fresh. lia. }
    exists w''. split; [exact Hret|]. split; [|split; [|split]].
    + apply source_in_state. rewrite (Hothers previous Hne), Hplaying. reflexivity.
    + rewrite Hcalls, Hprev. reflexivity.
    + fold fresh in Hfresh. destruct (message_interrupted message); cbn.
      * apply source_not_in_state. rewrite Hfresh. discriminate.
      * apply source_in_state. exact Hfresh.
    + now apply consistent_one_voice.
Qed.

Lemma one_handle_at_a_time_witness :
  (active_handles (world (run playing_session boot)) <= 1)%nat
  /\ exists k w'',
       onmessage 0 (chunk "TWFu" false) (world (run playing_session boot)) =
         Awaiting (log_call (call_decodeAudioData 0)
                     (with_isLuminaThinking false
                        (with_isLuminaSpeaking true (world (run playing_session boot)))))
                  (decodeAudioData 0 [77; 97; 110]%Z) k
       /\ k (Resolved {| decodedFrom := [77; 97; 110]%Z |}) (world (run playing_session boot))
          = Returned w'' tt
       /\ source_in Ended 0 w'' = true
       /\ source_in Playing 1 w'' = true.
Proof.
  destruct one_handle_at_a_time as [Hone Hchunk].
  split; [apply Hone|].
  destruct (Hchunk 0%nat (chunk "TWFu" false) "TWFu"%string [77; 97; 110]%Z
              (world (run playing_session boot)) eq_refl eq_refl)
    as (k & Hk & Hresume).
  destruct (Hresume playing_session {| decodedFrom := [77; 97; 110]%Z |} 0%nat eq_refl)
    as (w'' & Hret & Hended & _ & Hplaying & _).
  exists k, w''. repeat split; assumption.
Defined.

(** C9. The completion callback of a handle clears the current-handle
    reference and the Speaking flag exactly when that handle is still the
    current one, and otherwise changes nothing; in particular, once a newer
    chunk has taken the place of a handle, the callback of the superseded
    handle leaves the newer handle's reference in place. *)
Theorem onended_clears_only_its_own_reference :
  (forall (source : nat) (w : World),
      currentAudioSourceRef w = Some source ->
      onended source w =
        Returned (with_currentAudioSourceRef None (with_isLuminaSpeaking false w)) tt)
  /\ (forall (source : nat) (w : World),
        currentAudioSourceRef w <> Some source ->
        onended source w = Returned w tt)
  /\ (forall ctx message base64Audio audioData (w : World),
        message_audio message = Some base64Audio ->
        Base64.atob base64Audio = Some audioData ->
        message_interrupted message = false ->
        exists k,
          onmessage ctx message w =
            Awaiting (log_call (call_decodeAudioData ctx)
                        (with_isLuminaThinking false (with_isLuminaSpeaking true w)))
                     (decodeAudioData ctx audioData) k
          /\ forall (evs : list Event) (audioBuffer : AudioBuffer) (previous : nat),
               let w' := world (run evs boot) in
               currentAudioSourceRef w' = Some previous ->
               exists w'',
                 k (Resolved audioBuffer) w' = Returned w'' tt
                 /\ currentAudioSourceRef w'' = Some (length (sources w'))
                 /\ previous <> length (sources w')
                 /\ onended previous w'' = Returned w'' tt).
Proof.
  split; [exact onended_current|]. split; [exact onended_other|].
  intros ctx message base64Audio audioData w Haudio Hatob Hint.
  destruct (chunk_suspends ctx message base64Audio audioData w Haudio Hatob)
    as (k & Hk & _ & Hresume).
  exists k. split; [exact Hk|].
  intros evs audioBuffer previous w' Hprev.
  pose proof (reachable_consistent evs) as Hw'. fold w' in Hw'.
  destruct (Hresume audioBuffer w' Hw') as (w'' & Hret & _ & _ & Hcur & _).
  rewrite Hint in Hcur.
  assert (Hne : previous <> length (sources w')).
  { destruct Hw' as [_ Hexists]. destruct (Hexists previous Hprev) as (st & Hst & _).
    apply state_at_lt in Hst. lia. }
  exists w''. repeat split; try assumption.
  apply onended_other. rewrite Hcur. congruence.
Qed.

Lemma onended_clears_only_its_own_reference_witness :
  exists k w'',
    onmessage 0 (chunk "TWFu" false) (world (run playing_session boot)) =
      Awaiting (log_call (call_decodeAudioData 0)
                  (with_isLuminaThinking false
                     (with_isLuminaSpeaking true (world (run playing_session boot)))))
               (decodeAudioData 0 [77; 97; 110]) k
    /\ k (Resolved {| decodedFrom := [77; 97; 110] |}) (world (run playing_session boot))
       = Returned w'' tt
    /\ currentAudioSourceRef w'' = Some 1%nat
    /\ onended 0 w'' = Returned w'' tt.
Proof.
  destruct onended_clears_only_its_own_reference as (_ & _ & Hsuperseded).
  destruct (Hsuperseded 0%nat (chunk "TWFu" false) "TWFu"%string [77; 97; 110]
              (world (run playing_session boot)) eq_refl eq_refl eq_refl)
    as (k & Hk & Hresume).
  destruct (Hresume playing_session {| decodedFrom := [77; 97; 110] |} 0%nat eq_refl)
    as (w'' & Hret & Hcur & _ & Hended).
  exists k, w''. repeat split; assumption.
Defined.

(** C2. An Interrupted event, a message that carries the interrupted flag
    and no audio chunk (no model turn, or a model turn whose first part has
    no inline audio), is handled within the tick in which it arrives,
    whatever the state the event loop has reached: the handler stops the
    current handle, clears the reference and the Speaking flag, suspends on
    nothing and throws nothing, and no handle is playing afterwards. *)
Theorem interrupted_without_audio_stops_at_once
    (evs : list Event) (ctx : nat) (message : Inbound.Message) :
  message_interrupted message = true ->
  message_audio message = None ->
  has_parts message = true ->
  let l := run evs boot in
  let l' := fire (transport_message ctx message) l in
  pending l' = pending l
  /\ unhandled l' = unhandled l
  /\ currentAudioSourceRef (world l') = None
  /\ isLuminaSpeaking (world l') = false
  /\ active_handles (world l') = 0%nat
  /\ (forall s, currentAudioSourceRef (world l) = Some s ->
        calls (world l') = calls (world l) ++ [call_source_stop s]
        /\ source_in Playing s (world l') = false).
Proof.
  intros Hint Haudio Hparts l l'.
  pose proof (reachable_consistent evs) as Hw. fold l in Hw.
  destruct (interrupted_now ctx message (world l) Hw Hint Haudio Hparts)
    as (w' & Hret & Hw' & Hcur & Hspeaking & Hcalls & Hstates).
  unfold l', fire. rewrite Hret. cbn.
  split; [reflexivity|]. split; [reflexivity|]. split; [exact Hcur|].
  split; [exact Hspeaking|]. split; [now apply consistent_silent|].
  intros s Hs. split.
  - rewrite Hcalls, Hs. reflexivity.
  - apply source_not_in_state. rewrite Hstates.
    destruct (state_at (sources (world l)) s) as [[| | |]|]; discriminate.
Qed.

Lemma interrupted_without_audio_stops_at_once_witness :
  source_in Playing 0 (world (run playing_session boot)) = true
  /\ currentAudioSourceRef
       (world (fire (transport_message 0 interruption) (run playing_session boot))) = None
  /\ active_handles
       (world (fire (transport_message 0 interruption) (run playing_session boot))) = 0%nat.
Proof.
  split; [reflexivity|].
  destruct (interrupted_without_audio_stops_at_once playing_session 0 interruption
              eq_refl eq_refl eq_refl) as (_ & _ & Hcur & _ & Hsilent & _).
  split; assumption.
Defined.

(** A message that carries both an audio chunk and the interrupted flag is
    neither of the two events of the data model, a chunk or an interruption.
    The handler suspends on its decode before it looks at the flag, so the
    handle that was playing is still playing and still current when the tick
    ends; and if the decode then fails, the flag is never acted upon. *)
Lemma interrupted_with_audio_waits_for_decode :
  let l := run playing_session boot in
  let l1 := fire (transport_message 0 (chunk "TWFu" true)) l in
  let l2 := fire (settled 0 (Some (DOMException "EncodingError"))) l1 in
  message_interrupted (chunk "TWFu" true) = true
  /\ source_in Playing 0 (world l) = true
  /\ currentAudioSourceRef (world l) = Some 0%nat
  /\ source_in Playing 0 (world l1) = true
  /\ currentAudioSourceRef (world l1) <> None
  /\ active_handles (world l1) = 1%nat
  /\ source_in Playing 0 (world l2) = true
  /\ currentAudioSourceRef (world l2) <> None
  /\ active_handles (world l2) = 1%nat.
Proof. vm_compute. repeat split; discriminate. Qed.

(** C10. A model-turn message whose first part carries no inline audio
    still makes the handler set the Speaking flag and clear the Thinking
    flag, while no playback handle is created; unless the same message is
    also flagged interrupted, the handler ends in that state, so the overlay
    reports Speaking although nothing is playing. *)
Theorem turn_without_audio_reports_speaking
    (ctx : nat) (message : Inbound.Message) (modelTurn : Inbound.Content)
    (parts : list Inbound.Part) (w : World) :
  message_modelTurn message = Some modelTurn ->
  Inbound.parts modelTurn = Some parts ->
  truthy (first_inline_data parts) = None ->
  let w1 := with_isLuminaThinking false (with_isLuminaSpeaking true w) in
  onmessage_modelTurn ctx message w = Returned w1 tt
  /\ isLuminaSpeaking w1 = true
  /\ isLuminaThinking w1 = false
  /\ sources w1 = sources w
  /\ calls w1 = calls w
  /\ onmessage ctx message w = onmessage_interrupted message w1
  /\ (message_interrupted message = false ->
        onmessage ctx message w = Returned w1 tt
        /\ (isLiveActive w = true -> sessionState w1 = Speaking)
        /\ active_handles w1 = active_handles w).
Proof.
  intros Hturn Hparts Hdata w1.
  pose proof (turn_without_audio ctx message modelTurn parts w Hturn Hparts Hdata) as Hblock.
  fold w1 in Hblock.
  assert (Hwhole : onmessage ctx message w = onmessage_interrupted message w1).
  { unfold onmessage. unfold mbind at 1. unfold Async_bind. rewrite Hblock. reflexivity. }
  split; [exact Hblock|]. repeat (split; [reflexivity|]).
  split; [exact Hwhole|].
  intros Hint. split; [|split].
  - rewrite Hwhole. unfold onmessage_interrupted. rewrite Hint. reflexivity.
  - intros Hlive. unfold sessionState. cbn. now rewrite Hlive.
  - reflexivity.
Qed.

Lemma turn_without_audio_reports_speaking_witness :
  let w := world (run opened_session boot) in
  let w' := world (fire (transport_message 0 (text_turn false)) (run opened_session boot)) in
  sessionState w = Listening
  /\ sessionState w' = Speaking
  /\ active_handles w' = 0%nat
  /\ sources w' = [].
Proof.
  intros w w'.
  destruct (turn_without_audio_reports_speaking 0 (text_turn false)
              {| Inbound.parts := Some [ {| Inbound.inlineData := None |} ] |}
              [ {| Inbound.inlineData := None |} ] w eq_refl eq_refl eq_refl)
    as (_ & _ & _ & _ & _ & _ & Hplain).
  destruct (Hplain eq_refl) as (Hret & Hstate & Hactive).
  assert (Hw' : w' = with_isLuminaThinking false (with_isLuminaSpeaking true w)).
  { unfold w', fire. fold w. rewrite Hret. reflexivity. }
  split; [reflexivity|]. split; [|split].
  - rewrite Hw'. apply Hstate. reflexivity.
  - rewrite Hw', Hactive. reflexivity.
  - rewrite Hw'. reflexivity.
Defined.

(** C8, as the code has it.  When the payload of an audio chunk fails to
    decode, whether [atob] throws or [decodeAudioData] rejects, the handler
    ends there with the exception uncaught: the chunk is dropped (no handle
    is created, the current handle is untouched) and the session continues
    (no teardown call is made, nothing is closed), but the handler itself
    logs nothing, and the rest of the message, its interrupted flag
    included, is not looked at. *)
Theorem decode_failure_drops_the_chunk
    (ctx : nat) (message : Inbound.Message) (base64Audio : string) (l : Loop) :
  message_audio message = Some base64Audio ->
  let w1 := with_isLuminaThinking false (with_isLuminaSpeaking true (world l)) in
  let l1 := fire (transport_message ctx message) l in
  (Base64.atob base64Audio = None ->
     world l1 = w1
     /\ pending l1 = pending l
     /\ unhandled l1 = unhandled l ++ [DOMException "InvalidCharacterError"])
  /\ (forall audioData e,
        Base64.atob base64Audio = Some audioData ->
        let l2 := fire (settled (length (pending l)) (Some e)) l1 in
        world l1 = log_call (call_decodeAudioData ctx) w1
        /\ world l2 = world l1
        /\ pending l2 = pending l
        /\ unhandled l2 = unhandled l ++ [e]
        /\ console (world l2) = console (world l)
        /\ sources (world l2) = sources (world l)
        /\ currentAudioSourceRef (world l2) = currentAudioSourceRef (world l)
        /\ liveSessionRef (world l2) = liveSessionRef (world l)
        /\ isLiveActive (world l2) = isLiveActive (world l)).
Proof.
  intros Haudio w1 l1. split.
  - intros Hatob. unfold l1, fire.
    unfold message_audio in Haudio. unfold_async.
    destruct (message_modelTurn message) as [modelTurn|]; [|discriminate].
    destruct (Inbound.parts modelTurn) as [parts|]; [|discriminate].
    cbn. rewrite Haudio. cbn. rewrite Hatob. cbn. repeat split; reflexivity.
  - intros audioData e Hatob l2.
    destruct (chunk_suspends ctx message base64Audio audioData (world l) Haudio Hatob)
      as (k & Hk & Hreject & _).
    assert (Hl1 : l1 = {| world := log_call (call_decodeAudioData ctx) w1;
                          pending := pending l ++ [Susp (decodeAudioData ctx audioData) k];
                          unhandled := unhandled l |}).
    { unfold l1, fire. rewrite Hk. reflexivity. }
    assert (Hl2 : l2 = {| world := log_call (call_decodeAudioData ctx) w1;
                          pending := pending l;
                          unhandled := unhandled l ++ [e] |}).
    { unfold l2, fire. rewrite Hl1. cbn [pending world unhandled].
      rewrite list_lookup_middle by reflexivity.
      cbn [settle]. rewrite Hreject. cbn [enter world pending unhandled].
      now rewrite delete_last. }
    rewrite Hl2, Hl1. repeat split; reflexivity.
Qed.

Lemma decode_failure_drops_the_chunk_witness :
  let l := run playing_session boot in
  let l1 := fire (transport_message 0 (chunk "TWFu" false)) l in
  let l2 := fire (settled 0 (Some (DOMException "EncodingError"))) l1 in
  world l2 = world l1
  /\ unhandled l2 = [DOMException "EncodingError"]
  /\ console (world l2) = []
  /\ active_handles (world l2) = 1%nat.
Proof.
  intros l l1 l2.
  destruct (decode_failure_drops_the_chunk 0 (chunk "TWFu" false) "TWFu"%string l eq_refl)
    as (_ & Hdecode).
  destruct (Hdecode [77; 97; 110] (DOMException "EncodingError") eq_refl)
    as (_ & Hsame & _ & Hunhandled & Hconsole & _).
  split; [exact Hsame|]. split; [exact Hunhandled|]. split; [exact Hconsole|].
  reflexivity.
Defined.

(** The failure of a decode leaves nothing on the console: the rejection
    stays an unhandled rejection of the handler's promise. *)
Lemma decode_failure_is_not_logged :
  let l := run opened_session boot in
  let l1 := fire (transport_message 0 (chunk "TWFu" false)) l in
  let l2 := fire (settled 0 (Some (DOMException "EncodingError"))) l1 in
  let l3 := fire (transport_message 0 (chunk "@@@@" false)) l2 in
  console (world l2) = []
  /\ unhandled l2 = [DOMException "EncodingError"]
  /\ console (world l3) = []
  /\ unhandled l3 = [DOMException "EncodingError"; DOMException "InvalidCharacterError"]
  /\ console (world l3) <> unhandled l3
  /\ sessionState (world l3) = Speaking
  /\ active_handles (world l3) = 0%nat.
Proof. vm_compute. repeat split. discriminate. Qed.

(** ** Invariants carried through the event loop

    A property of the world that every handler maintains, from its start and
    whenever it is resumed, holds after every run of the loop. *)

Ltac maintains_step :=
  lazymatch goal with
  | |- Maintains _ _ (Returned _ _) => apply maintains_returned
  | |- Maintains _ _ (Thrown _ _) => apply maintains_thrown
  | |- Maintains _ _ (Awaiting _ _ _) =>
      apply maintains_awaiting;
      [| | let w0 := fresh "w0" in
           let Hw0 := fresh "Hw0" in
           intros [?|] w0 Hw0; cbn]
  | |- Maintains _ _ _ => break_match; cbn
  end.

Section Loops.

Variable I : World -> Prop.
Variable allowed : Call -> Prop.

Hypothesis start_ok : forall w, I w -> Maintains I allowed (startLiveVoice w).
Hypothesis stop_ok : forall w, I w -> Maintains I allowed (stopLiveVoice w).
Hypothesis open_ok : forall w, I w -> Maintains I allowed (onopen w).
Hypothesis message_ok : forall ctx m w, I w -> Maintains I allowed (onmessage ctx m w).
Hypothesis ended_ok : forall src w, I w -> Maintains I allowed (onended src w).
Hypothesis mark_ok : forall src st w, I w -> I (mark src st w).

Lemma enter_maintains (o : Outcome unit) (l : Loop) :
  Maintains I allowed o ->
  Forall (suspended_maintains I allowed) (pending l) ->
  loop_maintains I allowed (enter o l).
Proof.
  intros Ho Hp. destruct Ho; cbn; split; cbn; try assumption.
  apply list.Forall_app. split; [assumption|]. apply Forall_singleton. split; assumption.
Qed.

Lemma fire_maintains (ev : Event) (l : Loop) :
  loop_maintains I allowed l -> loop_maintains I allowed (fire ev l).
Proof.
  intros [Hw Hp].
  destruct ev as [| | |ctx m|i failure|src|src]; unfold fire.
  - apply enter_maintains; [now apply start_ok|assumption].
  - apply enter_maintains; [now apply stop_ok|assumption].
  - apply enter_maintains; [now apply open_ok|assumption].
  - apply enter_maintains; [now apply message_ok|assumption].
  - destruct (pending l !! i) as [[T r k]|] eqn:Hi; [|split; assumption].
    pose proof (Forall_lookup_1 _ _ _ _ Hp Hi) as [_ Hk].
    specialize (Hk failure (world l) Hw).
    destruct (settle r failure (world l)) as [w1 res]. cbn in Hk.
    apply enter_maintains; [exact Hk|]. cbn. now apply Forall_delete.
  - destruct (source_in Playing src (world l)); [|split; assumption].
    split; [now apply mark_ok|assumption].
  - destruct (source_in Ended src (world l)); [|split; assumption].
    apply enter_maintains; [|assumption].
    now apply ended_ok, mark_ok.
Qed.

Lemma run_maintains (evs : list Event) (l : Loop) :
  loop_maintains I allowed l -> loop_maintains I allowed (run evs l).
Proof.
  revert l. induction evs as [|ev evs IH]; intros l Hl; [exact Hl|].
  cbn. apply IH, fire_maintains, Hl.
Qed.

End Loops.

(** ** Session life cycle *)

(** C4, as the code has it.  The teardown closes the transport first, then
    the audio context unless it is already closed, then stops the current
    playback handle, and then resets the three flags; it makes no call that
    releases the microphone stream.  The steps are not guarded one by one:
    when a close call throws, the teardown ends there, and the later steps,
    the reset of the flags included, are not attempted. *)
Theorem teardown_sequence (w : World) :
  (stoppable w = true ->
     exists w',
       complete [None; None] (stopLiveVoice w) = Returned w' tt
       /\ calls w' = calls w ++ teardown_calls w
       /\ streams w' = streams w
       /\ liveSessionRef w' = None
       /\ open_context w' = None
       /\ currentAudioSourceRef w' = None
       /\ sessionState w' = Idle)
  /\ (forall s e answers,
        liveSessionRef w = Some s ->
        complete (Some e :: answers) (stopLiveVoice w) =
          Thrown (log_call (call_session_close s) w) e)
  /\ (forall c e answers,
        open_context w = Some c ->
        exists w',
          complete (match liveSessionRef w with Some _ => [None] | None => [] end
                    ++ Some e :: answers) (stopLiveVoice w) = Thrown w' e
          /\ calls w' =
               calls w
               ++ match liveSessionRef w with
                  | Some s => [call_session_close s]
                  | None => []
                  end
               ++ [call_context_close c]
          /\ sources w' = sources w
          /\ currentAudioSourceRef w' = currentAudioSourceRef w
          /\ audioContextRef w' = audioContextRef w
          /\ isLiveActive w' = isLiveActive w
          /\ isLuminaSpeaking w' = isLuminaSpeaking w
          /\ isLuminaThinking w' = isLuminaThinking w).
Proof.
  split; [|split].
  - intros Hstop.
    destruct (stop_completes w Hstop)
      as (w' & Hret & Hcalls & Hstreams & _ & Hsession & Hctx & Hcur & Hlive & _).
    exists w'. repeat split; try assumption. now apply idle_flags.
  - intros s e answers Hs. now apply stop_session_close_throws.
  - intros c e answers Hc.
    destruct (stop_context_close_throws w c e Hc answers)
      as (w' & Hret & Hcalls & Hsources & _ & Hcur & Hctx & Hlive & Hspeaking & Hthinking).
    exists w'. repeat split; assumption.
Qed.

Lemma teardown_sequence_witness :
  let w := world (run playing_session boot) in
  exists w',
    complete [None; None] (stopLiveVoice w) = Returned w' tt
    /\ calls w' = calls w ++ [call_session_close 0; call_context_close 0; call_source_stop 0]
    /\ streams w' = [StreamLive]
    /\ sessionState w' = Idle.
Proof.
  intros w.
  destruct (teardown_sequence w) as (Hall & _ & _).
  destruct (Hall eq_refl) as (w' & Hret & Hcalls & Hstreams & _ & _ & _ & Hidle).
  exists w'. split; [exact Hret|]. split; [exact Hcalls|]. split; [exact Hstreams|].
  exact Hidle.
Defined.

(** With a session, an audio context, a playing handle and a live
    microphone stream: the transport is closed before the handle is stopped,
    nothing releases the microphone, and a close call that throws leaves the
    context open, the handle playing and the overlay up. *)
Lemma teardown_order_and_short_circuit :
  let w := world (run playing_session boot) in
  let done := world_of (complete [None; None] (stopLiveVoice w)) in
  let failed := complete [Some (DOMException "NetworkError"); None] (stopLiveVoice w) in
  calls done = calls w ++ [call_session_close 0; call_context_close 0; call_source_stop 0]
  /\ calls done <> calls w ++ [call_source_stop 0; call_session_close 0; call_context_close 0]
  /\ streams done = [StreamLive]
  /\ returned failed = false
  /\ calls (world_of failed) = calls w ++ [call_session_close 0]
  /\ contexts (world_of failed) = [running]
  /\ source_in Playing 0 (world_of failed) = true
  /\ sessionState (world_of failed) = Speaking.
Proof. vm_compute. repeat split. discriminate. Qed.

(** In the worlds the event loop reaches the current handle can be
    stopped. *)
Lemma consistent_stoppable (w : World) : consistent w -> stoppable w = true.
Proof.
  intros [_ Hcur]. unfold stoppable, source_in.
  destruct (currentAudioSourceRef w) as [s|]; [|reflexivity].
  destruct (Hcur s eq_refl) as (st & -> & Hst).
  destruct st; try reflexivity. congruence.
Qed.

(** Teardowns that overlap: each stop is tracked up to its end, whatever
    the order in which the close calls of several stops resolve. *)

Section Teardowns.

Variable mics : list StreamStatus.

Ltac tears_step :=
  lazymatch goal with
  | |- Tears _ _ _ (Returned _ _) => apply tears_returned
  | |- Tears _ _ _ (Awaiting _ _ _) =>
      apply tears_awaiting;
      [| | reflexivity
       | let w1 := fresh "w1" in
         let Hw1 := fresh "Hw1" in
         let Hf := fresh "Hf" in
         intros w1 Hw1 Hf; cbn]
  | |- Tears _ _ _ _ => break_match; cbn
  end.

Ltac tears_facts :=
  unfold calm, fades, torn_down, stoppable, source_in, open_context, context_not_closed in *;
  cbn in *;
  repeat match goal with H : _ /\ _ |- _ => destruct H end.

Ltac rw_hyps :=
  repeat match goal with
  | H : ?x = _, H' : context [match ?x with _ => _ end] |- _ => rewrite H in H'; cbn in H'
  end.

Lemma stopLiveVoice_tears (w : World) : calm mics w -> Tears mics 2 w (stopLiveVoice w).
Proof.
  intros Hw. unfold stopLiveVoice. unfold_async. cbn.
  repeat tears_step.
  all: tears_facts; rw_hyps.
  all: try discriminate.
  all: repeat split; rw_eqns; cbn; auto; congruence.
Qed.

Lemma settle_close_calm {T : Type} (r : Request T) (w : World) :
  is_close (call_of r) = true ->
  calm mics w -> calm mics (settle r None w).1 /\ fades w (settle r None w).1.
Proof.
  intros Hr Hw. destruct r; try discriminate; (split; [exact Hw|intros H; exact H]).
Qed.

Lemma suspended_tears_fades (w w' : World) (n : nat) (x : Suspended) :
  fades w w' -> suspended_tears mics w n x -> suspended_tears mics w' n x.
Proof.
  intros Hf. destruct x as [T r k]. intros [Hr Hk]. split; [exact Hr|].
  intros w1 Hw1 Hf1. apply Hk; [exact Hw1|]. intros H. apply Hf1, Hf, H.
Qed.

Lemma sum_delete (ns : list nat) (i n : nat) :
  ns !! i = Some n -> (sum_list_with S (delete i ns) + S n = sum_list_with S ns)%nat.
Proof.
  revert i. induction ns as [|m ns IH]; intros [|i] Hi; try discriminate; simpl in *.
  - injection Hi as ->. lia.
  - specialize (IH i Hi). lia.
Qed.

(** A teardown enters the loop: what it still owes is added to the debt. *)
Lemma enter_tears (n debt : nat) (o : Outcome unit) (l : Loop) (ns : list nat) :
  Tears mics n (world l) o ->
  Forall2 (suspended_tears mics (world l)) ns (pending l) ->
  (sum_list_with S ns + n <= debt)%nat ->
  tearing mics debt (enter o l) /\ unhandled (enter o l) = unhandled l.
Proof.
  intros Ho Hp Hsum. destruct Ho as [n w0 w a Hw Hf Hdown|n w0 w T r k Hw Hf Hr Hk]; cbn.
  - split; [|reflexivity]. split; [exact Hw|]. split; [intros _; exact Hdown|].
    exists ns. split; [|lia].
    eapply Forall2_impl; [|exact Hp]. intros m x. now apply suspended_tears_fades.
  - split; [|reflexivity]. split; [exact Hw|]. split.
    + intros Hnil. now apply app_eq_nil in Hnil as [_ ?].
    + exists (ns ++ [n]). split.
      * apply Forall2_app.
        -- eapply Forall2_impl; [|exact Hp]. intros m x. now apply suspended_tears_fades.
        -- constructor; [|constructor]. split; assumption.
      * rewrite sum_list_with_app. cbn. lia.
Qed.

Lemma click_stop_tearing (debt : nat) (l : Loop) :
  tearing mics debt l ->
  tearing mics (debt + 2) (fire click_stop l)
  /\ unhandled (fire click_stop l) = unhandled l.
Proof.
  intros (Hw & _ & ns & Hp & Hsum). unfold fire.
  apply (enter_tears 2 (debt + 2) _ l ns); [now apply stopLiveVoice_tears|exact Hp|lia].
Qed.

Lemma answer_tearing (debt i : nat) (l : Loop) :
  tearing mics debt l ->
  tearing mics (match pending l !! i with Some _ => debt - 1 | None => debt end) (fire (settled i None) l)
  /\ unhandled (fire (settled i None) l) = unhandled l.
Proof.
  intros (Hw & Hdown & ns & Hp & Hsum). unfold fire.
  destruct (pending l !! i) as [[T r k]|] eqn:Hi.
  - destruct (Forall2_lookup_r _ _ _ _ _ Hp Hi) as (n & Hn & Hr & Hk).
    destruct (settle_close_calm r (world l) Hr Hw) as [Hw1 Hf1].
    specialize (Hk (world l) Hw (fun H => H)).
    destruct (settle r None (world l)) as [w1 res]. cbn in Hw1, Hf1, Hk.
    pose proof (sum_delete ns i n Hn) as Hdel.
    apply (enter_tears n (debt - 1) _
             {| world := w1; pending := delete i (pending l); unhandled := unhandled l |}
             (delete i ns)); cbn.
    + exact Hk.
    + apply Forall2_delete. eapply Forall2_impl; [|exact Hp].
      intros m x. now apply suspended_tears_fades.
    + lia.
  - split; [|reflexivity]. split; [exact Hw|]. split; [exact Hdown|]. now exists ns.
Qed.

Lemma tearing_weaken (debt debt' : nat) (l : Loop) :
  (debt <= debt')%nat -> tearing mics debt l -> tearing mics debt' l.
Proof.
  intros Hle (Hw & Hdown & ns & Hp & Hsum).
  split; [exact Hw|]. split; [exact Hdown|]. exists ns. split; [exact Hp|lia].
Qed.

(** Stops and resolved close calls, in any order. *)
Lemma run_tearing (evs : list Event) (debt : nat) (l : Loop) :
  forallb stop_or_answer evs = true ->
  tearing mics debt l ->
  tearing mics (debt + 2 * length evs) (run evs l)
  /\ unhandled (run evs l) = unhandled l.
Proof.
  revert debt l. induction evs as [|ev evs IH]; intros debt l Hevs Hl.
  - cbn. split; [|reflexivity]. eapply tearing_weaken; [|exact Hl]. lia.
  - cbn [forallb] in Hevs. apply andb_prop in Hevs as [Hev Hevs].
    change (run (ev :: evs) l) with (run evs (fire ev l)).
    destruct ev as [| | | |i [e|]| |]; try discriminate.
    + destruct (click_stop_tearing debt l Hl) as [Hl' Hu].
      destruct (IH _ _ Hevs Hl') as [Hl'' Hu'].
      split; [|congruence]. eapply tearing_weaken; [|exact Hl'']. cbn [length]. lia.
    + destruct (answer_tearing debt i l Hl) as [Hl' Hu].
      assert (Hl1 : tearing mics debt (fire (settled i None) l)).
      { eapply tearing_weaken; [|exact Hl']. destruct (pending l !! i); lia. }
      destruct (IH _ _ Hevs Hl1) as [Hl'' Hu'].
      split; [|congruence]. eapply tearing_weaken; [|exact Hl'']. cbn [length]. lia.
Qed.

(** The close calls in flight resolve one after the other: nothing is left
    pending. *)
Lemma drain (debt : nat) (l : Loop) :
  tearing mics debt l -> pending (run (repeat (settled 0 None) debt) l) = [].
Proof.
  revert l. induction debt as [|debt IH]; intros l Hl.
  - destruct Hl as (_ & _ & ns & Hp & Hsum). cbn.
    destruct ns as [|n ns]; [|cbn in Hsum; lia].
    now apply Forall2_nil_inv_l in Hp.
  - cbn [repeat]. change (run (?ev :: ?evs) l) with (run evs (fire ev l)).
    destruct (answer_tearing (S debt) 0 l Hl) as [Hl' _].
    destruct (pending l) as [|x rest] eqn:Hpend.
    + cbn in Hl'. unfold fire. rewrite Hpend. cbn.
      apply IH. destruct Hl as (Hw & Hdown & ns & Hp & _).
      split; [exact Hw|]. split; [exact Hdown|]. exists [].
      rewrite Hpend in *. apply Forall2_nil_inv_r in Hp as ->. split; [constructor|cbn; lia].
    + cbn in Hl'. apply IH. replace debt with (S debt - 1)%nat by lia. exact Hl'.
Qed.

(** The first stop, with nothing else in flight. *)
Lemma first_stop_tearing (l : Loop) :
  pending l = [] -> calm mics (world l) ->
  tearing mics 2 (fire click_stop l) /\ unhandled (fire click_stop l) = unhandled l.
Proof.
  intros Hp Hw. unfold fire.
  apply (enter_tears 2 2 _ l []); [now apply stopLiveVoice_tears|rewrite Hp; constructor|].
  reflexivity.
Qed.

End Teardowns.

(** C5, as the code has it.  A stop when no session was ever started does
    nothing and raises nothing.  From any state the event loop reaches with
    nothing in flight, stops that follow one another, the next one clicked
    after the one before has ended or while it is still waiting for a close
    call, raise nothing as long as their close calls resolve, and once the
    last of these has resolved the controller is in Idle with the session
    and playback references cleared and no open audio context held; every
    stop ends after at most two close calls.  A stop that comes after one
    that has ended makes no call at all; stops that overlap call [close()]
    on the same session, which is where the idempotence of the transport's
    [close()] is relied on.  No stop releases the microphone stream. *)
Theorem stop_twice_or_unstarted :
  stopLiveVoice initial = Returned initial tt
  /\ (forall w : World,
        stoppable w = true ->
        exists w1,
          complete [None; None] (stopLiveVoice w) = Returned w1 tt
          /\ sessionState w1 = Idle
          /\ liveSessionRef w1 = None
          /\ open_context w1 = None
          /\ currentAudioSourceRef w1 = None
          /\ streams w1 = streams w
          /\ stopLiveVoice w1 = Returned w1 tt
          /\ calls w1 = calls w ++ teardown_calls w)
  /\ (forall before evs : list Event,
        let l := run before boot in
        pending l = [] ->
        forallb stop_or_answer evs = true ->
        let l' := run (click_stop :: evs) l in
        let l'' := run (repeat (settled 0 None) (2 * length (click_stop :: evs))) l' in
        unhandled l' = unhandled l
        /\ streams (world l') = streams (world l)
        /\ (pending l' = [] ->
              sessionState (world l') = Idle
              /\ liveSessionRef (world l') = None
              /\ open_context (world l') = None
              /\ currentAudioSourceRef (world l') = None)
        /\ pending l'' = []
        /\ unhandled l'' = unhandled l
        /\ sessionState (world l'') = Idle).
Proof.
  split; [reflexivity|]. split.
  - intros w Hstop.
    destruct (stop_completes w Hstop)
      as (w1 & Hret & Hcalls & Hstreams & _ & Hsession & Hctx & Hcur & Hlive & Hspeaking
          & Hthinking).
    exists w1. repeat split; try assumption.
    + now apply idle_flags.
    + rewrite (stop_idle_noop w1 Hsession Hctx Hcur).
      now rewrite flags_already_false.
  - intros before evs l Hp Hevs l' l''.
    assert (Hcalm : calm (streams (world l)) (world l)).
    { split; [|reflexivity]. apply consistent_stoppable, reachable_consistent. }
    destruct (first_stop_tearing _ l Hp Hcalm) as [H1 Hu1].
    destruct (run_tearing _ evs 2 _ Hevs H1) as [H2 Hu2].
    change (run evs (fire click_stop l)) with l' in H2, Hu2.
    assert (Hdebt : (2 + 2 * length evs = 2 * length (click_stop :: evs))%nat)
      by (cbn [length]; lia).
    rewrite Hdebt in H2.
    pose proof (drain _ _ l' H2) as Hdrain. fold l'' in Hdrain.
    assert (Hanswers : forallb stop_or_answer
                         (repeat (settled 0 None) (2 * length (click_stop :: evs))) = true).
    { apply forallb_forall. intros ev Hev. apply repeat_spec in Hev. now subst. }
    destruct (run_tearing _ _ _ l' Hanswers H2) as [H3 Hu3]. fold l'' in H3, Hu3.
    destruct H2 as ((_ & Hmics) & Hdown & _).
    destruct H3 as (_ & Hdown' & _).
    split; [congruence|]. split; [exact Hmics|]. split.
    + intros Hquiet. destruct (Hdown Hquiet) as (Hs & Hc & Hcur & Hlive & _).
      split; [now apply idle_flags|]. repeat split; assumption.
    + split; [exact Hdrain|]. split; [congruence|].
      destruct (Hdown' Hdrain) as (_ & _ & _ & Hlive & _). now apply idle_flags.
Qed.

Lemma stop_twice_or_unstarted_witness :
  let l := run playing_session boot in
  let l' := run [click_stop; click_stop; settled 1 None; settled 0 None;
                 settled 1 None; settled 0 None] l in
  (exists w1,
     complete [None; None] (stopLiveVoice (world l)) = Returned w1 tt
     /\ sessionState w1 = Idle
     /\ stopLiveVoice w1 = Returned w1 tt)
  /\ pending l' = []
  /\ unhandled l' = []
  /\ sessionState (world l') = Idle
  /\ liveSessionRef (world l') = None
  /\ calls (world l') =
       calls (world l)
       ++ [call_session_close 0; call_session_close 0;
           call_context_close 0; call_context_close 0; call_source_stop 0].
Proof.
  intros l l'.
  destruct stop_twice_or_unstarted as (_ & Htwice & Hoverlap).
  split.
  - destruct (Htwice (world l) eq_refl)
      as (w1 & Hret & Hidle & _ & _ & _ & _ & Hagain & _).
    exists w1. split; [exact Hret|]. split; [exact Hidle|exact Hagain].
  - assert (Hquiet : pending l' = []) by reflexivity.
    destruct (Hoverlap playing_session
                [click_stop; settled 1 None; settled 0 None; settled 1 None; settled 0 None]
                eq_refl eq_refl)
      as (Hunhandled & _ & Hdown & _).
    destruct (Hdown Hquiet) as (Hidle & Hsession & _ & _).
    split; [exact Hquiet|]. split; [exact Hunhandled|]. split; [exact Hidle|].
    split; [exact Hsession|]. reflexivity.
Defined.

(** After a session was started and stopped twice, the second stop coming
    after the first has ended or while it is still waiting, the microphone
    stream acquired at start is still live. *)
Lemma stop_twice_leaves_microphone_live :
  let w := world (run opened_session boot) in
  let w1 := world_of (complete [None; None] (stopLiveVoice w)) in
  let w2 := world_of (complete [None; None] (stopLiveVoice w1)) in
  let l := run (opened_session
                ++ [click_stop; click_stop; settled 0 None; settled 0 None;
                    settled 0 None; settled 0 None]) boot in
  streams w = [StreamLive]
  /\ sessionState w2 = Idle
  /\ liveSessionRef w2 = None
  /\ audioContextRef w2 = None
  /\ streams w2 = [StreamLive]
  /\ streams w2 <> [StreamEnded]
  /\ pending l = []
  /\ sessionState (world l) = Idle
  /\ streams (world l) = [StreamLive]
  /\ streams (world l) <> [StreamEnded].
Proof. vm_compute. repeat split; discriminate. Qed.

(** C6, as the code has it.  [startLiveVoice] raises the overlay and the
    Thinking flag and creates the audio context before it asks for the
    microphone, so the controller is not Idle while the request is pending.
    If the request fails, the error is logged, no transport open is
    attempted, and the teardown brings the controller back to Idle. *)
Theorem microphone_failure_aborts_start (w : World) (e : Exn) :
  exists k,
    startLiveVoice w = Awaiting (awaiting_microphone w) getUserMedia k
    /\ isLiveActive (awaiting_microphone w) = true
    /\ isLuminaThinking (awaiting_microphone w) = true
    /\ sessionState (awaiting_microphone w) <> Idle
    /\ (forall answers,
          let w' := world_of (complete (Some e :: answers) (startLiveVoice w)) in
          console w' = console w ++ [e]
          /\ exists added,
               calls w' = calls w ++ call_getUserMedia :: added
               /\ existsb is_connect added = false)
    /\ (stoppable w = true ->
          exists w',
            complete [Some e; None; None] (startLiveVoice w) = Returned w' tt
            /\ sessionState w' = Idle
            /\ liveSessionRef w' = None
            /\ open_context w' = None
            /\ length (sessions w') = length (sessions w)).
Proof.
  destruct (start_suspends w) as (k & Hk & Hcatch).
  exists k. split; [exact Hk|]. split; [reflexivity|]. split; [reflexivity|].
  split; [unfold sessionState; cbn; destruct (isLuminaSpeaking w); discriminate|].
  assert (Hrun : forall answers,
             complete (Some e :: answers) (startLiveVoice w) =
               complete answers
                 (stopLiveVoice (with_console (console w ++ [e]) (awaiting_microphone w)))).
  { intros answers. rewrite Hk. cbn [complete settle]. now rewrite Hcatch. }
  split.
  - intros answers w'. unfold w'. rewrite Hrun. split.
    + apply stop_console.
    + destruct (stop_calls (with_console (console w ++ [e]) (awaiting_microphone w)) answers)
        as (added & Hcalls & Hnone).
      exists added. split; [|exact Hnone].
      rewrite Hcalls. cbn. now rewrite <- app_assoc.
  - intros Hstop. rewrite Hrun.
    destruct (stop_completes (with_console (console w ++ [e]) (awaiting_microphone w)) Hstop)
      as (w' & Hret & _ & _ & _ & Hsession & Hctx & _ & Hlive & _).
    exists w'. split; [exact Hret|]. split; [now apply idle_flags|].
    split; [exact Hsession|]. split; [exact Hctx|].
    pose proof (stop_sessions (with_console (console w ++ [e]) (awaiting_microphone w))
                  [None; None]) as Hlen.
    rewrite Hret in Hlen. exact Hlen.
Qed.

Lemma microphone_failure_aborts_start_witness :
  exists w',
    complete [Some (DOMException "NotAllowedError"); None; None] (startLiveVoice initial)
      = Returned w' tt
    /\ sessionState w' = Idle
    /\ length (sessions w') = 0%nat.
Proof.
  destruct (microphone_failure_aborts_start initial (DOMException "NotAllowedError"))
    as (k & _ & _ & _ & _ & _ & Hidle).
  destruct (Hidle eq_refl) as (w' & Hret & Hstate & _ & _ & Hsessions).
  exists w'. split; [exact Hret|]. split; [exact Hstate|exact Hsessions].
Defined.

(** The controller leaves Idle as soon as start is requested, before the
    microphone has answered; a refusal then brings it back. *)
Lemma start_leaves_idle_before_microphone :
  let l1 := fire click_start boot in
  let l2 := fire (settled 0 (Some (DOMException "NotAllowedError"))) l1 in
  let l3 := fire (settled 0 None) l2 in
  sessionState (world boot) = Idle
  /\ sessionState (world l1) = Thinking
  /\ sessionState (world l1) <> Idle
  /\ calls (world l1) = [call_getUserMedia]
  /\ sessionState (world l2) = Thinking
  /\ sessionState (world l3) = Idle
  /\ calls (world l3) = [call_getUserMedia; call_context_close 0]
  /\ console (world l3) = [DOMException "NotAllowedError"].
Proof. vm_compute. repeat split. discriminate. Qed.

(** Until a model turn arrives nothing raises the Speaking flag. *)











(** ** The frame on the wire decodes to the frame that was encoded *)

(** X1. The base64 text handed to [sendRealtimeInput] decodes, with [atob],
    to exactly the bytes of the frame that was encoded: two bytes per input
    sample, low byte first, which put together give the 16-bit sample
    back. *)
Theorem sent_frame_decodes_to_the_samples (inputData : list JSNumber) :
  exists (base64Data : string) (bytes : list Z),
    onaudioprocess inputData =
      Some [ {| media := {| data := base64Data; mimeType := "audio/pcm;rate=24000" |} |} ]
    /\ Base64.atob base64Data = Some bytes
    /\ bytes = Uint8Array_of_buffer (pcmData inputData)
    /\ length bytes = (2 * length inputData)%nat
    /\ forall (i : nat) (x : JSNumber),
         inputData !! i = Some x ->
         exists lo hi : Z,
           bytes !! (2 * i)%nat = Some lo
           /\ bytes !! (2 * i + 1)%nat = Some hi
           /\ (0 <= lo <= 255)%Z /\ (0 <= hi <= 255)%Z
           /\ wrap16 (lo + 256 * hi) = pcm_sample x.
Proof.
  exists (Base64.encode (Uint8Array_of_buffer (pcmData inputData))),
         (Uint8Array_of_buffer (pcmData inputData)).
  split; [|split; [|split; [|split]]].
  - unfold onaudioprocess. now rewrite btoa_of_buffer.
  - apply atob_btoa, btoa_of_buffer.
  - reflexivity.
  - rewrite Uint8Array_length. unfold pcmData. now rewrite length_map.
  - intros i x Hx.
    assert (Hv : pcmData inputData !! i = Some (pcm_sample x))
      by (unfold pcmData; rewrite list_lookup_fmap, Hx; reflexivity).
    destruct (buffer_bytes_at _ _ _ Hv) as [Hlo Hhi].
    exists (Z.land (pcm_sample x) 255), (Z.land (Z.shiftr (pcm_sample x) 8) 255).
    split; [exact Hlo|]. split; [exact Hhi|].
    pose proof (land_255_is_byte (pcm_sample x)) as B1.
    pose proof (land_255_is_byte (Z.shiftr (pcm_sample x) 8)) as B2.
    unfold Base64.is_byte in B1, B2.
    split; [lia|]. split; [lia|].
    apply int16_of_bytes. pose proof (pcm_sample_range x). lia.
Qed.

(** X2. The sample conversion is odd and never reverses the order of two
    samples: negating an input negates the 16-bit value, and a larger input
    never gives a smaller value.  Silence is encoded as zero. *)
Theorem pcm_sample_odd_and_monotone :
  (forall q : Q, pcm_sample (Finite (- q)) = (- pcm_sample (Finite q))%Z)
  /\ (forall p q : Q, (p <= q)%Q -> (pcm_sample (Finite p) <= pcm_sample (Finite q))%Z)
  /\ pcm_sample (Finite 0) = 0%Z.
Proof.
  split; [|split; [|reflexivity]].
  - intros q.
    destruct (Qlt_le_dec q (-1)) as [Hlow|Hlow].
    + rewrite (pcm_sample_below q) by (apply Qlt_le_weak; exact Hlow).
      rewrite pcm_sample_above; [reflexivity|].
      destruct q; unfold Qle, Qlt in *; cbn in *; lia.
    + destruct (Qlt_le_dec 1 q) as [Hhigh|Hhigh].
      * rewrite (pcm_sample_above q) by (apply Qlt_le_weak; exact Hhigh).
        rewrite pcm_sample_below; [reflexivity|].
        destruct q; unfold Qle, Qlt in *; cbn in *; lia.
      * rewrite !pcm_sample_inside; try assumption.
        -- rewrite <- Qtrunc_opp. unfold Qtrunc. destruct q; cbn. f_equal. lia.
        -- destruct q; unfold Qle, Qlt in *; cbn in *; lia.
        -- destruct q; unfold Qle, Qlt in *; cbn in *; lia.
  - intros p q Hpq.
    pose proof (pcm_sample_range (Finite p)) as Rp.
    pose proof (pcm_sample_range (Finite q)) as Rq.
    destruct (Qlt_le_dec (-1) p) as [Hp|Hp];
      [|rewrite (pcm_sample_below p) by exact Hp; lia].
    destruct (Qlt_le_dec q 1) as [Hq|Hq];
      [|rewrite (pcm_sample_above q) by exact Hq; lia].
    rewrite !pcm_sample_inside.
    + apply Qtrunc_mono, Qmult_le_compat_r; [exact Hpq|discriminate].
    + apply Qlt_le_weak, (Qlt_le_trans _ p); assumption.
    + apply Qlt_le_weak; exact Hq.
    + apply Qlt_le_weak; exact Hp.
    + apply Qlt_le_weak, (Qle_lt_trans _ q); assumption.
Qed.

(** X3. Inside [-1, 1] no clipping takes place: the value sent differs from
    the sample scaled by 32767 by less than one step, and is never farther
    from zero than it. *)
Theorem pcm_sample_error_below_one_step (q : Q) :
  (-1 <= q)%Q -> (q <= 1)%Q ->
  (inject_Z (pcm_sample (Finite q)) - 1 < q * 32767)%Q
  /\ (q * 32767 < inject_Z (pcm_sample (Finite q)) + 1)%Q
  /\ ((0 <= q)%Q ->
        (0 <= pcm_sample (Finite q))%Z
        /\ (inject_Z (pcm_sample (Finite q)) <= q * 32767)%Q)
  /\ ((q <= 0)%Q ->
        (pcm_sample (Finite q) <= 0)%Z
        /\ (q * 32767 <= inject_Z (pcm_sample (Finite q)))%Q).
Proof.
  intros Hlo Hhi. rewrite pcm_sample_inside by assumption.
  destruct (Qtrunc_error (q * 32767)) as [E1 E2].
  destruct (Qtrunc_toward_zero (q * 32767)) as [T1 T2].
  split; [exact E1|]. split; [exact E2|]. split; intros Hq.
  - apply T1. destruct q; unfold Qle in *; cbn in *; lia.
  - apply T2. destruct q; unfold Qle in *; cbn in *; lia.
Qed.

Lemma pcm_sample_error_below_one_step_witness :
  (inject_Z (pcm_sample (Finite (1 # 3))) - 1 < (1 # 3) * 32767)%Q
  /\ ((1 # 3) * 32767 < inject_Z (pcm_sample (Finite (1 # 3))) + 1)%Q.
Proof.
  destruct (pcm_sample_error_below_one_step (1 # 3)) as (H1 & H2 & _).
  - discriminate.
  - discriminate.
  - split; [exact H1|exact H2].
Defined.

(** ** [startLiveVoice] past the microphone *)

Lemma complete_nil {A : Type} (o : Outcome A) : complete [] o = o.
Proof. destruct o; reflexivity. Qed.

Lemma complete_one {A T : Type} (r : Request T) (a : option Exn) (w : World)
    (k : Result T -> World -> Outcome A) :
  complete [a] (Awaiting w r k) = k (settle r a w).2 (settle r a w).1.
Proof. cbn [complete]. destruct (settle r a w) as [w1 res]. apply complete_nil. Qed.

Lemma complete_app {A : Type} (first rest : list (option Exn)) (o : Outcome A) :
  complete (first ++ rest) o = complete rest (complete first o).
Proof.
  revert o. induction first as [|a first IH]; intros o.
  - destruct o; reflexivity.
  - destruct o as [w x|w x|w T r k]; cbn [app complete].
    + now rewrite complete_returned.
    + now rewrite complete_thrown.
    + destruct (settle r a w) as [w1 res]. apply IH.
Qed.

(** What a teardown that runs to its end does to the stores. *)
Lemma stop_stores (w : World) :
  stoppable w = true ->
  exists w',
    complete [None; None] (stopLiveVoice w) = Returned w' tt
    /\ sessions w' =
         match liveSessionRef w with
         | Some s => <[s := SessionClosed]> (sessions w)
         | None => sessions w
         end
    /\ contexts w' =
         match open_context w with
         | Some c => <[c := closed]> (contexts w)
         | None => contexts w
         end
    /\ audioContextRef w' =
         match open_context w with
         | Some _ => None
         | None => audioContextRef w
         end.
Proof.
  intros Hstop. stop_cases.
  all: eexists; split; [reflexivity|]; cbn.
  all: repeat split; rw_eqns; try reflexivity; try assumption.
Qed.

Lemma new_context_open (w : World) (e : Exn) :
  open_context (with_console (console w ++ [e]) (awaiting_connection w))
  = Some (length (contexts w)).
Proof.
  unfold open_context, context_not_closed. cbn.
  rewrite lookup_app_r by lia. rewrite Nat.sub_diag. reflexivity.
Qed.

Ltac loop_step :=
  cbn [enter app world pending unhandled lookup list_lookup settle delete list_delete].

(** A teardown with no session to close suspends on the close of the audio
    context, and ends when that call resolves. *)
Lemma stop_awaits_context (w : World) (c : nat) :
  liveSessionRef w = None ->
  open_context w = Some c ->
  exists k,
    stopLiveVoice w = Awaiting (log_call (call_context_close c) w) (context_close c) k
    /\ forall w', currentAudioSourceRef w' = None ->
          k (Resolved tt) w' =
            Returned (with_isLuminaThinking false
                        (with_isLuminaSpeaking false
                           (with_isLiveActive false (with_audioContextRef None w')))) tt.
Proof.
  intros Hs Hc. unfold open_context in Hc. unfold stopLiveVoice. unfold_async. cbn.
  rewrite Hs. cbn.
  destruct (audioContextRef w) as [c'|] eqn:Hctx; [|discriminate].
  destruct (match contexts w !! c' with Some closed => false | _ => true end) eqn:Hopen;
    [|discriminate].
  simplify_eq. cbn. rewrite ?Hctx. cbn. rewrite ?Hopen. cbn.
  eexists. split; [reflexivity|].
  intros w' Hcur. cbn. rewrite Hcur. reflexivity.
Qed.

Lemma start_connects (w : World) :
  exists k,
    complete [None] (startLiveVoice w) =
      Awaiting (awaiting_connection w) (connectLive (length (contexts w))) k
    /\ (forall e w', k (Rejected e) w' = stopLiveVoice (with_console (console w' ++ [e]) w'))
    /\ (forall s w', k (Resolved s) w' = Returned (with_liveSessionRef (Some s) w') tt).
Proof.
  unfold startLiveVoice. unfold_async. cbn. eexists. split; [reflexivity|].
  split; reflexivity.
Qed.

(** X4. When the microphone is granted and the call to [connectLive] then
    fails, the error is logged once, no session is created, and the teardown
    closes the audio context the start had created and brings the overlay
    back to Idle; the microphone stream acquired by that start stays
    live. *)
Theorem connect_failure_aborts_start (w : World) (e : Exn) :
  stoppable w = true ->
  exists w',
    complete [None; Some e; None; None] (startLiveVoice w) = Returned w' tt
    /\ sessionState w' = Idle
    /\ liveSessionRef w' = None
    /\ open_context w' = None
    /\ currentAudioSourceRef w' = None
    /\ console w' = console w ++ [e]
    /\ streams w' = streams w ++ [StreamLive]
    /\ length (sessions w') = length (sessions w)
    /\ contexts w' !! length (contexts w) = Some closed
    /\ calls w' =
         calls w
         ++ [call_getUserMedia; call_connectLive (length (contexts w))]
         ++ match liveSessionRef w with Some s => [call_session_close s] | None => [] end
         ++ [call_context_close (length (contexts w))]
         ++ match currentAudioSourceRef w with Some s => [call_source_stop s] | None => [] end.
Proof.
  intros Hstop.
  destruct (start_connects w) as (k & Hk & Hcatch & _).
  set (failed := with_console (console w ++ [e]) (awaiting_connection w)).
  assert (Hrun : forall answers,
             complete (None :: Some e :: answers) (startLiveVoice w) =
               complete answers (stopLiveVoice failed)).
  { intros answers. change (None :: Some e :: answers) with ([None] ++ Some e :: answers).
    rewrite complete_app, Hk. cbn [complete settle]. now rewrite Hcatch. }
  rewrite Hrun.
  assert (Hstop' : stoppable failed = true) by exact Hstop.
  destruct (stop_completes failed Hstop')
    as (w' & Hret & Hcalls & Hstreams & Hconsole & Hsession & Hctx & Hcur & Hlive & _).
  exists w'. split; [exact Hret|]. split; [now apply idle_flags|].
  split; [exact Hsession|]. split; [exact Hctx|]. split; [exact Hcur|].
  split; [rewrite Hconsole; reflexivity|].
  split; [rewrite Hstreams; reflexivity|].
  split.
  { pose proof (stop_sessions failed [None; None]) as Hlen.
    rewrite Hret in Hlen. exact Hlen. }
  split.
  - destruct (stop_stores failed Hstop') as (w2 & Hret2 & _ & Hcontexts & _).
    rewrite Hret in Hret2. injection Hret2 as <-.
    rewrite Hcontexts. unfold failed. rewrite new_context_open. cbn.
    apply list_lookup_insert_eq. rewrite length_app. cbn. lia.
  - rewrite Hcalls. unfold teardown_calls, failed. rewrite new_context_open. cbn.
    rewrite <- !app_assoc. reflexivity.
Qed.

Lemma connect_failure_aborts_start_witness :
  exists w',
    complete [None; Some TypeError; None; None] (startLiveVoice initial) = Returned w' tt
    /\ sessionState w' = Idle
    /\ streams w' = [StreamLive]
    /\ console w' = [TypeError].
Proof.
  destruct (connect_failure_aborts_start initial TypeError eq_refl)
    as (w' & Hret & Hidle & _ & _ & _ & Hconsole & Hstreams & _).
  exists w'. split; [exact Hret|]. split; [exact Hidle|].
  split; [exact Hstreams|exact Hconsole].
Defined.

(** X5. When both calls succeed [startLiveVoice] returns with the new
    session and the new audio context in its references, the overlay raised
    and Thinking set.  It releases nothing on the way: a session or a
    context that an earlier start had left in the references is neither
    closed nor kept, its reference is overwritten. *)
Theorem start_establishes_session (w : World) :
  exists w',
    complete [None; None] (startLiveVoice w) = Returned w' tt
    /\ liveSessionRef w' = Some (length (sessions w))
    /\ sessions w' = sessions w ++ [SessionOpen]
    /\ audioContextRef w' = Some (length (contexts w))
    /\ contexts w' = contexts w ++ [running]
    /\ streams w' = streams w ++ [StreamLive]
    /\ calls w' = calls w ++ [call_getUserMedia; call_connectLive (length (contexts w))]
    /\ console w' = console w
    /\ sources w' = sources w
    /\ currentAudioSourceRef w' = currentAudioSourceRef w
    /\ isLiveActive w' = true
    /\ isLuminaThinking w' = true
    /\ isLuminaSpeaking w' = isLuminaSpeaking w
    /\ sessionState w' = (if isLuminaSpeaking w then Speaking else Thinking).
Proof.
  destruct (start_connects w) as (k & Hk & _ & Hthen).
  change [None; None] with ([None] ++ [@None Exn]).
  rewrite complete_app, Hk. cbn [complete settle]. rewrite Hthen.
  eexists. split; [reflexivity|]. cbn. rewrite <- !app_assoc.
  repeat split.
Qed.

(** X6. A stop requested while the call to [connectLive] is pending does
    not cancel the start.  The teardown closes the audio context and brings
    the overlay to Idle; when the transport then answers, the start stores
    the new session in its reference.  The run ends with nothing pending, the
    overlay Idle, and the session open. *)
Theorem stop_while_connecting_leaves_session_open (l : Loop) :
  pending l = [] ->
  liveSessionRef (world l) = None ->
  currentAudioSourceRef (world l) = None ->
  let w := world l in
  let l' := run stop_while_connecting l in
  pending l' = []
  /\ unhandled l' = unhandled l
  /\ sessionState (world l') = Idle
  /\ liveSessionRef (world l') = Some (length (sessions w))
  /\ sessions (world l') = sessions w ++ [SessionOpen]
  /\ audioContextRef (world l') = None
  /\ contexts (world l') = contexts w ++ [closed]
  /\ streams (world l') = streams w ++ [StreamLive]
  /\ calls (world l') =
       calls w ++ [call_getUserMedia; call_connectLive (length (contexts w));
                   call_context_close (length (contexts w))].
Proof.
  destruct l as [w p u]. cbn [world pending unhandled]. intros -> Hs Hc. cbv zeta.
  destruct (start_suspends w) as (k1 & Hk1 & _).
  destruct (start_connects w) as (k2 & Hk2 & _ & Hthen).
  rewrite Hk1, complete_one in Hk2. cbn [settle fst snd] in Hk2.
  destruct (stop_awaits_context (awaiting_connection w) (length (contexts w)))
    as (k3 & Hk3 & Hrest).
  { exact Hs. }
  { unfold open_context, context_not_closed. cbn.
    rewrite lookup_app_r by lia. now rewrite Nat.sub_diag. }
  eassert (Hrun : run stop_while_connecting {| world := w; pending := []; unhandled := u |}
                   = _).
  { unfold stop_while_connecting, run. cbn [foldl].
    unfold fire at 5. cbn [world]. rewrite Hk1. loop_step.
    unfold fire at 4. loop_step. rewrite Hk2. loop_step.
    unfold fire at 3. loop_step. rewrite Hk3. loop_step.
    unfold fire at 2. loop_step. rewrite Hrest by exact Hc. loop_step.
    unfold fire. loop_step. rewrite Hthen. loop_step. reflexivity. }
  rewrite Hrun. cbn.
  rewrite insert_app_r_alt by lia. rewrite Nat.sub_diag. cbn.
  rewrite <- !app_assoc. repeat split.
Qed.

Lemma stop_while_connecting_leaves_session_open_witness :
  sessionState (world (run stop_while_connecting boot)) = Idle
  /\ liveSessionRef (world (run stop_while_connecting boot)) = Some 0%nat
  /\ sessions (world (run stop_while_connecting boot)) = [SessionOpen].
Proof.
  destruct (stop_while_connecting_leaves_session_open boot eq_refl eq_refl eq_refl)
    as (_ & _ & Hidle & Href & Hsessions & _).
  split; [exact Hidle|]. split; [exact Href|exact Hsessions].
Defined.


(** * The conversations *)

Section Conversations.

Import Conversation.

Variable toLowerCase : JSString -> JSString.

Local Arguments update_chat : simpl never.
Local Arguments title_of : simpl never.
Local Arguments codes : simpl never.

Ltac unfold_handlers :=
  unfold handleSendMessage, startNewChat, deleteChat, selectChat, generateImage,
    handleLanguageSelect in *;
  unfold mbind, Conversation.Async_bind, mret, Conversation.Async_ret,
    try_catch, try_finally, setMessages, setMessages_from, setChats, setChats_from,
    setInput, setIsLoading, setActiveChatId, setMode, setIsSidebarOpen, setLanguage,
    console_error, Date_now in *;
  unfold read, write, skip, throw, await in *.

(** [handleSendMessage] up to its first await. *)
Lemma send_guarded (overrideInput : option JSString) (st : State) :
  sendable overrideInput st = false ->
  handleSendMessage toLowerCase overrideInput st = Returned st tt.
Proof.
  unfold sendable. unfold_handlers. cbn.
  destruct (activeChatId st); [|reflexivity].
  intros ->. reflexivity.
Qed.

Lemma send_suspends (overrideInput : option JSString) (st : State) :
  sendable overrideInput st = true ->
  exists k,
    handleSendMessage toLowerCase overrideInput st =
      Awaiting (awaiting_reply overrideInput st)
        (sendMessage (language st) (mode st) (or_input overrideInput (input st))) k.
Proof.
  unfold sendable. unfold_handlers. cbn.
  destruct (activeChatId st); [|discriminate].
  intros ->. cbn. eexists. reflexivity.
Qed.

Ltac ends_step :=
  lazymatch goal with
  | |- Ends _ (Returned _ _) => apply ends_returned
  | |- Ends _ (Awaiting _ _ _) =>
      apply ends_awaiting;
      let st' := fresh "st'" in intros [?|?] st'; cbn
  | |- Ends _ _ => break_match; cbn
  end.

(** X7. [handleSendMessage] never throws and never leaves the loading
    indicator on: a call that passes the guard raises it before it awaits
    the reply and, however and whenever the reply and the image settle,
    returns with it lowered; a call with a blank text or with no active chat
    returns at once and changes nothing. *)
Theorem send_ends_with_loading_cleared (overrideInput : option JSString) (st : State) :
  Ends (fun st' => if sendable overrideInput st then isLoading st' = false else st' = st)
       (handleSendMessage toLowerCase overrideInput st)
  /\ (sendable overrideInput st = true ->
        isLoading (state_of (handleSendMessage toLowerCase overrideInput st)) = true)
  /\ (sendable overrideInput st = false ->
        handleSendMessage toLowerCase overrideInput st = Returned st tt).
Proof.
  split; [|split].
  - destruct (sendable overrideInput st) eqn:Hs.
    + unfold sendable in Hs. unfold_handlers. cbn.
      destruct (activeChatId st); [|discriminate]. rewrite Hs. cbn.
      repeat ends_step; reflexivity.
    + rewrite send_guarded by exact Hs. now apply ends_returned.
  - intros Hs. destruct (send_suspends overrideInput st Hs) as (k & ->). reflexivity.
  - apply send_guarded.
Qed.

Lemma update_chat_lookup (a : Z) (f : Chat.t -> Chat.t) (prev : list Chat.t) (i : nat) :
  update_chat a f prev !! i =
    (fun c => if decide (Chat.id c = a) then f c else c) <$> prev !! i.
Proof. unfold update_chat. apply list_lookup_fmap. Qed.

Lemma update_chat_ids (a : Z) (f : Chat.t -> Chat.t) (prev : list Chat.t) :
  (forall c, Chat.id (f c) = Chat.id c) ->
  map Chat.id (update_chat a f prev) = map Chat.id prev.
Proof.
  intros Hf. unfold update_chat. rewrite map_map. apply map_ext.
  intros c. case_decide; [apply Hf|reflexivity].
Qed.

(** X8. The reply is filed under the chat the message was sent from, and
    the message pane is set to the conversation of the moment of sending
    followed by the message and the reply, whatever the state has become
    while the call was pending: the chats keep their order and their ids,
    the sending chat gets that conversation as its messages, the other chats
    are not touched, and the active chat and the mode are left as they
    are. *)
Theorem reply_is_filed_under_the_sending_chat
    (overrideInput : option JSString) (st : State) (activeChatId0 : Z) :
  activeChatId st = Some activeChatId0 ->
  sendable overrideInput st = true ->
  exists k,
    handleSendMessage toLowerCase overrideInput st =
      Awaiting (awaiting_reply overrideInput st)
        (sendMessage (language st) (mode st) (or_input overrideInput (input st))) k
    /\ messages (awaiting_reply overrideInput st)
       = messages st ++ [user_message overrideInput st]
    /\ chats (awaiting_reply overrideInput st) = chats st
    /\ forall (response : Gemini.GenerateContentResponse) (st' : State),
         let after := state_of (k (Resolved response) st') in
         exists assistantMsg : Message.t,
           Message.role assistantMsg = assistant
           /\ Message.content assistantMsg = Gemini.text response
           /\ Message.imageUrl assistantMsg = None
           /\ messages after = messages st ++ [user_message overrideInput st; assistantMsg]
           /\ activeChatId after = activeChatId st'
           /\ mode after = mode st'
           /\ console after = console st'
           /\ map Chat.id (chats after) = map Chat.id (chats st')
           /\ forall (i : nat) (c : Chat.t),
                chats st' !! i = Some c ->
                exists c',
                  chats after !! i = Some c'
                  /\ if decide (Chat.id c = activeChatId0)
                     then Chat.messages c' =
                            messages st ++ [user_message overrideInput st; assistantMsg]
                     else c' = c.
Proof.
  intros Hactive Hs. unfold sendable in Hs. rewrite Hactive in Hs.
  unfold_handlers. cbn. rewrite Hactive, Hs. cbn.
  eexists. split; [reflexivity|]. split; [reflexivity|]. split; [reflexivity|].
  intros response st'. cbn.
  eexists {| Message.id := clock st' (reads st') + 1; Message.role := assistant;
             Message.content := Gemini.text response; Message.imageUrl := None;
             Message.timestamp := clock st' (S (reads st')) |}.
  split; [reflexivity|]. split; [reflexivity|]. split; [reflexivity|].
  destruct (Nat.eqb (length (messages st ++ [user_message overrideInput st])) 1) eqn:Hlen.
  all: unfold user_message in *; cbn in Hlen |- *; rewrite ?Hlen; cbn.
  all: destruct (wants_image toLowerCase (or_input overrideInput (input st))); cbn.
  all: rewrite <- ?app_assoc; cbn.
  all: split; [reflexivity|]; split; [reflexivity|]; split; [reflexivity|].
  all: split; [reflexivity|].
  all: split; [rewrite ?update_chat_ids by reflexivity; reflexivity|].
  all: intros i c Hc; rewrite ?update_chat_lookup, Hc; cbn.
  all: eexists; split; [reflexivity|].
  all: repeat case_decide; cbn in *; try reflexivity; try contradiction.
Qed.

(** X9. When the call to the model fails, the error is logged and the
    loading indicator lowered, and that is all: no chat is changed.  The
    message of the user, put in the pane when it was sent, is in no chat: with
    nothing else happening in between, the pane ends one message longer than
    the active chat. *)
Theorem failed_send_is_logged_and_stores_nothing
    (overrideInput : option JSString) (st : State) :
  sendable overrideInput st = true ->
  exists k,
    handleSendMessage toLowerCase overrideInput st =
      Awaiting (awaiting_reply overrideInput st)
        (sendMessage (language st) (mode st) (or_input overrideInput (input st))) k
    /\ (forall (e : Exn) (st' : State),
          k (Rejected e) st' =
            Returned (with_isLoading false (with_console (console st' ++ [e]) st')) tt)
    /\ (forall e : Exn,
          let after := state_of (k (Rejected e) (awaiting_reply overrideInput st)) in
          messages after = messages st ++ [user_message overrideInput st]
          /\ chats after = chats st
          /\ activeChatId after = activeChatId st
          /\ input after = []
          /\ isLoading after = false
          /\ console after = console st ++ [e]).
Proof.
  intros Hs. unfold sendable in Hs.
  destruct (activeChatId st) as [a|] eqn:Hactive; [|discriminate].
  unfold_handlers. cbn. rewrite Hactive, Hs. cbn.
  eexists. split; [reflexivity|]. split.
  - intros e st'. reflexivity.
  - intros e. cbn. rewrite Hactive. repeat split.
Qed.

(** The title given to a chat. *)
Lemma title_of_short (text : JSString) : (length text <= 30)%nat -> title_of text = text.
Proof.
  intros H. unfold title_of, JS.slice_to.
  rewrite take_ge by exact H.
  destruct (Nat.ltb_spec 30 (length text)); [lia|apply app_nil_r].
Qed.

Lemma title_of_long (text : JSString) :
  (30 < length text)%nat ->
  title_of text = take 30 text ++ codes "..." /\ length (title_of text) = 33%nat.
Proof.
  intros H. unfold title_of, JS.slice_to.
  destruct (Nat.ltb_spec 30 (length text)); [|lia].
  split; [reflexivity|]. rewrite length_app, length_take.
  change (length (codes "...")) with 3%nat. lia.
Qed.

(** X10. A chat is given its title by the reply to a message sent from an
    empty pane, and by no other: the title is then the text sent if it has
    at most 30 code units, and otherwise its first 30 followed by three
    dots, 33 code units in all.  A reply to a message sent from a pane that
    already shows messages changes no title. *)
Theorem title_comes_from_the_first_message
    (overrideInput : option JSString) (st : State) (activeChatId0 : Z) :
  activeChatId st = Some activeChatId0 ->
  sendable overrideInput st = true ->
  let text := or_input overrideInput (input st) in
  (length (title_of text) <= 33)%nat
  /\ ((length text <= 30)%nat -> title_of text = text)
  /\ ((30 < length text)%nat -> title_of text = take 30 text ++ codes "...")
  /\ exists k,
       handleSendMessage toLowerCase overrideInput st =
         Awaiting (awaiting_reply overrideInput st)
           (sendMessage (language st) (mode st) text) k
       /\ forall (response : Gemini.GenerateContentResponse) (st' : State)
                 (i : nat) (c : Chat.t),
            chats st' !! i = Some c ->
            exists c',
              chats (state_of (k (Resolved response) st')) !! i = Some c'
              /\ Chat.title c' =
                   match messages st with
                   | [] => if decide (Chat.id c = activeChatId0)
                           then title_of text else Chat.title c
                   | _ :: _ => Chat.title c
                   end.
Proof.
  intros Hactive Hs text. split; [|split; [|split]].
  - destruct (Nat.le_gt_cases (length text) 30) as [H|H].
    + rewrite title_of_short by exact H. lia.
    + destruct (title_of_long text H) as [_ ->]. lia.
  - apply title_of_short.
  - intros H. apply (title_of_long text H).
  - subst text. unfold sendable in Hs. rewrite Hactive in Hs.
    unfold_handlers. cbn. rewrite Hactive, Hs. cbn.
    eexists. split; [reflexivity|].
    intros response st' i c Hc. unfold user_message. cbn.
    rewrite length_app. cbn [length].
    destruct (messages st) as [|m rest]; cbn [length Nat.add Nat.eqb].
    + destruct (wants_image toLowerCase (or_input overrideInput (input st))); cbn.
      all: rewrite !update_chat_lookup, Hc; cbn.
      all: eexists; split; [reflexivity|].
      all: repeat case_decide; cbn in *; try reflexivity; try contradiction.
    + replace (Nat.eqb (length rest + 1) 0) with false
        by (symmetry; apply Nat.eqb_neq; lia).
      destruct (wants_image toLowerCase (or_input overrideInput (input st))); cbn.
      all: rewrite !update_chat_lookup, Hc; cbn.
      all: eexists; split; [reflexivity|].
      all: repeat case_decide; cbn in *; try reflexivity; try contradiction.
Qed.

(** ** Images *)

Lemma first_image_truthy (parts : list Inbound.Part) (url : JSString) :
  Gemini.first_image parts = Some url -> JS.truthy url = true.
Proof.
  induction parts as [|part rest IH]; [discriminate|]. cbn.
  destruct (Inbound.inlineData part); [|exact IH].
  intros [= <-]. reflexivity.
Qed.

(** X11. [generateImage] answers with the first part of the first candidate
    that carries inline data, as a PNG data URL, whatever the parts before
    and after it are, and with [null] when no part carries any; the URL is
    never the empty string.  A response without candidates, without content
    or without parts makes it reject with a TypeError, and a rejection of
    the call is passed on. *)
Theorem generateImage_gives_the_first_inline_part (prompt : JSString) (st : State) :
  exists k,
    generateImage prompt st = Awaiting st (generateContent prompt) k
    /\ (forall (e : Exn) (st' : State), k (Rejected e) st' = Thrown st' e)
    /\ (forall (response : Gemini.GenerateContentResponse) (st' : State),
          match Gemini.candidate_parts response with
          | None => k (Resolved response) st' = Thrown st' TypeError
          | Some parts =>
              exists imageUrl : option JSString,
                k (Resolved response) st' = Returned st' imageUrl
                /\ match imageUrl with
                   | Some url =>
                       JS.truthy url = true
                       /\ exists (i : nat) (part : Inbound.Part) (inline : Inbound.InlineData),
                            parts !! i = Some part
                            /\ Inbound.inlineData part = Some inline
                            /\ (forall (j : nat) (other : Inbound.Part),
                                  (j < i)%nat -> parts !! j = Some other ->
                                  Inbound.inlineData other = None)
                            /\ url = codes "data:image/png;base64,"
                                     ++ match Inbound.data inline with
                                        | Some d => codes d
                                        | None => codes "undefined"
                                        end
                   | None =>
                       forall part, part ∈ parts -> Inbound.inlineData part = None
                   end
          end).
Proof.
  unfold_handlers. cbn. eexists. split; [reflexivity|]. split; [reflexivity|].
  intros response st'. cbn.
  destruct (Gemini.candidate_parts response) as [parts|]; [|reflexivity].
  cbn. eexists. split; [reflexivity|].
  destruct (Gemini.first_image parts) as [url|] eqn:Hfirst.
  - split; [exact (first_image_truthy parts url Hfirst)|].
    revert Hfirst. induction parts as [|part rest IH]; [discriminate|]. cbn.
    destruct (Inbound.inlineData part) as [inline|] eqn:Hinline.
    + intros [= <-]. exists 0%nat, part, inline.
      split; [reflexivity|]. split; [exact Hinline|]. split; [|reflexivity].
      intros j other Hj. lia.
    + intros Hrest. destruct (IH Hrest) as (i & p & inline & Hi & Hp & Hbefore & Hurl).
      exists (S i), p, inline. split; [exact Hi|]. split; [exact Hp|]. split; [|exact Hurl].
      intros [|j] other Hj Hother.
      * injection Hother as <-. exact Hinline.
      * apply (Hbefore j other); [lia|exact Hother].
  - revert Hfirst. induction parts as [|part rest IH]; intros Hfirst p Hp.
    + inversion Hp.
    + cbn in Hfirst. destruct (Inbound.inlineData part) eqn:Hinline; [discriminate|].
      apply elem_of_cons in Hp as [->|Hp]; [exact Hinline|].
      apply IH; assumption.
Qed.

(** X12. When the text asks for an image, the reply is followed by a call to
    [generateImage] with the same text.  If an image comes back, a message
    carrying it is appended to whatever the pane shows at that moment and to
    the messages of the sending chat; if none comes back nothing is added and
    nothing is logged; if the call fails or the response has no parts the
    error is logged and nothing is added.  In every case the loading
    indicator is lowered and no chat other than the sending one is
    touched. *)
Theorem image_is_appended_or_the_failure_logged
    (overrideInput : option JSString) (st : State) (activeChatId0 : Z) :
  activeChatId st = Some activeChatId0 ->
  sendable overrideInput st = true ->
  wants_image toLowerCase (or_input overrideInput (input st)) = true ->
  exists k,
    handleSendMessage toLowerCase overrideInput st =
      Awaiting (awaiting_reply overrideInput st)
        (sendMessage (language st) (mode st) (or_input overrideInput (input st))) k
    /\ forall (response : Gemini.GenerateContentResponse) (st' : State),
       exists st1 k2,
         k (Resolved response) st' =
           Awaiting st1 (generateContent (or_input overrideInput (input st))) k2
         /\ isLoading st1 = isLoading st'
         /\ forall (res : Result Gemini.GenerateContentResponse) (st2 : State),
            exists after,
              k2 res st2 = Returned after tt
              /\ isLoading after = false
              /\ activeChatId after = activeChatId st2
              /\ map Chat.id (chats after) = map Chat.id (chats st2)
              /\ match res with
                 | Rejected e =>
                     console after = console st2 ++ [e]
                     /\ messages after = messages st2 /\ chats after = chats st2
                 | Resolved r =>
                     match Gemini.candidate_parts r with
                     | None =>
                         console after = console st2 ++ [TypeError]
                         /\ messages after = messages st2 /\ chats after = chats st2
                     | Some parts =>
                         console after = console st2
                         /\ match Gemini.first_image parts with
                            | None => messages after = messages st2 /\ chats after = chats st2
                            | Some url =>
                                exists imageMsg : Message.t,
                                  Message.imageUrl imageMsg = Some url
                                  /\ Message.role imageMsg = assistant
                                  /\ Message.content imageMsg =
                                       Some (codes "I've generated this image for you:")
                                  /\ messages after = messages st2 ++ [imageMsg]
                                  /\ forall (i : nat) (c : Chat.t),
                                       chats st2 !! i = Some c ->
                                       exists c',
                                         chats after !! i = Some c'
                                         /\ if decide (Chat.id c = activeChatId0)
                                            then Chat.messages c' = Chat.messages c ++ [imageMsg]
                                            else c' = c
                            end
                     end
                 end.
Proof.
  intros Hactive Hs Himage. unfold sendable in Hs. rewrite Hactive in Hs.
  unfold_handlers. cbn. rewrite Hactive, Hs. cbn.
  eexists. split; [reflexivity|].
  intros response st'. cbn. rewrite Himage. cbn.
  destruct (Nat.eqb (length (messages st ++ [user_message overrideInput st])) 1) eqn:Hlen.
  all: unfold user_message in *; cbn in Hlen |- *; rewrite ?Hlen; cbn.
  all: eexists; eexists; split; [reflexivity|]; split; [reflexivity|].
  all: intros [r|e] st2; cbn.
  all: try (eexists; split; [reflexivity|]; cbn; repeat split; fail).
  all: destruct (Gemini.candidate_parts r) as [parts|]; cbn.
  all: try (eexists; split; [reflexivity|]; cbn; repeat split; fail).
  all: destruct (Gemini.first_image parts) as [url|] eqn:Hfirst; cbn.
  all: try (eexists; split; [reflexivity|]; cbn; repeat split; fail).
  all: rewrite (first_image_truthy parts url Hfirst); cbn.
  all: eexists; split; [reflexivity|]; cbn.
  all: split; [reflexivity|]; split; [reflexivity|].
  all: split; [apply update_chat_ids; reflexivity|].
  all: split; [reflexivity|].
  all: exists {| Message.id := clock st2 (reads st2) + 2; Message.role := assistant;
                 Message.content := Some (codes "I've generated this image for you:");
                 Message.imageUrl := Some url;
                 Message.timestamp := clock st2 (S (reads st2)) |}.
  all: split; [reflexivity|]; split; [reflexivity|]; split; [reflexivity|].
  all: split; [reflexivity|].
  all: intros i c Hc; rewrite update_chat_lookup, Hc; cbn.
  all: eexists; split; [reflexivity|].
  all: case_decide; reflexivity.
Qed.

(** ** The active chat is always one of the chats *)

Lemma active_listed_same (st1 st2 : State) :
  activeChatId st2 = activeChatId st1 ->
  map Chat.id (chats st2) = map Chat.id (chats st1) ->
  active_listed st1 -> active_listed st2.
Proof.
  intros Hactive Hids H id Hid. rewrite Hactive in Hid.
  destruct (H id Hid) as (c & Hc & Hcid).
  assert (Hin : id ∈ map Chat.id (chats st2)).
  { rewrite Hids, <- Hcid. apply (list_elem_of_fmap_2 Chat.id), Hc. }
  apply (list_elem_of_fmap_1 Chat.id) in Hin as (c' & -> & Hc').
  exists c'. split; [exact Hc'|reflexivity].
Qed.

Ltac listed :=
  lazymatch goal with
  | H : active_listed ?st |- active_listed _ =>
      apply (active_listed_same st); [reflexivity| |exact H];
      cbn; rewrite ?update_chat_ids by reflexivity; reflexivity
  end.

Ltac preserves_step :=
  lazymatch goal with
  | |- Preserves _ (Returned _ _) => apply preserves_returned
  | |- Preserves _ (Thrown _ _) => apply preserves_thrown
  | |- Preserves _ (Awaiting _ _ _) =>
      apply preserves_awaiting;
      [| let st' := fresh "st'" in
         let Hst' := fresh "Hst'" in
         intros [?|?] st' Hst'; cbn]
  | |- Preserves _ _ => break_match; cbn
  end.

Lemma handleSendMessage_preserves (overrideInput : option JSString) (st : State) :
  active_listed st ->
  Preserves active_listed (handleSendMessage toLowerCase overrideInput st).
Proof.
  intros Hst. unfold_handlers. cbn.
  repeat preserves_step; try assumption; listed.
Qed.

Lemma startNewChat_preserves (initialMode : Mode) (st : State) :
  Preserves active_listed (startNewChat initialMode st).
Proof.
  unfold_handlers. cbn. apply preserves_returned.
  intros id [= <-]. eexists. split; [apply list_elem_of_here|reflexivity].
Qed.

Lemma deleteChat_preserves (id : Z) (st : State) :
  active_listed st -> Preserves active_listed (deleteChat id st).
Proof.
  intros Hst. unfold_handlers. cbn.
  case_decide as Hactive; cbn; apply preserves_returned.
  - intros id' Hid'. discriminate.
  - intros id' Hid'. cbn in *.
    destruct (Hst id' Hid') as (c & Hc & Hcid).
    exists c. split; [|exact Hcid].
    apply list_elem_of_filter. split; [|exact Hc].
    rewrite Hcid. intros ->. apply Hactive, Hid'.
Qed.

Lemma selectChat_preserves (c : Chat.t) (st : State) :
  c ∈ chats st -> Preserves active_listed (selectChat c st).
Proof.
  intros Hc. unfold_handlers. cbn. apply preserves_returned.
  intros id [= <-]. exists c. split; [exact Hc|reflexivity].
Qed.

Lemma enter_preserves (o : Outcome unit) (l : Loop) :
  Preserves active_listed o ->
  Forall (suspended_preserves active_listed) (pending l) ->
  conversations_ok (enter o l).
Proof.
  intros Ho Hp. destruct Ho; cbn; split; cbn; try assumption.
  apply list.Forall_app. split; [assumption|]. apply Forall_singleton. assumption.
Qed.

Lemma fire_preserves (ev : Event) (l : Loop) :
  conversations_ok l -> conversations_ok (fire toLowerCase ev l).
Proof.
  intros [Hst Hp]. destruct ev as [m| |i|i|value| | |i res| | |code]; unfold fire.
  - destruct m; try (split; assumption);
      apply enter_preserves; try assumption; apply startNewChat_preserves.
  - apply enter_preserves; [apply startNewChat_preserves|assumption].
  - destruct (chats (state l) !! i) as [c|] eqn:Hc; [|split; assumption].
    apply enter_preserves; [|assumption].
    apply selectChat_preserves. eapply list_elem_of_lookup_2, Hc.
  - destruct (chats (state l) !! i) as [c|] eqn:Hc; [|split; assumption].
    apply enter_preserves; [|assumption]. now apply deleteChat_preserves.
  - apply enter_preserves; [|assumption].
    unfold_handlers. apply preserves_returned. listed.
  - apply enter_preserves; [|assumption]. now apply handleSendMessage_preserves.
  - destruct (negb _ || _); [split; assumption|].
    apply enter_preserves; [|assumption]. now apply handleSendMessage_preserves.
  - destruct (pending l !! i) as [[T r k]|] eqn:Hi; [|split; assumption].
    apply enter_preserves; cbn.
    + pose proof (Forall_lookup_1 _ _ _ _ Hp Hi) as Hk. cbn in Hk.
      destruct r; cbn; apply Hk, Hst.
    + now apply Forall_delete.
  - apply enter_preserves; [|assumption].
    unfold_handlers. apply preserves_returned. listed.
  - apply enter_preserves; [|assumption].
    unfold_handlers. apply preserves_returned. listed.
  - apply enter_preserves; [|assumption].
    unfold_handlers. apply preserves_returned. listed.
Qed.

Lemma run_preserves (evs : list Event) (l : Loop) :
  conversations_ok l -> conversations_ok (run toLowerCase evs l).
Proof.
  revert l. induction evs as [|ev evs IH]; intros l Hl; [exact Hl|].
  cbn. apply IH, fire_preserves, Hl.
Qed.

(** X13. Whatever the user does and however the calls settle, the active
    chat, when there is one, is one of the chats of the sidebar: creating,
    selecting and deleting chats, sending messages and receiving replies and
    images, in any order and with any number of calls pending, never leave
    the application on a chat that does not exist. *)
Theorem active_chat_is_always_listed
    (lumina_lang : option JSString) (lumina_chats : list Chat.t) (clock0 : nat -> Z)
    (evs : list Event) :
  let st := state (run toLowerCase evs (mount lumina_lang lumina_chats clock0)) in
  forall id : Z,
    activeChatId st = Some id -> exists c : Chat.t, c ∈ chats st /\ Chat.id c = id.
Proof.
  apply (run_preserves evs (mount lumina_lang lumina_chats clock0)).
  split; [|apply Forall_nil_2].
  intros id Hid. discriminate.
Qed.

(** ** Creating and deleting chats *)

Lemma filter_all {A : Type} (P : A -> Prop) `{forall x, Decision (P x)} (l : list A) :
  (forall x, x ∈ l -> P x) -> filter P l = l.
Proof.
  induction l as [|x l IH]; intros Hl; [reflexivity|].
  rewrite filter_cons_True by (apply Hl, list_elem_of_here).
  f_equal. apply IH. intros y Hy. apply Hl. now apply list_elem_of_further.
Qed.

(** X14. A new chat goes to the head of the list, empty, entitled New
    Conversation, and becomes the active one.  Deleting it then brings the
    application home with no active chat and takes out of the list every
    chat that bears its id: the list that was there before comes back
    exactly when none of its chats had been created at the same reading of
    the clock. *)
Theorem new_chat_then_delete (initialMode : Mode) (st : State) :
  let id := clock st (reads st) in
  exists created deleted,
    startNewChat initialMode st = Returned created tt
    /\ deleteChat id created = Returned deleted tt
    /\ (exists newChat,
          chats created = newChat :: chats st
          /\ Chat.id newChat = id
          /\ Chat.title newChat = codes "New Conversation"
          /\ Chat.mode newChat = initialMode
          /\ Chat.messages newChat = [])
    /\ activeChatId created = Some id
    /\ messages created = []
    /\ mode created = initialMode
    /\ chats deleted = filter (fun c => Chat.id c <> id) (chats st)
    /\ activeChatId deleted = None
    /\ messages deleted = []
    /\ mode deleted = home
    /\ ((forall c, c ∈ chats st -> Chat.id c <> id) -> chats deleted = chats st).
Proof.
  intros id. unfold_handlers. cbn.
  eexists. eexists. split; [reflexivity|]. cbn.
  rewrite decide_True by reflexivity. cbn. split; [reflexivity|].
  split; [eexists; repeat split|].
  subst id. rewrite decide_False by (intros Hne; now apply Hne). cbn.
  repeat split.
  intros Hfresh. now apply filter_all.
Qed.

(** ** Two sends in flight *)

Lemma send_plain (overrideInput : option JSString) (st : State) (activeChatId0 : Z) :
  activeChatId st = Some activeChatId0 ->
  sendable overrideInput st = true ->
  wants_image toLowerCase (or_input overrideInput (input st)) = false ->
  exists k,
    handleSendMessage toLowerCase overrideInput st =
      Awaiting (awaiting_reply overrideInput st)
        (sendMessage (language st) (mode st) (or_input overrideInput (input st))) k
    /\ forall (response : Gemini.GenerateContentResponse) (st' : State),
         let updatedMessages := messages st ++ [user_message overrideInput st] in
         let assistantMsg :=
           {| Message.id := clock st' (reads st') + 1; Message.role := assistant;
              Message.content := Gemini.text response; Message.imageUrl := None;
              Message.timestamp := clock st' (S (reads st')) |} in
         k (Resolved response) st' =
           Returned
             (with_isLoading false
                (with_chats
                   (update_chat activeChatId0
                      (Chat.with_messages (updatedMessages ++ [assistantMsg]))
                      (match messages st with
                       | [] =>
                           update_chat activeChatId0
                             (Chat.with_title
                                (title_of (or_input overrideInput (input st))))
                             (chats st')
                       | _ :: _ => chats st'
                       end))
                   (with_messages (updatedMessages ++ [assistantMsg])
                      (with_reads (S (S (reads st'))) st')))) tt.
Proof.
  intros Hactive Hs Himage. unfold sendable in Hs. rewrite Hactive in Hs.
  unfold_handlers. cbn. rewrite Hactive, Hs. cbn.
  eexists. split; [reflexivity|].
  intros response st'. cbn. rewrite Himage. unfold user_message.
  rewrite length_app. cbn [length].
  destruct (messages st) as [|m rest]; cbn [length Nat.add Nat.eqb].
  - reflexivity.
  - replace (Nat.eqb (length rest + 1) 0) with false
      by (symmetry; apply Nat.eqb_neq; lia).
    reflexivity.
Qed.

Lemma run_app (evs1 evs2 : list Event) (l : Loop) :
  run toLowerCase (evs1 ++ evs2) l = run toLowerCase evs2 (run toLowerCase evs1 l).
Proof. unfold run. apply foldl_app. Qed.

Ltac tick :=
  cbn [enter app state pending unhandled lookup list_lookup delete list_delete resume].

(** X15. Two sends in flight overwrite each other.  When a second message
    is sent before the reply to the first has come, the first reply, on
    arrival, takes the second message off the pane; the second reply then
    sets the pane and the messages of the chat to the conversation as it
    stood at the second send followed by that reply, so that the first reply
    is in neither. *)
Theorem overlapping_sends_lose_the_first_reply
    (l : Loop) (activeChatId0 : Z) (second : JSString)
    (reply1 reply2 : Gemini.GenerateContentResponse) :
  pending l = [] ->
  activeChatId (state l) = Some activeChatId0 ->
  JS.truthy (JS.trim (input (state l))) = true ->
  JS.truthy (JS.trim second) = true ->
  wants_image toLowerCase (input (state l)) = false ->
  wants_image toLowerCase second = false ->
  let first := input (state l) in
  let before := messages (state l) in
  let l4 := run toLowerCase (take 4 (overlapping_sends second reply1 reply2)) l in
  let l5 := run toLowerCase (overlapping_sends second reply1 reply2) l in
  exists u1 u2 a1 a2 : Message.t,
    Message.role u1 = user /\ Message.content u1 = Some first
    /\ Message.role u2 = user /\ Message.content u2 = Some second
    /\ Message.role a1 = assistant /\ Message.content a1 = Gemini.text reply1
    /\ Message.role a2 = assistant /\ Message.content a2 = Gemini.text reply2
    /\ messages (state l4) = before ++ [u1; a1]
    /\ length (pending l4) = 1%nat
    /\ messages (state l5) = before ++ [u1; u2; a2]
    /\ pending l5 = []
    /\ unhandled l5 = unhandled l
    /\ isLoading (state l5) = false
    /\ forall (i : nat) (c : Chat.t),
         chats (state l) !! i = Some c ->
         exists c',
           chats (state l5) !! i = Some c'
           /\ if decide (Chat.id c = activeChatId0)
              then Chat.messages c' = before ++ [u1; u2; a2]
              else c' = c.
Proof.
  destruct l as [st p u]. cbn [state pending unhandled].
  intros -> Hactive Hfirst Hsecond Hplain1 Hplain2. cbv zeta.
  destruct (send_plain None st activeChatId0 Hactive) as (k1 & Hk1 & Hreply1).
  { unfold sendable. now rewrite Hactive. }
  { exact Hplain1. }
  set (st2 := with_input second (awaiting_reply None st)).
  destruct (send_plain None st2 activeChatId0 Hactive) as (k2 & Hk2 & Hreply2).
  { unfold sendable. cbn. now rewrite Hactive. }
  { exact Hplain2. }
  eassert (Hrun4 : run toLowerCase (take 4 (overlapping_sends second reply1 reply2))
                     {| state := st; pending := []; unhandled := u |} = _).
  { unfold overlapping_sends, run. cbn [take foldl].
    unfold fire at 4. cbn [state]. rewrite Hk1. tick.
    unfold fire at 3. tick. unfold setInput, write. tick. fold st2.
    unfold fire at 2. tick. rewrite Hk2. tick.
    unfold fire. tick. rewrite Hreply1. tick. reflexivity. }
  eassert (Hrun5 : run toLowerCase (overlapping_sends second reply1 reply2)
                     {| state := st; pending := []; unhandled := u |} = _).
  { change (overlapping_sends second reply1 reply2)
      with (take 4 (overlapping_sends second reply1 reply2)
            ++ [settled 0 (Resolved reply2)]).
    rewrite run_app, Hrun4. unfold run. cbn [foldl]. unfold fire. tick. rewrite Hreply2. tick.
    reflexivity. }
  rewrite Hrun4, Hrun5. clear Hrun4 Hrun5 Hk1 Hk2 Hreply1 Hreply2.
  cbn [state pending unhandled].
  exists (user_message None st), (user_message None st2),
    {| Message.id := clock st (4 + reads st) + 1; Message.role := assistant;
       Message.content := Gemini.text reply1; Message.imageUrl := None;
       Message.timestamp := clock st (5 + reads st) |},
    {| Message.id := clock st (6 + reads st) + 1; Message.role := assistant;
       Message.content := Gemini.text reply2; Message.imageUrl := None;
       Message.timestamp := clock st (7 + reads st) |}.
  split; [reflexivity|]. split; [reflexivity|].
  split; [reflexivity|]. split; [reflexivity|].
  split; [reflexivity|]. split; [reflexivity|].
  split; [reflexivity|]. split; [reflexivity|].
  split; [cbn; rewrite <- app_assoc; reflexivity|].
  split; [reflexivity|].
  split; [cbn; rewrite <- !app_assoc; reflexivity|].
  split; [reflexivity|]. split; [reflexivity|]. split; [reflexivity|].
  intros i c Hc. cbn.
  destruct (messages st) as [|m rest] eqn:Hm; cbn.
  all: rewrite !update_chat_lookup, Hc; cbn.
  all: eexists; split; [reflexivity|].
  all: repeat case_decide; cbn in *; rewrite <- ?app_assoc; cbn;
       try reflexivity; try contradiction.
Qed.

End Conversations.

Section ConversationExamples.

Import Conversation.

Lemma reply_is_filed_under_the_sending_chat_witness :
  let st := state (typed (codes "hello")) in
  let reply := {| Gemini.text := Some (codes "hi"); Gemini.candidates := None |} in
  exists k,
    handleSendMessage JS.toLowerCase_ascii None st =
      Awaiting (awaiting_reply None st)
        (sendMessage (Some (codes "English")) chat (codes "hello")) k
    /\ map Message.content
         (messages (state_of (k (Resolved reply) (awaiting_reply None st))))
       = [Some (codes "hello"); Some (codes "hi")].
Proof.
  intros st reply.
  destruct (reply_is_filed_under_the_sending_chat JS.toLowerCase_ascii None st
              1700000000000 eq_refl eq_refl)
    as (k & Hk & _ & _ & Hafter).
  exists k. split; [exact Hk|].
  destruct (Hafter reply (awaiting_reply None st)) as (a & _ & Hcontent & _ & Hm & _).
  rewrite Hm. change (messages st) with (@nil Message.t).
  cbn [app map]. rewrite Hcontent. reflexivity.
Defined.

Lemma failed_send_is_logged_and_stores_nothing_witness :
  let st := state (typed (codes "hello")) in
  exists k,
    handleSendMessage JS.toLowerCase_ascii None st =
      Awaiting (awaiting_reply None st)
        (sendMessage (Some (codes "English")) chat (codes "hello")) k
    /\ length (messages (state_of (k (Rejected TypeError) (awaiting_reply None st)))) = 1%nat
    /\ map Chat.messages (chats (state_of (k (Rejected TypeError) (awaiting_reply None st))))
       = [[]].
Proof.
  intros st.
  destruct (failed_send_is_logged_and_stores_nothing JS.toLowerCase_ascii None st eq_refl)
    as (k & Hk & _ & Hafter).
  exists k. split; [exact Hk|].
  destruct (Hafter TypeError) as (Hm & Hc & _).
  split; [rewrite Hm; reflexivity|rewrite Hc; reflexivity].
Defined.

Lemma title_comes_from_the_first_message_witness :
  let text := codes "tell me everything about wolves and the moon" in
  title_of text = codes "tell me everything about wolve..."
  /\ (length (title_of text) <= 33)%nat.
Proof.
  intros text.
  destruct (title_comes_from_the_first_message JS.toLowerCase_ascii None
              (state (typed text)) 1700000000000 eq_refl eq_refl)
    as (Hlen & _ & Hlong & _).
  split; [|exact Hlen].
  refine (eq_trans (Hlong _) _); [vm_compute; lia|reflexivity].
Defined.

Lemma image_is_appended_or_the_failure_logged_witness :
  let st := state (typed (codes "Draw a wolf")) in
  exists k,
    handleSendMessage JS.toLowerCase_ascii None st =
      Awaiting (awaiting_reply None st)
        (sendMessage (Some (codes "English")) chat (codes "Draw a wolf")) k
    /\ exists st1 k2,
         k (Resolved {| Gemini.text := None; Gemini.candidates := None |})
           (awaiting_reply None st)
         = Awaiting st1 (generateContent (codes "Draw a wolf")) k2.
Proof.
  intros st.
  destruct (image_is_appended_or_the_failure_logged JS.toLowerCase_ascii None st
              1700000000000 eq_refl eq_refl eq_refl)
    as (k & Hk & Hafter).
  exists k. split; [exact Hk|].
  destruct (Hafter {| Gemini.text := None; Gemini.candidates := None |}
              (awaiting_reply None st)) as (st1 & k2 & Hk2 & _).
  exists st1, k2. exact Hk2.
Defined.

Lemma active_chat_is_always_listed_witness :
  exists c : Chat.t,
    c ∈ chats (state (typed (codes "hello"))) /\ Chat.id c = 1700000000000.
Proof.
  apply (active_chat_is_always_listed JS.toLowerCase_ascii (Some (codes "English")) []
           (fun n => 1700000000000 + Z.of_nat n)
           [click_new_chat; change_input (codes "hello")]).
  reflexivity.
Defined.

Lemma overlapping_sends_lose_the_first_reply_witness :
  let reply1 := {| Gemini.text := Some (codes "one"); Gemini.candidates := None |} in
  let reply2 := {| Gemini.text := Some (codes "two"); Gemini.candidates := None |} in
  exists u1 u2 a2 : Message.t,
    messages
      (state (run JS.toLowerCase_ascii (overlapping_sends (codes "again") reply1 reply2)
                (typed (codes "hello"))))
    = [u1; u2; a2]
    /\ Message.content a2 = Some (codes "two").
Proof.
  intros reply1 reply2.
  destruct (overlapping_sends_lose_the_first_reply JS.toLowerCase_ascii
              (typed (codes "hello")) 1700000000000 (codes "again") reply1 reply2
              eq_refl eq_refl eq_refl eq_refl eq_refl eq_refl)
    as (u1 & u2 & a1 & a2 & _ & _ & _ & _ & _ & _ & _ & Ha2 & _ & _ & Hm & _).
  exists u1, u2, a2. split; [exact Hm|exact Ha2].
Defined.

End ConversationExamples.

(** * The typewriter *)

Section TypewriterFacts.

Import Typewriter.

Lemma typewriter_step (text : JSString) (onComplete : bool) (n : nat) :
  (n <= length text)%nat ->
  Nat.iter n (timeout text onComplete) (mount text onComplete)
  = {| displayed := take n text; index := n; timer := (n <? length text)%nat;
       completed := (if onComplete && (length text <=? n)%nat then 1 else 0)%nat |}.
Proof.
  induction n as [|n IH]; intros Hn.
  - unfold mount, effect. cbn.
    destruct onComplete, text as [|c text]; reflexivity.
  - rewrite Nat.iter_succ, IH by lia. unfold timeout. cbn [timer displayed index completed].
    destruct (Nat.ltb_spec n (length text)) as [Hlt|]; [|lia].
    unfold char_at.
    destruct (text !! n) as [c|] eqn:Hcn;
      [|apply lookup_ge_None in Hcn; lia].
    assert (Htake : take n text ++ [c] = take (S n) text)
      by (symmetry; now apply take_S_r).
    rewrite Htake.
    replace (onComplete && (length text <=? n)%nat) with false
      by (symmetry; rewrite andb_false_iff; right; apply Nat.leb_gt; lia).
    unfold effect. cbn [displayed index timer completed].
    destruct (Nat.ltb_spec (S n) (length text)) as [Hlt'|Hge'].
    + replace (onComplete && (length text <=? S n)%nat) with false
        by (symmetry; rewrite andb_false_iff; right; apply Nat.leb_gt; lia).
      reflexivity.
    + replace (length text <=? S n)%nat with true by (symmetry; apply Nat.leb_le; lia).
      destruct onComplete; reflexivity.
Qed.

Lemma typewriter_done (text : JSString) (onComplete : bool) (extra : nat) :
  Nat.iter (length text + extra) (timeout text onComplete) (mount text onComplete)
  = Nat.iter (length text) (timeout text onComplete) (mount text onComplete).
Proof.
  induction extra as [|extra IH]; [now rewrite Nat.add_0_r|].
  rewrite Nat.add_succ_r, Nat.iter_succ, IH.
  rewrite typewriter_step by lia.
  unfold timeout. cbn [timer]. now rewrite Nat.ltb_irrefl.
Qed.

End TypewriterFacts.

(** X16. The typewriter shows, after [n] timeouts, the first [n] code units
    of the text, with the cursor after them; after as many timeouts as the
    text has code units it shows the whole text, arms no further timeout,
    hides the cursor, and has called [onComplete], when there is one, exactly
    once. *)
Theorem typewriter_types_the_text (text : JSString) (onComplete : bool) (n : nat) :
  let st := Nat.iter n (Typewriter.timeout text onComplete)
              (Typewriter.mount text onComplete) in
  Typewriter.displayed st = take n text
  /\ Typewriter.index st = Nat.min n (length text)
  /\ Typewriter.timer st = (n <? length text)%nat
  /\ Typewriter.cursor text st = (n <? length text)%nat
  /\ Typewriter.completed st
     = (if onComplete && (length text <=? n)%nat then 1 else 0)%nat.
Proof.
  intros st. subst st.
  destruct (Nat.le_gt_cases n (length text)) as [Hle|Hgt].
  - rewrite typewriter_step by exact Hle.
    unfold Typewriter.cursor. cbn. repeat split. lia.
  - assert (Hst : Nat.iter n (Typewriter.timeout text onComplete)
                    (Typewriter.mount text onComplete)
                  = Nat.iter (length text) (Typewriter.timeout text onComplete)
                      (Typewriter.mount text onComplete)).
    { replace n with (length text + (n - length text))%nat by lia.
      apply typewriter_done. }
    rewrite Hst, typewriter_step by lia.
    unfold Typewriter.cursor. cbn [Typewriter.displayed Typewriter.index
                                     Typewriter.timer Typewriter.completed].
    rewrite !take_ge by lia.
    rewrite Nat.ltb_irrefl, Nat.leb_refl.
    replace (n <? length text)%nat with false by (symmetry; apply Nat.ltb_ge; lia).
    replace (length text <=? n)%nat with true by (symmetry; apply Nat.leb_le; lia).
    repeat split. lia.
Qed.

(** * The visualizers *)

Section VisualizerFacts.

Import Visualizer.

Lemma normalized_length (dataArray : list Z) :
  length (normalized dataArray) = Nat.min 20 (length dataArray).
Proof. unfold normalized. now rewrite length_map, length_take. Qed.

Lemma normalized_lookup (dataArray : list Z) (i : nat) (v : Z) :
  (i < 20)%nat -> dataArray !! i = Some v ->
  normalized dataArray !! i = Some (Double.div v 255).
Proof.
  intros Hi Hv. unfold normalized.
  rewrite list_lookup_fmap, lookup_take_lt by exact Hi. now rewrite Hv.
Qed.

(** Each of the 256 bytes, tested. *)
Lemma bytes_tested :
  forallb (fun n => is_level_of (Z.of_nat n) (Double.div (Z.of_nat n) 255)) (seq 0 256) = true.
Proof. vm_compute. reflexivity. Qed.

Lemma Qle_bool_false (a b : Q) : Qle_bool a b = false -> (b < a)%Q.
Proof.
  intros H. apply Qnot_le_lt. intros Hle. apply Qle_bool_iff in Hle. congruence.
Qed.

Lemma is_level_of_sound (v : Z) (x : Q) : is_level_of v x = true -> level_of v x.
Proof.
  unfold is_level_of, level_of. intros H.
  apply andb_prop in H as [H Hrest]. apply andb_prop in H as [H0 H1].
  apply Qle_bool_iff in H0, H1.
  split; [exact H0|]. split; [exact H1|].
  destruct (Z.eqb_spec v 0) as [->|Hne0].
  { apply Qeq_bool_iff in Hrest. split; [intros _; exact Hrest|]. split; intros; lia. }
  destruct (Z.eqb_spec v 255) as [->|Hne255].
  { apply Qeq_bool_iff in Hrest. split; [intros; lia|]. split; [intros _; exact Hrest|].
    intros; lia. }
  split; [intros; lia|]. split; [intros; lia|]. intros _.
  apply andb_prop in Hrest as [Hrest Hhi]. apply andb_prop in Hrest as [Hrest Hlo].
  apply andb_prop in Hrest as [Hrest Heq]. apply andb_prop in Hrest as [Hm1 Hm2].
  exists (Qnum x), (Z.log2 (Z.pos (Qden x))).
  split; [lia|]. split; [apply Z.log2_nonneg|].
  split; [now apply Qeq_bool_iff|].
  split; apply Qle_bool_false; now apply negb_true_iff.
Qed.

Lemma level_of_byte (v : Z) : 0 <= v <= 255 -> level_of v (Double.div v 255).
Proof.
  intros Hv. apply is_level_of_sound.
  pose proof bytes_tested as H. rewrite forallb_forall in H.
  rewrite <- (Z2Nat.id v) by lia. apply H, in_seq. lia.
Qed.

Lemma normalized_range (dataArray : list Z) :
  Forall (fun v => (0 <= v <= 255)%Z) dataArray ->
  Forall (fun x => (0 <= x)%Q /\ (x <= 1)%Q) (normalized dataArray).
Proof.
  intros H. unfold normalized. apply Forall_map.
  apply Forall_take. eapply list.Forall_impl; [exact H|].
  intros v Hv. destruct (level_of_byte v Hv) as (H0 & H1 & _). split; assumption.
Qed.

End VisualizerFacts.

(** X17. Every frame in which the audio context is not closed replaces both
    visualizer arrays by the levels of the first 20 frequency bytes, each
    the double that [v / 255] computes: with the 32 bins of the analysers the
    arrays keep exactly 20 entries, each between 0 and 1, the level of a
    byte being 0 for 0, 1 for 255 and otherwise the double nearest to the
    quotient; and one further frame is requested.  A frame that finds the
    context closed changes nothing and requests nothing, so that the loop
    ends there. *)
Theorem visualizers_hold_twenty_levels
    (audioContext_state : ContextState) (dataArray outputDataArray : list Z)
    (st : Visualizer.State) :
  length dataArray = Visualizer.frequencyBinCount ->
  length outputDataArray = Visualizer.frequencyBinCount ->
  Forall (fun v => (0 <= v <= 255)%Z) dataArray ->
  Forall (fun v => (0 <= v <= 255)%Z) outputDataArray ->
  Visualizer.requested st = 1%nat ->
  let st' := Visualizer.frame audioContext_state dataArray outputDataArray st in
  match audioContext_state with
  | running =>
      length (Visualizer.liveVisualizerData st') = 20%nat
      /\ length (Visualizer.luminaVisualizerData st') = 20%nat
      /\ Forall (fun x => (0 <= x)%Q /\ (x <= 1)%Q) (Visualizer.liveVisualizerData st')
      /\ Forall (fun x => (0 <= x)%Q /\ (x <= 1)%Q) (Visualizer.luminaVisualizerData st')
      /\ (forall (i : nat) (v : Z),
            (i < 20)%nat -> dataArray !! i = Some v ->
            exists x, Visualizer.liveVisualizerData st' !! i = Some x
                      /\ Visualizer.level_of v x)
      /\ (forall (i : nat) (v : Z),
            (i < 20)%nat -> outputDataArray !! i = Some v ->
            exists x, Visualizer.luminaVisualizerData st' !! i = Some x
                      /\ Visualizer.level_of v x)
      /\ Visualizer.requested st' = 1%nat
  | closed =>
      Visualizer.liveVisualizerData st' = Visualizer.liveVisualizerData st
      /\ Visualizer.luminaVisualizerData st' = Visualizer.luminaVisualizerData st
      /\ Visualizer.requested st' = 0%nat
      /\ forall d o, Visualizer.frame running d o st' = st'
  end.
Proof.
  intros Hd Ho Hbytes Hobytes Hreq. unfold Visualizer.frame. rewrite Hreq.
  destruct audioContext_state; cbn.
  - rewrite !normalized_length, Hd, Ho.
    split; [reflexivity|]. split; [reflexivity|].
    split; [now apply normalized_range|]. split; [now apply normalized_range|].
    split; [|split; [|reflexivity]].
    + intros i v Hi Hv. exists (Double.div v 255).
      split; [now apply normalized_lookup|].
      apply level_of_byte. rewrite list.Forall_forall in Hbytes.
      apply Hbytes. eapply list_elem_of_lookup_2, Hv.
    + intros i v Hi Hv. exists (Double.div v 255).
      split; [now apply normalized_lookup|].
      apply level_of_byte. rewrite list.Forall_forall in Hobytes.
      apply Hobytes. eapply list_elem_of_lookup_2, Hv.
  - repeat split.
Qed.

Lemma visualizers_hold_twenty_levels_witness :
  let st' := Visualizer.frame running (repeat 51%Z 32) (repeat 0%Z 32) Visualizer.started in
  length (Visualizer.liveVisualizerData st') = 20%nat
  /\ (exists x, Visualizer.liveVisualizerData st' !! 0%nat = Some x
                /\ Visualizer.level_of 51 x)
  /\ Visualizer.requested st' = 1%nat.
Proof.
  intros st'.
  pose proof (visualizers_hold_twenty_levels running (repeat 51%Z 32) (repeat 0%Z 32)
                Visualizer.started eq_refl eq_refl) as H.
  destruct H as (Hlen & _ & _ & _ & Hlevel & _ & Hreq).
  - apply list.Forall_forall. intros v Hv. apply list_elem_of_In, repeat_spec in Hv. lia.
  - apply list.Forall_forall. intros v Hv. apply list_elem_of_In, repeat_spec in Hv. lia.
  - reflexivity.
  - split; [exact Hlen|]. split; [|exact Hreq].
    apply (Hlevel 0%nat 51); [lia|reflexivity].
Defined.

(** * The games *)

Section HighScoreFacts.

Import HighScores.

Local Open Scope Z_scope.

Lemma set_score_same (game : string) (score : Z) (prev : string -> option Z) :
  set_score game score prev game = Some score.
Proof. unfold set_score. now rewrite String.eqb_refl. Qed.

Lemma set_score_other (game g : string) (score : Z) (prev : string -> option Z) :
  g <> game -> set_score game score prev g = prev g.
Proof.
  intros Hg. unfold set_score.
  destruct (String.eqb_spec g game); [contradiction|reflexivity].
Qed.

Lemma update_other (game g : string) (score : Z) (lowerIsBetter : bool) (st : State) :
  g <> game ->
  highScores (updateHighScore game score lowerIsBetter st) g = highScores st g.
Proof.
  intros Hg. unfold updateHighScore.
  destruct (match highScores st game with Some _ => _ | None => _ end); [|reflexivity].
  cbn. now apply set_score_other.
Qed.

Lemma update_stored (game : string) (score : Z) (lowerIsBetter : bool) (st : State) :
  let st' := updateHighScore game score lowerIsBetter st in
  (st' = st \/ stored st' = Some (highScores st'))
  /\ (stored st = Some (highScores st) -> stored st' = Some (highScores st')).
Proof.
  unfold updateHighScore.
  destruct (match highScores st game with Some _ => _ | None => _ end); cbn; auto.
Qed.

Lemma report_cons (game : string) (lowerIsBetter : bool) (score : Z) (scores : list Z)
    (st : State) :
  report game lowerIsBetter (score :: scores) st
  = report game lowerIsBetter scores (updateHighScore game score lowerIsBetter st).
Proof. reflexivity. Qed.

Lemma report_from (game : string) (lowerIsBetter : bool) (scores : list Z) :
  forall (st : State) (current : Z),
    highScores st game = Some current ->
    exists best,
      highScores (report game lowerIsBetter scores st) game = Some best
      /\ (In best scores \/ best = current)
      /\ (forall s, In s scores -> if lowerIsBetter then best <= s else s <= best)
      /\ (if lowerIsBetter then best <= current else current <= best).
Proof.
  induction scores as [|score scores IH]; intros st current Hcur.
  - exists current. split; [exact Hcur|]. split; [now right|].
    split; [intros s []|destruct lowerIsBetter; lia].
  - rewrite report_cons.
    unfold updateHighScore. cbv zeta. rewrite Hcur.
    destruct lowerIsBetter.
    + destruct (Z.ltb_spec score current) as [Hlt|Hge].
      * destruct (IH {| highScores := set_score game score (highScores st);
                        stored := Some (set_score game score (highScores st)) |} score)
          as (best & Hbest & Hin & Hall & Hle); [apply set_score_same|].
        exists best. split; [exact Hbest|]. split; [|split].
        -- left. destruct Hin as [Hin| ->]; [now right|now left].
        -- intros s [<-|Hs]; [exact Hle|now apply Hall].
        -- lia.
      * destruct (IH st current Hcur) as (best & Hbest & Hin & Hall & Hle).
        exists best. split; [exact Hbest|]. split; [|split].
        -- destruct Hin as [Hin| ->]; [left; now right|now right].
        -- intros s [<-|Hs]; [lia|now apply Hall].
        -- exact Hle.
    + destruct (Z.ltb_spec current score) as [Hlt|Hge].
      * destruct (IH {| highScores := set_score game score (highScores st);
                        stored := Some (set_score game score (highScores st)) |} score)
          as (best & Hbest & Hin & Hall & Hle); [apply set_score_same|].
        exists best. split; [exact Hbest|]. split; [|split].
        -- left. destruct Hin as [Hin| ->]; [now right|now left].
        -- intros s [<-|Hs]; [exact Hle|now apply Hall].
        -- lia.
      * destruct (IH st current Hcur) as (best & Hbest & Hin & Hall & Hle).
        exists best. split; [exact Hbest|]. split; [|split].
        -- destruct Hin as [Hin| ->]; [left; now right|now right].
        -- intros s [<-|Hs]; [lia|now apply Hall].
        -- exact Hle.
Qed.

Lemma report_other (game g : string) (lowerIsBetter : bool) (scores : list Z) (st : State) :
  g <> game -> highScores (report game lowerIsBetter scores st) g = highScores st g.
Proof.
  intros Hg. revert st. induction scores as [|score scores IH]; intros st; [reflexivity|].
  rewrite report_cons.
  rewrite IH. now apply update_other.
Qed.

Lemma report_stored (game : string) (lowerIsBetter : bool) (scores : list Z) (st : State) :
  stored st = Some (highScores st) ->
  stored (report game lowerIsBetter scores st)
  = Some (highScores (report game lowerIsBetter scores st)).
Proof.
  revert st. induction scores as [|score scores IH]; intros st Hst; [exact Hst|].
  rewrite report_cons.
  apply IH. now apply update_stored.
Qed.

(** X18. Of the scores reported for a game, [updateHighScore] keeps the
    best: the highest, or the lowest when lower is better.  After any
    sequence of reports the record of the game is one of the scores reported
    or the record there was before, it is at least as good as each of them,
    the records of the other games are untouched, and a state that agreed
    with what is saved in [localStorage] still agrees with it. *)
Theorem high_score_is_the_best_reported
    (game : string) (lowerIsBetter : bool) (scores : list Z) (st : State) :
  scores <> [] ->
  let st' := report game lowerIsBetter scores st in
  (exists best,
      highScores st' game = Some best
      /\ (In best scores \/ highScores st game = Some best)
      /\ (forall s, In s scores -> if lowerIsBetter then best <= s else s <= best)
      /\ (forall current, highScores st game = Some current ->
            if lowerIsBetter then best <= current else current <= best))
  /\ (forall g, g <> game -> highScores st' g = highScores st g)
  /\ (stored st = Some (highScores st) -> stored st' = Some (highScores st')).
Proof.
  intros Hscores st'. subst st'. split; [|split].
  - destruct (highScores st game) as [current|] eqn:Hcur.
    + destruct (report_from game lowerIsBetter scores st current Hcur)
        as (best & Hbest & Hin & Hall & Hle).
      exists best. split; [exact Hbest|]. split; [|split].
      * destruct Hin as [Hin| ->]; [now left|now right].
      * exact Hall.
      * intros c [= <-]. exact Hle.
    + destruct scores as [|score scores]; [contradiction|].
      rewrite report_cons.
      unfold updateHighScore. cbv zeta. rewrite Hcur.
      destruct (report_from game lowerIsBetter scores
                  {| highScores := set_score game score (highScores st);
                     stored := Some (set_score game score (highScores st)) |} score)
        as (best & Hbest & Hin & Hall & Hle); [apply set_score_same|].
      exists best. split; [exact Hbest|]. split; [|split].
      * left. destruct Hin as [Hin| ->]; [now right|now left].
      * intros s [<-|Hs]; [exact Hle|now apply Hall].
      * intros c [=].
  - intros g Hg. now apply report_other.
  - apply report_stored.
Qed.

End HighScoreFacts.

Lemma high_score_is_the_best_reported_witness :
  HighScores.highScores
    (HighScores.report "memory" true [12; 9; 15]%Z HighScores.empty) "memory"%string
  = Some 9%Z.
Proof.
  destruct (high_score_is_the_best_reported "memory" true [12; 9; 15]%Z HighScores.empty)
    as ((best & Hbest & Hin & Hall & _) & _); [discriminate|].
  rewrite Hbest. f_equal.
  pose proof (Hall 9%Z (or_intror (or_introl eq_refl))) as H9. cbn in H9.
  destruct Hin as [[<-|[<-|[<-|[]]]]|Hnone]; [lia|reflexivity|lia|discriminate Hnone].
Defined.

(** X19. The score of a Wordle win is the number of guesses, and [Games]
    reports it with higher as better: a win in more guesses replaces the
    record of a win in fewer, and a win in fewer guesses never replaces the
    record of a win in more.  For the memory game, reported with lower as
    better, it is the other way round. *)
Theorem wordle_record_is_the_most_guesses (st : HighScores.State) (record score : Z) :
  HighScores.highScores st "wordle"%string = Some record ->
  HighScores.highScores (HighScores.onWin_wordle score st) "wordle"%string
  = Some (Z.max record score)
  /\ (HighScores.highScores st "memory"%string = Some record ->
      HighScores.highScores (HighScores.onWin_memory score st) "memory"%string
      = Some (Z.min record score)).
Proof.
  intros Hw. split; [|intros Hm].
  - unfold HighScores.onWin_wordle, HighScores.updateHighScore. cbv zeta. rewrite Hw.
    destruct (Z.ltb_spec record score); cbn [HighScores.highScores].
    + rewrite set_score_same. f_equal. lia.
    + rewrite Hw. f_equal. lia.
  - unfold HighScores.onWin_memory, HighScores.updateHighScore. cbv zeta. rewrite Hm.
    destruct (Z.ltb_spec score record); cbn [HighScores.highScores].
    + rewrite set_score_same. f_equal. lia.
    + rewrite Hm. f_equal. lia.
Qed.

Lemma wordle_record_is_the_most_guesses_witness :
  HighScores.highScores
    (HighScores.onWin_wordle 6 (HighScores.onWin_wordle 2 HighScores.empty)) "wordle"%string
  = Some 6%Z.
Proof.
  destruct (wordle_record_is_the_most_guesses
              (HighScores.onWin_wordle 2 HighScores.empty) 2 6 eq_refl) as [H _].
  exact H.
Defined.

Section WordleFacts.

Import Wordle.

Local Open Scope Z_scope.

Lemma removelast_Forall {A : Type} (P : A -> Prop) (l : list A) :
  Forall P l -> Forall P (removelast l).
Proof.
  induction 1 as [|x l Hx Hl IH]; [constructor|].
  cbn. destruct l; [constructor|]. constructor; assumption.
Qed.

Lemma removelast_length_le {A : Type} (l : list A) :
  (length (removelast l) <= length l)%nat.
Proof.
  induction l as [|x l IH]; [reflexivity|].
  cbn [removelast]. destruct l; cbn [length] in *; lia.
Qed.

Lemma word_length (len random : nat) (possibleWords : list JSString) (word : JSString) :
  wordsByLength len = Some possibleWords ->
  possibleWords !! random = Some word ->
  length word = len.
Proof.
  intros Hwords Hword.
  destruct len as [|[|[|[|[|[|[|len]]]]]]]; try discriminate Hwords.
  all: injection Hwords as <-.
  all: destruct random as [|[|[|[|[|[|[|[|random]]]]]]]]; try discriminate Hword.
  all: injection Hword as <-; reflexivity.
Qed.

Lemma letter_uppercase (c : Z) : is_letter c = true -> 65 <= letter_toUpperCase c <= 90.
Proof.
  unfold is_letter, letter_toUpperCase. intros H.
  destruct ((97 <=? c) && (c <=? 122)) eqn:Hlow; lia.
Qed.

Lemma handleKeyDown_ok (key : JSString) (st : State) : ok st -> ok (handleKeyDown key st).
Proof.
  intros Hok. pose proof Hok as (Hwins & Hcur & Hguesses & Hlen). unfold handleKeyDown.
  destruct (gameState st) eqn:Hstate; try exact Hok.
  case_decide as Henter.
  - case_decide as Hfull; [|exact Hok].
    rewrite <- Hfull in Hlen. destruct Hlen as (Htarget & Hall & _ & Hlt & Hnotin).
    assert (Hguesses' : Forall uppercase (guesses st ++ [currentGuess st])).
    { apply list.Forall_app. split; [assumption|]. now apply Forall_singleton. }
    assert (Hall' : Forall (fun g => length g = length (currentGuess st))
                      (guesses st ++ [currentGuess st])).
    { apply list.Forall_app. split; [assumption|]. now apply Forall_singleton. }
    case_decide as Hhit; [|destruct (Nat.leb_spec 6 (length (guesses st ++ [currentGuess st])))
                              as [Hsix|Hless]].
    + unfold ok. cbn. rewrite <- Hfull.
      split; [|split; [constructor|split; [assumption|]]].
      { apply list.Forall_app. split; [assumption|]. apply Forall_singleton. lia. }
      split; [assumption|]. split; [assumption|]. split; [lia|].
      split; [reflexivity|]. split; [rewrite length_app; cbn; lia|]. split.
      * exists (guesses st). split; [now rewrite Hhit|assumption].
      * rewrite last_snoc, length_app. cbn. f_equal. lia.
    + unfold ok. cbn. rewrite <- Hfull.
      split; [assumption|]. split; [constructor|]. split; [assumption|].
      split; [assumption|]. split; [assumption|]. split; [lia|].
      split; [reflexivity|]. rewrite length_app in *. cbn in *. split; [lia|].
      apply not_elem_of_app. split; [assumption|].
      apply not_elem_of_cons. split; [congruence|apply not_elem_of_nil].
    + unfold ok. cbn. rewrite <- Hfull.
      split; [assumption|]. split; [constructor|]. split; [assumption|].
      split; [assumption|]. split; [assumption|]. split; [lia|].
      split; [assumption|].
      apply not_elem_of_app. split; [assumption|].
      apply not_elem_of_cons. split; [congruence|apply not_elem_of_nil].
  - case_decide as Hback.
    + unfold ok. cbn. rewrite ?Hstate.
      split; [assumption|]. split; [now apply removelast_Forall|]. split; [assumption|].
      destruct (wordLength st) as [n|].
      * destruct Hlen as (Htarget & Hall & Hcglen & Hplay).
        split; [assumption|]. split; [assumption|]. split; [|assumption].
        pose proof (removelast_length_le (currentGuess st)). lia.
      * destruct Hlen as (Hg & Hc & _). rewrite Hc. cbn. tauto.
    + destruct key as [|c [|c' key]]; try exact Hok.
      destruct (is_letter c) eqn:Hletter; [|exact Hok].
      destruct (Nat.ltb_spec (length (currentGuess st)) (default 0%nat (wordLength st)))
        as [Hroom|Hnone]; cbn [andb]; [|exact Hok].
      unfold ok. cbn. rewrite ?Hstate.
      split; [assumption|]. split.
      { apply list.Forall_app. split; [assumption|].
        apply Forall_singleton. now apply letter_uppercase. }
      split; [assumption|].
      destruct (wordLength st) as [n|]; cbn in Hroom; [|lia].
      destruct Hlen as (Htarget & Hall & Hcglen & Hplay).
      split; [assumption|]. split; [assumption|]. split; [|assumption].
      rewrite length_app. cbn. lia.
Qed.

Lemma wordle_fire_ok (ev : Event) (st : State) : ok st -> ok (fire ev st).
Proof.
  intros Hok. destruct ev as [len random|key|]; unfold fire.
  - destruct (wordLength st) eqn:Hnone; [assumption|].
    destruct (((len =? 4) || (len =? 5) || (len =? 6))%nat && (random <? 8)%nat) eqn:Hguard;
      [|assumption].
    unfold chooseLength.
    destruct (wordsByLength len) as [possibleWords|] eqn:Hwords; [|assumption].
    destruct (possibleWords !! random) as [word|] eqn:Hword; [|assumption].
    destruct Hok as (Hwins & Hcur & Hguesses & Hlen). rewrite Hnone in Hlen.
    destruct Hlen as (Hg & Hc & Hplaying).
    unfold ok. cbn. rewrite Hg, Hc, Hplaying.
    split; [assumption|]. split; [constructor|]. split; [constructor|].
    split; [exact (word_length len random possibleWords word Hwords Hword)|].
    split; [constructor|]. split; [cbn; lia|]. split; [cbn; lia|apply not_elem_of_nil].
  - now apply handleKeyDown_ok.
  - destruct (wordLength st) as [n|] eqn:Hn; [|assumption].
    destruct Hok as (Hwins & Hcur & Hguesses & Hlen). rewrite Hn in Hlen.
    destruct (gameState st) eqn:Hstate.
    + unfold ok. rewrite Hn, Hstate. tauto.
    + destruct Hlen as (_ & _ & _ & Hc & _).
      unfold ok, playAgain. cbn. rewrite Hc. repeat split; try assumption; constructor.
    + destruct Hlen as (_ & _ & _ & Hc & _).
      unfold ok, playAgain. cbn. rewrite Hc. repeat split; try assumption; constructor.
Qed.

Lemma wordle_run_ok (evs : list Event) : ok (run evs).
Proof.
  unfold run.
  assert (H : forall st, ok st -> ok (foldl (fun acc ev => fire ev acc) st evs)).
  { induction evs as [|ev evs IH]; intros st Hst; [exact Hst|].
    cbn. apply IH, wordle_fire_ok, Hst. }
  apply H. unfold ok. cbn. repeat split; constructor.
Qed.

End WordleFacts.

(** X20. Whatever the keys pressed and the buttons clicked, a game of Wordle
    holds at most six guesses, each of the chosen length and in capital
    letters; it is won exactly when the last guess is the target word, none
    before it being the target, and the score handed to [onWin] is then the
    number of guesses; it is lost only with six guesses, none of them the
    target; and while it is played fewer than six guesses have been made,
    none of them the target.  Every score reported lies between 1 and 6. *)
Theorem wordle_game_is_sound (evs : list Wordle.Event) :
  let st := Wordle.run evs in
  (length (Wordle.guesses st) <= 6)%nat
  /\ (forall g, g ∈ Wordle.guesses st ->
        Some (length g) = Wordle.wordLength st /\ Forall (fun c => (65 <= c <= 90)%Z) g)
  /\ match Wordle.gameState st with
     | Wordle.playing =>
         (length (Wordle.guesses st) < 6)%nat
         /\ Wordle.targetWord st ∉ Wordle.guesses st
     | Wordle.won =>
         (exists earlier,
             Wordle.guesses st = earlier ++ [Wordle.targetWord st]
             /\ Wordle.targetWord st ∉ earlier)
         /\ list.last (Wordle.wins st) = Some (Z.of_nat (length (Wordle.guesses st)))
     | Wordle.lost =>
         length (Wordle.guesses st) = 6%nat
         /\ Wordle.targetWord st ∉ Wordle.guesses st
     end
  /\ Forall (fun s => (1 <= s <= 6)%Z) (Wordle.wins st).
Proof.
  intros st. destruct (wordle_run_ok evs) as (Hwins & Hcur & Hguesses & Hlen). fold st in Hwins, Hcur, Hguesses, Hlen.
  destruct (Wordle.wordLength st) as [n|] eqn:Hn.
  - destruct Hlen as (Htarget & Hall & Hcglen & Hstate).
    split; [|split; [|split; [|exact Hwins]]].
    + destruct (Wordle.gameState st); [lia|tauto|lia].
    + intros g Hg. split.
      * f_equal. exact (proj1 (list.Forall_forall _ _) Hall g Hg).
      * exact (proj1 (list.Forall_forall _ _) Hguesses g Hg).
    + destruct (Wordle.gameState st); tauto.
  - destruct Hlen as (Hg & Hc & Hplaying). rewrite Hg, Hplaying.
    split; [cbn; lia|]. split; [intros g Hin; inversion Hin|].
    split; [|exact Hwins]. split; [cbn; lia|apply not_elem_of_nil].
Qed.

(** X21. The tiles of a submitted guess are all green exactly when the guess
    is the target word. *)
Theorem all_green_is_the_target (targetWord guess : JSString) :
  length guess = length targetWord ->
  (forall j, (j < length targetWord)%nat -> Wordle.status targetWord guess j = Wordle.green)
  <-> guess = targetWord.
Proof.
  unfold JSString in *. intros Hlen. split.
  - intros Hgreen. apply list_eq. intros j.
    destruct (Nat.lt_ge_cases j (length targetWord)) as [Hj|Hj].
    + specialize (Hgreen j Hj). unfold Wordle.status, JSString in Hgreen.
      destruct (guess !! j) as [char|] eqn:Hchar; [|discriminate].
      case_decide as Heq; [congruence|].
      destruct (JS.includes targetWord [char]); discriminate.
    + rewrite !lookup_ge_None_2 by lia. reflexivity.
  - intros -> j Hj. unfold Wordle.status, JSString.
    destruct (lookup_lt_is_Some_2 targetWord j Hj) as [char Hchar].
    rewrite Hchar. rewrite decide_True by reflexivity. reflexivity.
Qed.

Lemma all_green_is_the_target_witness :
  Wordle.status (codes "WOLF") (codes "WOLF") 2 = Wordle.green.
Proof.
  apply (proj2 (all_green_is_the_target (codes "WOLF") (codes "WOLF") eq_refl) eq_refl).
  vm_compute. lia.
Defined.

Section MemoryFacts.

Import Memory.

Lemma bounded_length (l : list nat) (n : nat) :
  NoDup l -> Forall (fun id => (id < n)%nat) l -> (length l <= n)%nat.
Proof.
  intros Hnd Hb. rewrite <- (length_seq n 0).
  apply NoDup_incl_length; [now apply NoDup_ListNoDup|].
  intros x Hx. apply in_seq.
  apply list_elem_of_In in Hx.
  pose proof (proj1 (list.Forall_forall _ _) Hb x Hx). cbn in *. lia.
Qed.

Lemma bounded_full (l : list nat) (n : nat) :
  NoDup l -> Forall (fun id => (id < n)%nat) l -> length l = n ->
  forall id, (id < n)%nat -> id ∈ l.
Proof.
  intros Hnd Hb Hlen id Hid. apply list_elem_of_In.
  apply (NoDup_length_incl (proj1 (NoDup_ListNoDup l) Hnd) (l' := seq 0 n)).
  - rewrite length_seq. lia.
  - intros x Hx. apply in_seq. apply list_elem_of_In in Hx.
    pose proof (proj1 (list.Forall_forall _ _) Hb x Hx). cbn in *. lia.
  - apply in_seq. lia.
Qed.

Lemma paired_snoc (cards : list Z) (l : list nat) (a b : nat) :
  paired cards l -> same_icon cards a b = true -> paired cards (l ++ [a; b]).
Proof.
  intros Hl Hab. revert l Hl. fix IH 1. intros [|i [|j rest]]; cbn.
  - intros _. split; [exact Hab|exact I].
  - intros [].
  - intros [Hij Hrest]. split; [exact Hij|]. apply IH, Hrest.
Qed.

Lemma includes_false (l : list nat) (id : nat) : includes l id = false -> id ∉ l.
Proof. unfold includes. intros H. now apply bool_decide_eq_false in H. Qed.

Lemma handleClick_ok (id : nat) (st : State) :
  (id < length (cards st))%nat -> ok st -> ok (handleClick id st).
Proof.
  intros Hid Hok. pose proof Hok as (Hf & Hnd & Hb & Hp & Hm & Ht & Htf & Hw).
  unfold handleClick.
  destruct (Nat.eqb_spec (length (flipped st)) 2) as [Htwo|Htwo]; [exact Hok|].
  destruct (includes (flipped st) id) eqn:Hinf; [exact Hok|].
  destruct (includes (solved st) id) eqn:Hins; [exact Hok|].
  cbn [orb]. apply includes_false in Hinf, Hins.
  assert (Hnone : timeouts st = 0%nat).
  { destruct (timeouts st) as [|[|n]]; [reflexivity| |lia]. specialize (Htf eq_refl). lia. }
  apply list.NoDup_app in Hnd as (Hndf & Hdisj & Hnds).
  apply list.Forall_app in Hb as [Hbf Hbs].
  assert (Hopen : wins st = []).
  { destruct (wins st) as [|score [|more rest]]; [reflexivity| |contradiction].
    destruct Hw as [Hall _]. exfalso. apply Hins.
    now apply (bounded_full (solved st) (length (cards st))). }
  rewrite Hopen in Hw.
  destruct (flipped st) as [|a [|b rest]] eqn:Hflipped; cbn [length] in *; try lia.
  - cbn. unfold ok. cbn. rewrite Hopen.
    split; [lia|]. split.
    { apply list.NoDup_cons. split; [exact Hins|exact Hnds]. }
    split; [constructor; assumption|].
    split; [assumption|]. split; [assumption|]. split; [lia|]. split; [lia|assumption].
  - cbn [app length Nat.eqb].
    assert (Ha : a ∉ solved st) by (apply Hdisj, list_elem_of_here).
    assert (Hne : a <> id) by (intros ->; apply Hinf, list_elem_of_here).
    destruct (same_icon (cards st) a id) eqn:Hicon.
    + assert (Hnd' : NoDup (solved st ++ [a; id])).
      { apply list.NoDup_app. split; [exact Hnds|]. split.
        - intros x Hx Hx'. apply elem_of_cons in Hx' as [->|Hx']; [contradiction|].
          apply elem_of_cons in Hx' as [->|Hx']; [contradiction|inversion Hx'].
        - apply list.NoDup_cons. split; [|apply NoDup_singleton].
          intros Hin. apply elem_of_cons in Hin as [->|Hin]; [congruence|inversion Hin]. }
      assert (Hb' : Forall (fun i => (i < length (cards st))%nat) (solved st ++ [a; id])).
      { apply list.Forall_app. split; [exact Hbs|].
        constructor; [now inversion Hbf|]. constructor; [exact Hid|constructor]. }
      pose proof (bounded_length _ _ Hnd' Hb') as Hle. rewrite length_app in Hle. cbn in Hle.
      unfold ok. cbn [flipped solved cards moves timeouts wins app length].
      rewrite Hopen, length_app. cbn [length].
      split; [lia|]. split; [exact Hnd'|]. split; [exact Hb'|].
      split; [now apply paired_snoc|]. split; [lia|]. split; [lia|]. split; [lia|].
      destruct (Nat.eqb_spec (length (solved st) + 2) (length (cards st))) as [Hwin|Hnot];
        cbn [app].
      * split; lia.
      * left. lia.
    + unfold ok. cbn [flipped solved cards moves timeouts wins app length].
      rewrite Hopen, Hnone.
      split; [lia|]. split.
      { apply list.NoDup_cons. split.
        - intros Hin. apply elem_of_cons in Hin as [->|Hin]; [congruence|contradiction].
        - apply list.NoDup_cons. split; [exact Hins|exact Hnds]. }
      split; [constructor; [now inversion Hbf|constructor; assumption]|].
      split; [assumption|]. split; [lia|]. split; [lia|]. split; [reflexivity|assumption].
Qed.

Lemma memory_fire_ok (ev : Event) (st : State) : ok st -> ok (fire ev st).
Proof.
  intros Hok. destruct ev as [id|]; unfold fire.
  - destruct (Nat.ltb_spec id (length (cards st))); [|exact Hok].
    now apply handleClick_ok.
  - unfold timeout. destruct (timeouts st) as [|n] eqn:Hn; [exact Hok|].
    destruct Hok as (Hf & Hnd & Hb & Hp & Hm & Ht & Htf & Hw). rewrite Hn in *.
    apply list.NoDup_app in Hnd as (_ & _ & Hnds).
    apply list.Forall_app in Hb as [_ Hbs].
    unfold ok. cbn.
    split; [lia|]. split; [assumption|]. split; [assumption|]. split; [assumption|].
    split; [assumption|]. split; [lia|]. split; [lia|assumption].
Qed.

Lemma fire_cards (ev : Event) (st : State) : cards (fire ev st) = cards st.
Proof.
  destruct ev as [id|]; unfold fire, handleClick, timeout.
  - repeat (case_match; try reflexivity).
  - case_match; reflexivity.
Qed.

Lemma memory_run_ok (evs : list Event) (st : State) :
  ok st -> ok (run evs st) /\ cards (run evs st) = cards st.
Proof.
  revert st. induction evs as [|ev evs IH]; intros st Hst; [split; [exact Hst|reflexivity]|].
  unfold run. cbn [foldl]. fold (run evs (fire ev st)).
  destruct (IH (fire ev st) (memory_fire_ok ev st Hst)) as [Hok Hcards].
  split; [exact Hok|]. rewrite Hcards. apply fire_cards.
Qed.

End MemoryFacts.

(** X22. Whatever the order of the cards and of the clicks, and whenever
    the timeouts run, at most two cards are turned up, no card is both
    turned up and solved, the solved cards are pairs of cards with the same
    icon, and [onWin] is called at most once, when every card is solved, with
    the number of pairs turned, which is at least half the number of
    cards. *)
Theorem memory_game_is_sound (shuffled : list Z) (evs : list Memory.Event) :
  let st := Memory.run evs (Memory.mount shuffled) in
  Memory.cards st = shuffled
  /\ (length (Memory.flipped st) <= 2)%nat
  /\ (forall id, id ∈ Memory.flipped st -> id ∉ Memory.solved st)
  /\ Memory.paired shuffled (Memory.solved st)
  /\ (Memory.wins st = []
      \/ exists score,
           Memory.wins st = [score]
           /\ score = Memory.moves st
           /\ (forall id, (id < length shuffled)%nat -> id ∈ Memory.solved st)
           /\ (length shuffled <= 2 * score)%nat).
Proof.
  intros st.
  destruct (memory_run_ok evs (Memory.mount shuffled)) as [Hok Hcards].
  { unfold Memory.ok, Memory.mount. cbn.
    split; [lia|]. split; [constructor|]. split; [constructor|]. split; [exact I|].
    split; [lia|]. split; [lia|]. split; [discriminate|].
    destruct shuffled; [now right|left; cbn; lia]. }
  fold st in Hok, Hcards. change (Memory.cards (Memory.mount shuffled)) with shuffled in Hcards.
  destruct Hok as (Hf & Hnd & Hb & Hp & Hm & Ht & Htf & Hw). rewrite Hcards in *.
  apply list.NoDup_app in Hnd as (_ & Hdisj & Hnds).
  apply list.Forall_app in Hb as [_ Hbs].
  split; [reflexivity|]. split; [exact Hf|]. split; [exact Hdisj|]. split; [exact Hp|].
  destruct (Memory.wins st) as [|score [|more rest]]; [now left| |contradiction].
  right. exists score. destruct Hw as [Hall ->].
  split; [reflexivity|]. split; [reflexivity|]. split; [|lia].
  now apply bounded_full.
Qed.

Section SudokuFacts.

Import Sudoku.

Local Open Scope Z_scope.

Lemma solved_agrees (r c : nat) (v : Z) :
  cell puzzle r c = Some v -> v <> 0 -> cell solved r c = Some v.
Proof.
  destruct r as [|[|[|[|[|[|[|[|[|r]]]]]]]]]; [..|discriminate].
  all: destruct c as [|[|[|[|[|[|[|[|[|c]]]]]]]]]; [..|discriminate].
  all: cbn; intros [= <-] Hv; try reflexivity; contradiction.
Qed.

Lemma fire_kept (ev : Event) (st : State) : kept st -> kept (fire ev st).
Proof.
  intros Hkept. pose proof Hkept as (Hinit & Hsel & Hgiven).
  destruct ev as [r c|num|]; unfold fire.
  - destruct (cell (grid st) r c); [|exact Hkept].
    unfold clickCell. rewrite Hinit at 1.
    destruct (cell puzzle r c) as [[| |]|] eqn:Hcell; try exact Hkept.
    split; [exact Hinit|]. split; [|exact Hgiven].
    cbn. intros r' c' [= <- <-]. exact Hcell.
  - destruct ((0 <=? num) && (num <=? 9)); [|exact Hkept].
    unfold clickPad. destruct (selected st) as [[r c]|] eqn:Hselected;
      [|exact Hkept].
    split; [exact Hinit|]. split; [exact Hsel|].
    cbn. intros r' c' v Hcell Hv.
    specialize (Hgiven r' c' v Hcell Hv). unfold cell in *.
    rewrite list_lookup_alter. case_decide as Hr; [|exact Hgiven].
    subst r'. revert Hgiven. destruct (grid st !! r) as [row|]; [|discriminate]. cbn.
    intros Hgiven. rewrite list_lookup_insert_ne; [exact Hgiven|].
    intros ->. specialize (Hsel r c' eq_refl). unfold cell in Hsel. congruence.
  - split; [exact Hinit|]. split; [exact Hsel|].
    cbn. apply solved_agrees.
Qed.

Lemma run_kept (evs : list Event) : kept (run evs).
Proof.
  unfold run.
  assert (H : forall st, kept st -> kept (foldl (fun acc ev => fire ev acc) st evs)).
  { induction evs as [|ev evs IH]; intros st Hst; [exact Hst|].
    cbn. apply IH, fire_kept, Hst. }
  apply H. split; [reflexivity|]. split; [discriminate|]. intros r c v Hcell _. exact Hcell.
Qed.

End SudokuFacts.

(** X23. The givens of the Sudoku cannot be changed: whatever cells are
    clicked, whatever digits are entered from the pad, and whether or not
    Solve is clicked, every cell that the puzzle gives holds the digit the
    puzzle gives it, the cell selected is never one of them, and the copy
    kept of the puzzle is the puzzle. *)
Theorem sudoku_givens_are_kept (evs : list Sudoku.Event) (r c : nat) (v : Z) :
  Sudoku.cell Sudoku.puzzle r c = Some v ->
  v <> 0%Z ->
  let st := Sudoku.run evs in
  Sudoku.cell (Sudoku.grid st) r c = Some v
  /\ Sudoku.selected st <> Some (r, c)
  /\ Sudoku.initialGrid st = Sudoku.puzzle.
Proof.
  intros Hcell Hv st. destruct (run_kept evs) as (Hinit & Hsel & Hgiven).
  split; [now apply Hgiven|]. split; [|exact Hinit].
  intros Hselected. specialize (Hsel r c Hselected). congruence.
Qed.

Lemma sudoku_givens_are_kept_witness :
  Sudoku.cell
    (Sudoku.grid
       (Sudoku.run [Sudoku.click_cell 0 0; Sudoku.click_cell 0 2; Sudoku.click_pad 4;
                    Sudoku.click_cell 0 1; Sudoku.click_pad 9])) 0 1
  = Some 3%Z.
Proof.
  apply (sudoku_givens_are_kept
           [Sudoku.click_cell 0 0; Sudoku.click_cell 0 2; Sudoku.click_pad 4;
            Sudoku.click_cell 0 1; Sudoku.click_pad 9] 0 1 3 eq_refl).
  discriminate.
Defined.

(** ** What the controller never releases *)

Ltac orphan :=
  unfold spares in *;
  repeat match goal with
  | H : orphaned _ _ |- _ => destruct H as [? ?]
  end;
  cbn in *;
  lazymatch goal with
  | |- orphaned _ _ =>
      split; cbn;
      [ rewrite ?list_lookup_insert_ne by congruence;
        rewrite ?lookup_app_l by (eapply lookup_lt_Some; eassumption);
        assumption
      | first [ assumption | congruence
              | let H := fresh in
                intros [= H];
                repeat match goal with
                | L : sessions _ !! _ = Some _ |- _ => apply lookup_lt_Some in L
                end; lia ] ]
  | |- _ <> _ => congruence
  end.

Ltac live :=
  unfold microphones_live in *; cbn in *;
  lazymatch goal with
  | |- Forall _ (_ ++ _) =>
      apply list.Forall_app; split; [assumption|apply Forall_singleton; reflexivity]
  | |- Forall _ _ => assumption
  | |- True => exact I
  end.

Section Handlers.

Variable s : nat.

Lemma stopLiveVoice_orphans (w : World) :
  orphaned s w -> Maintains (orphaned s) (spares s) (stopLiveVoice w).
Proof.
  intros Hw. unfold stopLiveVoice. unfold_async. cbn.
  repeat maintains_step; try orphan.
Qed.

Lemma startLiveVoice_orphans (w : World) :
  orphaned s w -> Maintains (orphaned s) (spares s) (startLiveVoice w).
Proof.
  intros Hw. unfold startLiveVoice, stopLiveVoice. unfold_async. cbn.
  repeat maintains_step; try orphan.
Qed.

Lemma onmessage_orphans (ctx : nat) (m : Inbound.Message) (w : World) :
  orphaned s w -> Maintains (orphaned s) (spares s) (onmessage ctx m w).
Proof.
  intros Hw. unfold_async. cbn.
  repeat maintains_step; try orphan.
Qed.

Lemma onended_orphans (source : nat) (w : World) :
  orphaned s w -> Maintains (orphaned s) (spares s) (onended source w).
Proof.
  intros Hw. unfold_async. cbn.
  repeat maintains_step; try orphan.
Qed.

Lemma onopen_orphans (w : World) :
  orphaned s w -> Maintains (orphaned s) (spares s) (onopen w).
Proof. intros Hw. unfold_async. cbn. apply maintains_returned. orphan. Qed.

Lemma mark_orphaned (src : nat) (st : SourceState) (w : World) :
  orphaned s w -> orphaned s (mark src st w).
Proof. intros Hw. unfold mark. orphan. Qed.

End Handlers.

Lemma stopLiveVoice_live (w : World) :
  microphones_live w -> Maintains microphones_live (fun _ => True) (stopLiveVoice w).
Proof.
  intros Hw. unfold stopLiveVoice. unfold_async. cbn.
  repeat maintains_step; try live.
Qed.

Lemma startLiveVoice_live (w : World) :
  microphones_live w -> Maintains microphones_live (fun _ => True) (startLiveVoice w).
Proof.
  intros Hw. unfold startLiveVoice, stopLiveVoice. unfold_async. cbn.
  repeat maintains_step; try live.
Qed.

Lemma onmessage_live (ctx : nat) (m : Inbound.Message) (w : World) :
  microphones_live w -> Maintains microphones_live (fun _ => True) (onmessage ctx m w).
Proof.
  intros Hw. unfold_async. cbn.
  repeat maintains_step; try live.
Qed.

Lemma onended_live (source : nat) (w : World) :
  microphones_live w -> Maintains microphones_live (fun _ => True) (onended source w).
Proof.
  intros Hw. unfold_async. cbn.
  repeat maintains_step; try live.
Qed.

Lemma onopen_live (w : World) :
  microphones_live w -> Maintains microphones_live (fun _ => True) (onopen w).
Proof. intros Hw. unfold_async. cbn. apply maintains_returned. live. Qed.

(** The handlers started anywhere: what they leave suspended never closes
    a session they did not read from the reference. *)

Ltac tame_step :=
  lazymatch goal with
  | |- Tame (Returned _ _) => apply tame_returned
  | |- Tame (Thrown _ _) => apply tame_thrown
  | |- Tame (Awaiting _ _ _) =>
      apply tame_awaiting;
      [ intros [?|] ?; cbn
      | intros ? [?|] ? ? ?; cbn ]
  | |- Tame _ => break_match; cbn
  | |- Maintains _ _ _ => maintains_step
  end.

Lemma stopLiveVoice_tame (w : World) : Tame (stopLiveVoice w).
Proof.
  unfold stopLiveVoice. unfold_async. cbn.
  repeat tame_step; try orphan.
Qed.

Lemma startLiveVoice_tame (w : World) : Tame (startLiveVoice w).
Proof.
  unfold startLiveVoice, stopLiveVoice. unfold_async. cbn.
  repeat tame_step; try orphan.
Qed.

Lemma onmessage_tame (ctx : nat) (m : Inbound.Message) (w : World) : Tame (onmessage ctx m w).
Proof.
  unfold_async. cbn.
  repeat tame_step; try orphan.
Qed.

Lemma onended_tame (source : nat) (w : World) : Tame (onended source w).
Proof.
  unfold_async. cbn.
  repeat tame_step; try orphan.
Qed.

Lemma onopen_tame (w : World) : Tame (onopen w).
Proof. unfold_async. cbn. apply tame_returned. Qed.

Lemma enter_tame (o : Outcome unit) (l : Loop) :
  Tame o -> Forall suspended_tame (pending l) -> Forall suspended_tame (pending (enter o l)).
Proof.
  intros Ho Hp. destruct Ho as [w a|w e|w T r k Hk Hs]; cbn; try assumption.
  apply list.Forall_app. split; [assumption|]. apply Forall_singleton. split; assumption.
Qed.

Lemma fire_tame (ev : Event) (l : Loop) :
  Forall suspended_tame (pending l) -> Forall suspended_tame (pending (fire ev l)).
Proof.
  intros Hp. destruct ev as [| | |ctx m|i failure|src|src]; unfold fire.
  - apply enter_tame; [apply startLiveVoice_tame|assumption].
  - apply enter_tame; [apply stopLiveVoice_tame|assumption].
  - apply enter_tame; [apply onopen_tame|assumption].
  - apply enter_tame; [apply onmessage_tame|assumption].
  - destruct (pending l !! i) as [[T r k]|] eqn:Hi; [|assumption].
    pose proof (Forall_lookup_1 _ _ _ _ Hp Hi) as [Hk _].
    specialize (Hk failure (world l)).
    destruct (settle r failure (world l)) as [w1 res]. cbn in Hk.
    apply enter_tame; [exact Hk|]. cbn. now apply Forall_delete.
  - destruct (source_in Playing src (world l)); assumption.
  - destruct (source_in Ended src (world l)); [|assumption].
    apply enter_tame; [apply onended_tame|assumption].
Qed.

Lemma reachable_tame (evs : list Event) : Forall suspended_tame (pending (run evs boot)).
Proof.
  assert (H : forall l, Forall suspended_tame (pending l) ->
                        Forall suspended_tame (pending (run evs l))).
  { induction evs as [|ev evs IH]; intros l Hl; [exact Hl|].
    cbn. apply IH, fire_tame, Hl. }
  apply H. constructor.
Qed.

(** X24. A session that is open, that is not the one in [liveSessionRef],
    and on which no [close()] call is pending, is never closed and never
    comes back into the reference: from any state the event loop has
    reached, whatever the events that follow (starts, stops, messages,
    settlements, ends of playback) and however the calls settle, it stays
    open.  This is the state of the first session once the start button has
    been clicked a second time: [startLiveVoice] overwrites the reference
    without closing the session it held, and [stopLiveVoice] closes only the
    session of the reference. *)
Theorem orphaned_session_is_never_closed (s : nat) (before after : list Event) :
  let l := run before boot in
  sessions (world l) !! s = Some SessionOpen ->
  liveSessionRef (world l) <> Some s ->
  Forall (fun x => awaited x <> call_session_close s) (pending l) ->
  sessions (world (run after l)) !! s = Some SessionOpen
  /\ liveSessionRef (world (run after l)) <> Some s.
Proof.
  intros l Hopen Href Hp.
  apply (run_maintains (orphaned s) (spares s)
           (startLiveVoice_orphans s) (stopLiveVoice_orphans s) (onopen_orphans s)
           (onmessage_orphans s) (onended_orphans s) (mark_orphaned s) after l).
  split; [split; assumption|].
  pose proof (reachable_tame before) as Htame. fold l in Htame.
  apply list.Forall_forall. intros x Hx.
  rewrite list.Forall_forall in Hp, Htame.
  specialize (Hp x Hx). specialize (Htame x Hx).
  destruct x as [T r k]. destruct Htame as [_ Hk].
  split; [exact Hp|]. intros failure w0 Hw0. now apply Hk.
Qed.

Lemma orphaned_session_is_never_closed_witness :
  let before := double_start ++ [click_stop] in
  let l := run [settled 0 None; settled 0 None] (run before boot) in
  map awaited (pending (run before boot)) = [call_session_close 1]
  /\ sessions (world l) !! 0%nat = Some SessionOpen
  /\ sessions (world l) !! 1%nat = Some SessionClosed
  /\ sessionState (world l) = Idle.
Proof.
  intros before l. split; [reflexivity|]. split; [|split; reflexivity].
  apply (orphaned_session_is_never_closed 0 before [settled 0 None; settled 0 None]).
  - reflexivity.
  - discriminate.
  - apply list.Forall_forall. intros x Hx.
    assert (Hin : awaited x ∈ map awaited (pending (run before boot)))
      by (apply list_elem_of_fmap_2, Hx).
    change (map awaited (pending (run before boot))) with [call_session_close 1] in Hin.
    apply list_elem_of_singleton in Hin. rewrite Hin. discriminate.
Defined.

(** X25. The microphone is never released: every stream that
    [getUserMedia] has handed over is still live, whatever the events since
    the page was loaded, stops included, and however the calls settled. *)
Theorem microphone_is_never_released (evs : list Event) :
  Forall (fun status => status = StreamLive) (streams (world (run evs boot))).
Proof.
  apply (run_maintains microphones_live (fun _ => True)
           startLiveVoice_live stopLiveVoice_live onopen_live onmessage_live onended_live
           (fun src st w H => H) evs boot).
  split; constructor.
Qed.
